(** * Flux: the Dispatcher and the reduce store

    A shallow embedding of [src/stores/FluxReduceStore.js] (which holds both
    the [FluxReduceStore] class and the [Dispatcher] class) and of the
    [FluxStore] base class, with the properties of the dispatch cycle.

    Conventions of the embedding.
    - A JS object used as a dictionary whose enumeration order matters
      ([_callbacks]) is an insertion-ordered association list with unique
      keys; the two flag dictionaries ([_isPending], [_isHandled]), which are
      only read by key, are [gmap]s.  The three are object literals, so a
      read [o[k]] that finds no own property goes on to [Object.prototype]:
      under the names that every object inherits it finds a truthy value
      (a built-in function or, for [__proto__], the prototype itself).  The
      inherited properties are not enumerable, and [delete] and [for-in]
      only see own properties.  No method of the dispatcher gives a
      dictionary an own property under an inherited name ([evolves_plain]).
      The embedding is exact on the states without such a property and is
      not meant for the others, in which JS would, for instance, call a
      built-in of [Object.prototype] where the embedding has a [TypeError]
      (see [_invokeCallback]).
    - [for (id in obj)] visits the keys the object has when the loop starts,
      in creation order; a key deleted before it is reached is skipped and a
      key added while the loop runs is not visited.
    - [_lastID] is a JS number; it is modelled as an unbounded natural, which
      is exact as long as fewer than 2^53 tokens have been minted.
    - A registered callback is arbitrary JS code that may call back into the
      dispatcher.  Its body is a tree of dispatcher calls ([prog]); running it
      may not terminate in JS, so the interpreter is indexed by a recursion
      budget that bounds the nesting of calls.
    - [journal] is a ghost field: it records callback entries, normal callback
      exits and minted tokens and is never read by the code. *)

From stdpp Require Import gmap strings list fin_maps pretty.

(** ** JS objects as insertion-ordered dictionaries *)

Section obj.
Context {V : Type}.

(** [o[k]] *)
Fixpoint obj_get (o : list (string * V)) (k : string) : option V :=
  match o with
  | [] => None
  | (k', v) :: o' => if decide (k' = k) then Some v else obj_get o' k
  end.

(** [o[k] = v]: an existing property keeps its place, a new one goes last. *)
Fixpoint obj_set (o : list (string * V)) (k : string) (v : V) : list (string * V) :=
  match o with
  | [] => [(k, v)]
  | (k', v') :: o' =>
      if decide (k' = k) then (k', v) :: o' else (k', v') :: obj_set o' k v
  end.

(** [delete o[k]] *)
Fixpoint obj_delete (o : list (string * V)) (k : string) : list (string * V) :=
  match o with
  | [] => []
  | (k', v') :: o' =>
      if decide (k' = k) then obj_delete o' k else (k', v') :: obj_delete o' k
  end.

(** The keys [for (k in o)] enumerates. *)
Definition obj_keys (o : list (string * V)) : list string := o.*1.

(** Truthiness of [o[k]] when every stored value is truthy. *)
Definition obj_has (o : list (string * V)) (k : string) : bool :=
  bool_decide (is_Some (obj_get o k)).
End obj.

(** ** Names inherited from [Object.prototype] *)

(** The properties of [Object.prototype]; none is enumerable and each holds
    a truthy value. *)
Definition inherited_names : list string :=
  ["constructor"; "hasOwnProperty"; "isPrototypeOf"; "propertyIsEnumerable";
   "toLocaleString"; "toString"; "valueOf"; "__defineGetter__";
   "__defineSetter__"; "__lookupGetter__"; "__lookupSetter__"; "__proto__"].

Definition inherited (k : string) : bool := bool_decide (k ∈ inherited_names).

(** Truthiness of [o[k]] for an object literal whose own values are all
    truthy: an own property, or an inherited one. *)
Definition obj_truthy {V : Type} (o : list (string * V)) (k : string) : bool :=
  obj_has o k || inherited k.

(** Truthiness of [flags[k]] for an object literal of booleans: the own
    property when there is one; otherwise the inherited one, which is
    truthy, or [undefined]. *)
Definition truthy (flags : gmap string bool) (k : string) : bool :=
  match flags !! k with
  | Some b => b
  | None => inherited k
  end.

(** ** Tokens and errors *)

Abbreviation DispatchToken := string.

Definition _prefix : string := "ID_".

(** What a [throw] carries: a failed [invariant(cond, format, ...args)], the
    [TypeError] of calling a value that is not a function, or a value thrown by
    application code. *)
Inductive error {TExn : Type} : Type :=
| Invariant (format : string) (args : list string)
| NotAFunction (id : DispatchToken)
| Raised (e : TExn).
Arguments error : clear implicits.

Section errors.
Context {TExn : Type}.

Definition ReentrantDispatchError : error TExn :=
  Invariant "Dispatch.dispatch(...): Cannot dispatch in the middle of a dispatch." [].

Definition NotDispatchingError : error TExn :=
  Invariant "Dispatcher.waitFor(...): Must be invoked while dispatching." [].

Definition CircularDependencyError (id : DispatchToken) : error TExn :=
  Invariant "Dispatcher.waitFor(...): Circular dependency detected while waiting for `%s`." [id].

(** Raised by [waitFor]. *)
Definition InvalidTokenError (id : DispatchToken) : error TExn :=
  Invariant "Dispatcher.waitFor(...): `%s` does not map to a registered callback." [id].

(** Raised by [unregister]. *)
Definition InvalidTokenError_unregister (id : DispatchToken) : error TExn :=
  Invariant "Dispatcher.unregister(...): `%s` does not map to a registered callback." [id].
End errors.

(** ** The Dispatcher *)

Section Dispatcher.
Variables TPayload TExn : Type.

(** The body of a callback, as the sequence of calls it makes on the
    dispatcher that invoked it; every call is followed by the rest of the
    body, which may depend on what the call returned. *)
Inductive prog : Type :=
| Ret                                          (* return *)
| Throw (e : error TExn)                       (* throw e *)
| WaitFor (ids : list DispatchToken) (k : prog)
| Dispatch (payload : TPayload) (k : prog)
| Register (callback : option TPayload → prog) (k : DispatchToken → prog)
| Unregister (id : DispatchToken) (k : prog)
| IsDispatching (k : bool → prog)
| TryCatch (body : prog) (handler : error TExn → prog) (k : prog).

(** A callback receives [this._pendingPayload], which is [undefined]
    ([None]) outside a dispatch. *)
Definition callback : Type := option TPayload → prog.

Inductive event : Type :=
| Invoked (id : DispatchToken) (payload : option TPayload)
| Completed (id : DispatchToken)
| Minted (id : DispatchToken).

Record Dispatcher : Type := mkDispatcher {
  _callbacks : list (DispatchToken * callback);
  _isDispatching : bool;
  _isHandled : gmap DispatchToken bool;
  _isPending : gmap DispatchToken bool;
  _lastID : N;
  _pendingPayload : option TPayload;
  journal : list event
}.

(** [new Dispatcher()] *)
Definition constructor : Dispatcher :=
  {| _callbacks := []; _isDispatching := false; _isHandled := ∅;
     _isPending := ∅; _lastID := 1; _pendingPayload := None; journal := [] |}.

Definition set_callbacks (s : Dispatcher) (v : list (DispatchToken * callback)) :=
  mkDispatcher v (_isDispatching s) (_isHandled s) (_isPending s) (_lastID s)
    (_pendingPayload s) (journal s).
Definition set_isDispatching (s : Dispatcher) (v : bool) :=
  mkDispatcher (_callbacks s) v (_isHandled s) (_isPending s) (_lastID s)
    (_pendingPayload s) (journal s).
Definition set_isHandled (s : Dispatcher) (v : gmap DispatchToken bool) :=
  mkDispatcher (_callbacks s) (_isDispatching s) v (_isPending s) (_lastID s)
    (_pendingPayload s) (journal s).
Definition set_isPending (s : Dispatcher) (v : gmap DispatchToken bool) :=
  mkDispatcher (_callbacks s) (_isDispatching s) (_isHandled s) v (_lastID s)
    (_pendingPayload s) (journal s).
Definition set_lastID (s : Dispatcher) (v : N) :=
  mkDispatcher (_callbacks s) (_isDispatching s) (_isHandled s) (_isPending s) v
    (_pendingPayload s) (journal s).
Definition set_pendingPayload (s : Dispatcher) (v : option TPayload) :=
  mkDispatcher (_callbacks s) (_isDispatching s) (_isHandled s) (_isPending s)
    (_lastID s) v (journal s).
Definition record (s : Dispatcher) (e : event) :=
  mkDispatcher (_callbacks s) (_isDispatching s) (_isHandled s) (_isPending s)
    (_lastID s) (_pendingPayload s) (journal s ++ [e]).

(** How a call ends: it returns, it throws, or the recursion budget of the
    interpreter is used up. *)
Inductive outcome : Type :=
| Returns (s : Dispatcher)
| Throws (e : error TExn) (s : Dispatcher)
| OutOfBudget.

Definition andThen (r : outcome) (f : Dispatcher → outcome) : outcome :=
  match r with
  | Returns s => f s
  | Throws e s => Throws e s
  | OutOfBudget => OutOfBudget
  end.

(** [try { r } finally { f }] for a finaliser that cannot throw. *)
Definition finally (r : outcome) (f : Dispatcher → Dispatcher) : outcome :=
  match r with
  | Returns s => Returns (f s)
  | Throws e s => Throws e (f s)
  | OutOfBudget => OutOfBudget
  end.

(** [register(callback)] *)
Definition register (cb : callback) (s : Dispatcher) : DispatchToken * Dispatcher :=
  let id := _prefix +:+ pretty (_lastID s) in
  let s := set_lastID s (_lastID s + 1) in
  let s := set_callbacks s (obj_set (_callbacks s) id cb) in
  (id, record s (Minted id)).

(** [unregister(id)]; [delete] removes an own property and does nothing
    when there is none. *)
Definition unregister (id : DispatchToken) (s : Dispatcher) : outcome :=
  if obj_truthy (_callbacks s) id
  then Returns (set_callbacks s (obj_delete (_callbacks s) id))
  else Throws (InvalidTokenError_unregister id) s.

(** [isDispatching()] *)
Definition isDispatching (s : Dispatcher) : bool := _isDispatching s.

(** [_startDispatching(payload)] *)
Definition _startDispatching (payload : TPayload) (s : Dispatcher) : Dispatcher :=
  let s := foldl (λ s id, set_isHandled (set_isPending s (<[id:=false]> (_isPending s)))
                                       (<[id:=false]> (_isHandled s)))
                 s (obj_keys (_callbacks s)) in
  let s := set_pendingPayload s (Some payload) in
  set_isDispatching s true.

(** [_stopDispatching()] *)
Definition _stopDispatching (s : Dispatcher) : Dispatcher :=
  let s := set_pendingPayload s None in
  set_isDispatching s false.

Section calls.
(** How the body of a callback is run. *)
Variable run : prog → Dispatcher → outcome.

(** [_invokeCallback(id)].  [dispatch] comes here with an own key of
    [_callbacks] only.  [waitFor] comes here without one only under an
    inherited name for which [_isPending] holds an own property; no method
    of the dispatcher writes such a property ([evolves_plain] below), so
    this happens in no state that is reached from a new dispatcher.  There
    JS calls a built-in of [Object.prototype], which is no callback of the
    dispatcher; the embedding ends that call as it ends the call of
    [undefined], with the [TypeError]. *)
Definition _invokeCallback_with (id : DispatchToken) (s : Dispatcher) : outcome :=
  let s := set_isPending s (<[id:=true]> (_isPending s)) in
  match obj_get (_callbacks s) id with
  | None => Throws (NotAFunction id) s
  | Some cb =>
      andThen (run (cb (_pendingPayload s)) (record s (Invoked id (_pendingPayload s))))
        (λ s, Returns (record (set_isHandled s (<[id:=true]> (_isHandled s)))
                              (Completed id)))
  end.

(** The [for] loop of [waitFor]. *)
Fixpoint waitFor_loop (ids : list DispatchToken) (s : Dispatcher) : outcome :=
  match ids with
  | [] => Returns s
  | id :: ids =>
      if truthy (_isPending s) id then
        if truthy (_isHandled s) id then waitFor_loop ids s
        else Throws (CircularDependencyError id) s
      else if obj_truthy (_callbacks s) id then
        andThen (_invokeCallback_with id s) (waitFor_loop ids)
      else Throws (InvalidTokenError id) s
  end.

(** [waitFor(ids)] *)
Definition waitFor_with (ids : list DispatchToken) (s : Dispatcher) : outcome :=
  if _isDispatching s then waitFor_loop ids s
  else Throws NotDispatchingError s.

(** The [for (id in this._callbacks)] loop of [dispatch], over the keys
    enumerated when the loop starts. *)
Fixpoint dispatch_loop (ids : list DispatchToken) (s : Dispatcher) : outcome :=
  match ids with
  | [] => Returns s
  | id :: ids =>
      if obj_has (_callbacks s) id then
        if truthy (_isPending s) id then dispatch_loop ids s
        else andThen (_invokeCallback_with id s) (dispatch_loop ids)
      else dispatch_loop ids s
  end.

(** [dispatch(payload)] *)
Definition dispatch_with (payload : TPayload) (s : Dispatcher) : outcome :=
  if _isDispatching s then Throws ReentrantDispatchError s
  else
    let s := _startDispatching payload s in
    finally (dispatch_loop (obj_keys (_callbacks s)) s) _stopDispatching.
End calls.

(** Running the body of a callback with a budget of nested calls. *)
Fixpoint run (budget : nat) (p : prog) (s : Dispatcher) : outcome :=
  match budget with
  | O => OutOfBudget
  | S n =>
      match p with
      | Ret => Returns s
      | Throw e => Throws e s
      | WaitFor ids k => andThen (waitFor_with (run n) ids s) (run n k)
      | Dispatch payload k => andThen (dispatch_with (run n) payload s) (run n k)
      | Register cb k => let '(id, s) := register cb s in run n (k id) s
      | Unregister id k => andThen (unregister id s) (run n k)
      | IsDispatching k => run n (k (isDispatching s)) s
      | TryCatch body handler k =>
          match run n body s with
          | Returns s => run n k s
          | Throws e s => andThen (run n (handler e) s) (run n k)
          | OutOfBudget => OutOfBudget
          end
      end
  end.

Definition _invokeCallback (budget : nat) := _invokeCallback_with (run budget).
Definition waitFor (budget : nat) := waitFor_with (run budget).
Definition dispatch (budget : nat) := dispatch_with (run budget).

(** *** Callers of the public interface *)

(** A call made on the dispatcher from outside any callback. *)
Inductive call : Type :=
| CallRegister (cb : callback)
| CallUnregister (id : DispatchToken)
| CallWaitFor (budget : nat) (ids : list DispatchToken)
| CallDispatch (budget : nat) (payload : TPayload).

Definition perform (c : call) (s : Dispatcher) : outcome :=
  match c with
  | CallRegister cb => Returns (register cb s).2
  | CallUnregister id => unregister id s
  | CallWaitFor budget ids => waitFor budget ids s
  | CallDispatch budget payload => dispatch budget payload s
  end.

(** The dispatcher a caller is left with, whether the call returned or
    threw. *)
Definition state_of (r : outcome) : option Dispatcher :=
  match r with
  | Returns s => Some s
  | Throws _ s => Some s
  | OutOfBudget => None
  end.

(** [evolves s s']: some sequence of calls from outside takes [s] to [s']. *)
Inductive evolves (s : Dispatcher) : Dispatcher → Prop :=
| evolves_refl : evolves s s
| evolves_call c s1 s2 :
    evolves s s1 → state_of (perform c s1) = Some s2 → evolves s s2.

(** The states of a dispatcher during its lifetime. *)
Definition reachable (s : Dispatcher) : Prop := evolves constructor s.

(** *** Reading the journal *)

(** The callback entries, in order. *)
Fixpoint invocations (j : list event) : list (DispatchToken * option TPayload) :=
  match j with
  | [] => []
  | Invoked id p :: j => (id, p) :: invocations j
  | _ :: j => invocations j
  end.

(** The tokens whose callback returned, in order. *)
Fixpoint completions (j : list event) : list DispatchToken :=
  match j with
  | [] => []
  | Completed id :: j => id :: completions j
  | _ :: j => completions j
  end.

(** The tokens [register] returned, in order. *)
Fixpoint minted (j : list event) : list DispatchToken :=
  match j with
  | [] => []
  | Minted id :: j => id :: minted j
  | _ :: j => minted j
  end.

(** [id]'s callback was entered and has not returned: its invocation is
    open on the call stack of the cycle whose journal is [j]. *)
Definition open_in (j : list event) (id : DispatchToken) : Prop :=
  id ∈ (invocations j).*1 ∧ id ∉ completions j.

(** *** The elementary state changes inside a dispatch cycle *)

Definition mark_pending (id : DispatchToken) (s : Dispatcher) : Dispatcher :=
  set_isPending s (<[id:=true]> (_isPending s)).

Definition mark_handled (id : DispatchToken) (s : Dispatcher) : Dispatcher :=
  record (set_isHandled s (<[id:=true]> (_isHandled s))) (Completed id).

Inductive cycle_step : Dispatcher → Dispatcher → Prop :=
| step_enter id s :
    truthy (_isPending s) id = false →
    obj_has (_callbacks s) id = true →
    cycle_step s (record (mark_pending id s) (Invoked id (_pendingPayload s)))
| step_complete id s :
    _isPending s !! id = Some true →
    cycle_step s (mark_handled id s)
| step_register cb s :
    cycle_step s (register cb s).2
| step_unregister id s :
    obj_has (_callbacks s) id = true →
    cycle_step s (set_callbacks s (obj_delete (_callbacks s) id))
| step_miss id s :                    (* what was called is no callback *)
    truthy (_isPending s) id = false →
    obj_has (_callbacks s) id = false →
    inherited id = true →
    cycle_step s (mark_pending id s).

(** *** The call stack of a cycle *)

(** The tokens whose callback is being run, innermost first, next to the
    dispatcher.  The stack is not part of the JS state. *)
Definition frames : Type := list DispatchToken * Dispatcher.

Inductive frame_step : frames → frames → Prop :=
| frame_enter id stk s :
    truthy (_isPending s) id = false →
    obj_has (_callbacks s) id = true →
    frame_step (stk, s)
               (id :: stk, record (mark_pending id s) (Invoked id (_pendingPayload s)))
| frame_return id stk s :
    frame_step (id :: stk, s) (stk, mark_handled id s)
| frame_unwind id stk s :             (* the callback threw *)
    frame_step (id :: stk, s) (stk, s)
| frame_register cb stk s :
    frame_step (stk, s) (stk, (register cb s).2)
| frame_unregister id stk s :
    obj_has (_callbacks s) id = true →
    frame_step (stk, s) (stk, set_callbacks s (obj_delete (_callbacks s) id))
| frame_miss id stk s :               (* what was called is no callback *)
    truthy (_isPending s) id = false →
    obj_has (_callbacks s) id = false →
    inherited id = true →
    frame_step (stk, s) (stk, mark_pending id s).

(** Every callback on the stack has been marked pending. *)
Definition stack_ok (f : frames) : Prop :=
  ∀ id, id ∈ f.1 → _isPending f.2 !! id = Some true.

(** A callback that is pending, not handled and not on the call stack: it
    threw. *)
Definition dead (id : DispatchToken) (f : frames) : Prop :=
  (id ∉ f.1) ∧ truthy (_isPending f.2) id = true ∧ truthy (_isHandled f.2) id = false.

(** *** Classes of callback bodies *)

(** A body that, on every path, returns without throwing and without calling
    [waitFor], [dispatch] or [unregister]. *)
Inductive calm : prog → Prop :=
| calm_Ret : calm Ret
| calm_Register cb k : (∀ id, calm (k id)) → calm (Register cb k)
| calm_IsDispatching k : (∀ b, calm (k b)) → calm (IsDispatching k)
| calm_TryCatch body handler k : calm body → calm k → calm (TryCatch body handler k).

(** A body that is a sequence of [waitFor] calls and nothing else. *)
Fixpoint waiter (p : prog) : Prop :=
  match p with
  | Ret => True
  | WaitFor _ k => waiter k
  | _ => False
  end.

(** The tokens a sequence of [waitFor] calls names. *)
Fixpoint waits (p : prog) : list DispatchToken :=
  match p with
  | WaitFor ids k => ids ++ waits k
  | _ => []
  end.

(** The number of calls in a sequence of [waitFor] calls, plus one. *)
Fixpoint depth (p : prog) : nat :=
  match p with
  | WaitFor _ k => S (depth k)
  | _ => 1
  end.

(** [waits_on o payload a b]: on [payload], the callback registered under
    [a] calls [waitFor] with [b]. *)
Definition waits_on (o : list (DispatchToken * callback)) (payload : TPayload)
    (a b : DispatchToken) : Prop :=
  ∃ cb, obj_get o a = Some cb ∧ b ∈ waits (cb (Some payload)).

(** Every registered callback only calls [waitFor], on registered tokens. *)
Definition waiters_only (o : list (DispatchToken * callback)) (payload : TPayload) : Prop :=
  ∀ id cb, obj_get o id = Some cb →
    waiter (cb (Some payload)) ∧
    ∀ t, t ∈ waits (cb (Some payload)) → obj_has o t = true.

(** *** Cycles of callbacks that wait for one another *)

(** A token that waits for itself, directly or through a chain. *)
Definition cyclic (o : list (DispatchToken * callback)) (payload : TPayload)
    (c : DispatchToken) : Prop :=
  tc (waits_on o payload) c c.

(** A state of a dispatch of [payload] over the registry [o]. *)
Definition during (o : list (DispatchToken * callback)) (payload : TPayload)
    (s : Dispatcher) : Prop :=
  _callbacks s = o ∧ _isDispatching s = true ∧ _pendingPayload s = Some payload.

(** No token on a cycle has been handled. *)
Definition blocked (o : list (DispatchToken * callback)) (payload : TPayload)
    (s : Dispatcher) : Prop :=
  ∀ c, cyclic o payload c → truthy (_isHandled s) c = false.

(** [s'] has no fewer flags raised than [s], and no more callbacks in
    progress. *)
Definition settles (s s' : Dispatcher) : Prop :=
  (∀ t, truthy (_isPending s) t = true → truthy (_isPending s') t = true) ∧
  (∀ t, truthy (_isHandled s) t = true → truthy (_isHandled s') t = true) ∧
  (∀ t, truthy (_isPending s') t = true → truthy (_isHandled s') t = false →
        truthy (_isPending s) t = true ∧ truthy (_isHandled s) t = false).

(** How a run of [waitFor] calls from [s] may end: it returns with every
    token of [need] handled, or it throws [CircularDependencyError] for a
    registered token that is pending and not handled. *)
Definition waiter_post (o : list (DispatchToken * callback)) (payload : TPayload)
    (s : Dispatcher) (need : list DispatchToken) (r : outcome) : Prop :=
  match r with
  | Returns s' =>
      during o payload s' ∧ settles s s' ∧
      (blocked o payload s → blocked o payload s') ∧
      ∀ t, t ∈ need → truthy (_isHandled s') t = true
  | Throws e s' =>
      ∃ t, e = CircularDependencyError t ∧ obj_has o t = true ∧
           truthy (_isPending s') t = true ∧ truthy (_isHandled s') t = false
  | OutOfBudget => True
  end.

(** The registered callbacks not yet entered in the cycle. *)
Definition unentered (o : list (DispatchToken * callback)) (s : Dispatcher) : nat :=
  length (filter (λ id, truthy (_isPending s) id = false) (obj_keys o)).

(** The longest body, on [payload], among the registered callbacks. *)
Definition max_depth (o : list (DispatchToken * callback)) (payload : TPayload) : nat :=
  max_list ((λ kv, depth (kv.2 (Some payload))) <$> o).

(** *** Well-formedness *)

(** [handled] is only ever set after [pending]. *)
Definition coherent (s : Dispatcher) : Prop :=
  ∀ id, truthy (_isHandled s) id = true → truthy (_isPending s) id = true.

(** Every token handed out so far carries a number below [_lastID]. *)
Definition numbered (s : Dispatcher) : Prop :=
  ∀ id, id ∈ minted (journal s) → ∃ n : N, (n < _lastID s)%N ∧ id = _prefix +:+ pretty n.

(** The journal [j] of a cycle from [s] to [s'], against the flags: a
    callback is entered at most once, when its pending flag is raised, and
    with the pending payload; the pending flag is raised for nothing else
    but an inherited name that is not registered; the handled flag is
    raised exactly when a callback returns. *)
Definition accounted (s s' : Dispatcher) (j : list event) : Prop :=
  journal s' = journal s ++ j ∧
  NoDup (invocations j).*1 ∧
  (∀ id, id ∈ (invocations j).*1 → truthy (_isPending s) id = false) ∧
  (∀ id, truthy (_isPending s) id = true ∨ id ∈ (invocations j).*1 →
         truthy (_isPending s') id = true) ∧
  (∀ id, truthy (_isPending s') id = true →
         truthy (_isPending s) id = true ∨ id ∈ (invocations j).*1 ∨
         (inherited id = true ∧ obj_has (_callbacks s') id = false)) ∧
  (∀ id, truthy (_isHandled s') id = true ↔
         truthy (_isHandled s) id = true ∨ id ∈ completions j) ∧
  (∀ id, id ∈ completions j → truthy (_isPending s') id = true) ∧
  (∀ id p, (id, p) ∈ invocations j → p = _pendingPayload s).

(** Every registered token carries a number below [_lastID], so that the
    next token is not registered yet. *)
Definition registry_ok (s : Dispatcher) : Prop :=
  NoDup (obj_keys (_callbacks s)) ∧
  ∀ id, is_Some (obj_get (_callbacks s) id) →
        ∃ n : N, (n < _lastID s)%N ∧ id = _prefix +:+ pretty n.

(** What running a calm body does to the dispatcher: callbacks are added,
    tokens are minted, and nothing else changes. *)
Definition grown (s s' : Dispatcher) : Prop :=
  (∀ id, is_Some (obj_get (_callbacks s) id) →
         obj_get (_callbacks s') id = obj_get (_callbacks s) id) ∧
  _isDispatching s' = _isDispatching s ∧
  _isPending s' = _isPending s ∧
  _isHandled s' = _isHandled s ∧
  _pendingPayload s' = _pendingPayload s ∧
  (∃ j, journal s' = journal s ++ j ∧ invocations j = [] ∧ completions j = []) ∧
  (registry_ok s → registry_ok s').

End Dispatcher.

Arguments Ret {_ _}.
Arguments Throw {_ _} e.
Arguments WaitFor {_ _} ids k.
Arguments Dispatch {_ _} payload k.
Arguments Register {_ _} callback k.
Arguments Unregister {_ _} id k.
Arguments IsDispatching {_ _} k.
Arguments TryCatch {_ _} body handler k.
Arguments Invoked {_} id payload.
Arguments Completed {_} id.
Arguments Minted {_} id.
Arguments Returns {_ _} s.
Arguments Throws {_ _} e s.
Arguments OutOfBudget {_ _}.
Arguments constructor {_ _}.
Arguments _callbacks {_ _} _.
Arguments _isDispatching {_ _} _.
Arguments _isHandled {_ _} _.
Arguments _isPending {_ _} _.
Arguments _lastID {_ _} _.
Arguments _pendingPayload {_ _} _.
Arguments journal {_ _} _.
Arguments register {_ _} cb s.
Arguments unregister {_ _} id s.
Arguments isDispatching {_ _} s.
Arguments _startDispatching {_ _} payload s.
Arguments _stopDispatching {_ _} s.
Arguments _invokeCallback {_ _} budget id s.
Arguments waitFor {_ _} budget ids s.
Arguments dispatch {_ _} budget payload s.
Arguments run {_ _} budget p s.
Arguments CallRegister {_ _} cb.
Arguments CallUnregister {_ _} id.
Arguments CallWaitFor {_ _} budget ids.
Arguments CallDispatch {_ _} budget payload.
Arguments perform {_ _} c s.
Arguments state_of {_ _} r.
Arguments evolves {_ _} s _.
Arguments reachable {_ _} s.
Arguments invocations {_} j.
Arguments completions {_} j.
Arguments minted {_} j.
Arguments open_in {_} j id.
Arguments mark_pending {_ _} id s.
Arguments mark_handled {_ _} id s.
Arguments cycle_step {_ _} _ _.
Arguments step_enter {_ _} id s _ _.
Arguments step_complete {_ _} id s _.
Arguments step_register {_ _} cb s.
Arguments step_unregister {_ _} id s _.
Arguments step_miss {_ _} id s _ _ _.
Arguments frame_step {_ _} _ _.
Arguments frame_enter {_ _} id stk s _ _.
Arguments frame_return {_ _} id stk s.
Arguments frame_unwind {_ _} id stk s.
Arguments frame_register {_ _} cb stk s.
Arguments frame_unregister {_ _} id stk s _.
Arguments frame_miss {_ _} id stk s _ _ _.
Arguments stack_ok {_ _} f.
Arguments dead {_ _} id f.
Arguments evolves_refl {_ _} s.
Arguments evolves_call {_ _} s c s1 s2 _ _.
Arguments calm {_ _} _.
Arguments waiter {_ _} p.
Arguments waits {_ _} p.
Arguments depth {_ _} p.
Arguments waits_on {_ _} o payload a b.
Arguments waiters_only {_ _} o payload.
Arguments coherent {_ _} s.
Arguments cyclic {_ _} o payload c.
Arguments during {_ _} o payload s.
Arguments blocked {_ _} o payload s.
Arguments settles {_ _} s s'.
Arguments waiter_post {_ _} o payload s need r.
Arguments unentered {_ _} o s.
Arguments max_depth {_ _} o payload.
Arguments numbered {_ _} s.
Arguments registry_ok {_ _} s.
Arguments grown {_ _} s s'.
Arguments accounted {_ _} s s' j.
Arguments andThen {_ _} r f.
Arguments finally {_ _} r f.
Arguments record {_ _} s e.
Arguments set_callbacks {_ _} s v.
Arguments set_isDispatching {_ _} s v.
Arguments set_isHandled {_ _} s v.
Arguments set_isPending {_ _} s v.
Arguments set_lastID {_ _} s v.
Arguments set_pendingPayload {_ _} s v.
Arguments _invokeCallback_with {_ _} run id s.
Arguments waitFor_loop {_ _} run ids s.
Arguments waitFor_with {_ _} run ids s.
Arguments dispatch_loop {_ _} run ids s.
Arguments dispatch_with {_ _} run payload s.

(** ** FluxStore and FluxReduceStore *)

Section FluxReduceStore.
Variables TState TAction TExn : Type.

(** [this.constructor.name] *)
Variable className : string.

(** The [reduce] method a subclass supplies: a function of the state and
    the action whose result is a JS value, [None] standing for
    [undefined]. *)
Variable reduce : TState → TAction → option TState.

(** The [areEqual] method; a subclass may replace the default [===]. *)
Variable areEqual : TState → TState → bool.

(** The fields [__invokeOnDispatch] touches.  [emitted] is the list of
    events passed to [this.__emitter.emit], oldest first, whether the
    listeners returned or not. *)
Record Store : Type := mkStore {
  _state : TState;
  __changed : bool;
  __changeEvent : string;
  emitted : list string
}.

Inductive store_outcome : Type :=
| Done (st : Store)
| Fails (e : error TExn) (st : Store).

Definition undefined_state_error : error TExn :=
  Invariant
    ("%s returned undefined from reduce(...), did you forget to return " +:+
     "state in the default case? (use null if this was intentional)")
    [className].

Definition emitChange_error : error TExn :=
  Invariant "%s.__emitChange(): Must be invoked while dispatching." [className].

(** [FluxStore.__emitChange()]; [dispatching] is what
    [this.__dispatcher.isDispatching()] returns. *)
Definition __emitChange (dispatching : bool) (st : Store) : store_outcome :=
  if dispatching
  then Done (mkStore (_state st) true (__changeEvent st) (emitted st))
  else Fails emitChange_error st.

(** The listeners added with [addListener], which [emit] calls one after
    the other: [None] when all of them return on the store as it is when
    the event is emitted, [Some e] when one of them throws [e], which ends
    the [emit].  The store includes the events emitted so far, so that
    every [emit] of a run meets a store of its own: listeners that are
    added or removed between two dispatches, or that throw now and then,
    are such a function.  Listeners do not write the fields of the
    store. *)
Variable listeners : Store → option TExn.

(** [this.__emitter.emit(eventType)] *)
Definition emit (eventType : string) (st : Store) : store_outcome :=
  let st := mkStore (_state st) (__changed st) (__changeEvent st)
                    (emitted st ++ [eventType]) in
  match listeners st with
  | None => Done st
  | Some e => Fails (Raised e) st
  end.

(** [FluxReduceStore.__invokeOnDispatch(action)] *)
Definition __invokeOnDispatch (dispatching : bool) (action : TAction) (st : Store)
    : store_outcome :=
  let st := mkStore (_state st) false (__changeEvent st) (emitted st) in
  let startingState := _state st in
  match reduce startingState action with
  | None => Fails undefined_state_error st
  | Some endingState =>
      let changed :=
        if negb (areEqual startingState endingState)
        then __emitChange dispatching
               (mkStore endingState (__changed st) (__changeEvent st) (emitted st))
        else Done st in
      match changed with
      | Done st =>
          if __changed st
          then emit (__changeEvent st) st
          else Done st
      | Fails e st => Fails e st
      end
  end.
End FluxReduceStore.

Arguments _state {_} _.
Arguments __changed {_} _.
Arguments __changeEvent {_} _.
Arguments emitted {_} _.
Arguments mkStore {_} _ _ _ _.
Arguments Done {_ _} st.
Arguments Fails {_ _} e st.
Arguments undefined_state_error {_} className.
Arguments emitChange_error {_} className.
Arguments __emitChange {_ _} className dispatching st.
Arguments emit {_ _} listeners eventType st.
Arguments __invokeOnDispatch {_ _ _} className reduce areEqual listeners dispatching action st.

(** ** Scenarios *)

(** The dispatcher a sequence of calls from outside leaves; [None] when one
    of the calls runs out of budget. *)
Definition session_from {TPayload TExn : Type} (s : Dispatcher TPayload TExn)
    (calls : list (call TPayload TExn)) : option (Dispatcher TPayload TExn) :=
  foldl (λ os c, os ≫= λ s, state_of (perform c s)) (Some s) calls.

Definition session {TPayload TExn : Type} (calls : list (call TPayload TExn))
    : option (Dispatcher TPayload TExn) :=
  session_from constructor calls.

(** A body in which no [waitFor] call occurs, whatever the other calls
    return. *)
Fixpoint never_waits {TPayload TExn : Type} (p : prog TPayload TExn) : Prop :=
  match p with
  | Ret => True
  | Throw _ => True
  | WaitFor _ _ => False
  | Dispatch _ k => never_waits k
  | Register _ k => ∀ id, never_waits (k id)
  | Unregister _ k => never_waits k
  | IsDispatching k => ∀ b, never_waits (k b)
  | TryCatch body handler k =>
      never_waits body ∧ (∀ e, never_waits (handler e)) ∧ never_waits k
  end.

Module Scenario.
Abbreviation prog := (prog string string).
Abbreviation call := (call string string).
Abbreviation Dispatcher := (Dispatcher string string).

(** Two stores that ignore the action, the second of which registers a
    third while it runs. *)
Definition calm_pair_calls : list call :=
  [CallRegister (λ _, Ret);
   CallRegister (λ _, Register (λ _, Ret) (λ _, Ret))].
Definition calm_pair : Dispatcher :=
  Eval vm_compute in default constructor (session calm_pair_calls).

(** A callback that throws, registered before one that returns. *)
Definition thrower_calls : list call :=
  [CallRegister (λ _, Throw (Raised "boom"));
   CallRegister (λ _, Ret)].
Definition thrower : Dispatcher :=
  Eval vm_compute in default constructor (session thrower_calls).

(** A callback that unregisters the one registered after it. *)
Definition unregisterer_calls : list call :=
  [CallRegister (λ _, Unregister "ID_2" Ret);
   CallRegister (λ _, Ret)].
Definition unregisterer : Dispatcher :=
  Eval vm_compute in default constructor (session unregisterer_calls).

(** A waits for B and B waits for A. *)
Definition deadlock_calls : list call :=
  [CallRegister (λ _, WaitFor ["ID_2"] Ret);
   CallRegister (λ _, WaitFor ["ID_1"] Ret)].
Definition deadlock : Dispatcher :=
  Eval vm_compute in default constructor (session deadlock_calls).

(** A waits for B inside [try ... catch], and B waits for A. *)
Definition catcher_calls : list call :=
  [CallRegister (λ _, TryCatch (WaitFor ["ID_2"] Ret) (λ _, Ret) Ret);
   CallRegister (λ _, WaitFor ["ID_1"] Ret)].
Definition catcher : Dispatcher :=
  Eval vm_compute in default constructor (session catcher_calls).

(** The scenario of the specification: A, B and C are registered in that
    order, B waits for A and C waits for B. *)
Definition chain_calls : list call :=
  [CallRegister (λ _, Ret);
   CallRegister (λ _, WaitFor ["ID_1"] Ret);
   CallRegister (λ _, WaitFor ["ID_2"] Ret)].
Definition chain : Dispatcher :=
  Eval vm_compute in default constructor (session chain_calls).

(** B and C both wait for A, which is registered last. *)
Definition shared_upstream_calls : list call :=
  [CallRegister (λ _, WaitFor ["ID_3"] Ret);
   CallRegister (λ _, WaitFor ["ID_3"] Ret);
   CallRegister (λ _, Ret)].
Definition shared_upstream : Dispatcher :=
  Eval vm_compute in default constructor (session shared_upstream_calls).

(** A store is registered, takes part in a dispatch and is unregistered;
    another store is registered afterwards. *)
Definition stale_calls : list call :=
  [CallRegister (λ _, Ret);
   CallDispatch 1 "x";
   CallUnregister "ID_1";
   CallRegister (λ _, Ret)].
Definition stale : Dispatcher :=
  Eval vm_compute in default constructor (session stale_calls).

(** A callback that waits for a name every object inherits. *)
Definition heir_calls : list call :=
  [CallRegister (λ _, WaitFor ["toString"] Ret)].
Definition heir : Dispatcher :=
  Eval vm_compute in default constructor (session heir_calls).

(** A counter store: [add] increments, [forget] has no [return]. *)
Definition counter (state : nat) (action : string) : option nat :=
  if decide (action = "add") then Some (S state)
  else if decide (action = "forget") then None
  else Some state.

(** The same store with the missing [return] supplied. *)
Definition total_counter (state : nat) (action : string) : option nat :=
  if decide (action = "add") then Some (S state) else Some state.

(** A [reduce] that always returns a state. *)
Definition tally (state : nat) (action : string) : nat :=
  if decide (action = "add") then S state else state.

(** Change listeners that all return, and a change listener that throws. *)
Definition patient_listeners (st : Store nat) : option string := None.
Definition throwing_listener (st : Store nat) : option string := Some "boom".
End Scenario.

(** ** Further notions for the properties of the dispatcher *)

Section Dispatcher_notions.
Variables TPayload TExn : Type.

(** [id] is not registered and never will be: [register] handed it out
    before, or it is an inherited name. *)
Definition retired (id : DispatchToken) (s : Dispatcher TPayload TExn) : Prop :=
  obj_has (_callbacks s) id = false ∧
  (inherited id = true ∨ ∃ n : N, (n < _lastID s)%N ∧ id = _prefix +:+ pretty n).

(** No dictionary of the dispatcher has an own property under an inherited
    name. *)
Definition plain (s : Dispatcher TPayload TExn) : Prop :=
  ∀ id, inherited id = true →
    obj_has (_callbacks s) id = false ∧
    _isPending s !! id = None ∧ _isHandled s !! id = None.

(** The journal [j] of a cycle that started in [s0], against the registry
    of the state [s] it has come to: what is registered was registered when
    the cycle started or has been registered since, and so was every
    callback that was entered; and every callback received the pending
    payload. *)
Definition sourced (s0 s : Dispatcher TPayload TExn) (j : list (event TPayload)) : Prop :=
  journal s = journal s0 ++ j ∧
  (∀ id, obj_has (_callbacks s) id = true →
         obj_has (_callbacks s0) id = true ∨ id ∈ minted j) ∧
  (∀ id p, (id, p) ∈ invocations j →
         p = _pendingPayload s0 ∧ (obj_has (_callbacks s0) id = true ∨ id ∈ minted j)).

(** In the journal [j] of a cycle every callback that returned had been
    entered before. *)
Definition returns_follow_entries (j : list (event TPayload)) : Prop :=
  ∀ id, id ∈ completions j →
    ∃ j1 j2, j = j1 ++ Completed id :: j2 ∧ id ∈ (invocations j1).*1.

(** [b] occurs in [l] before an occurrence of [a]. *)
Definition before (l : list DispatchToken) (b a : DispatchToken) : Prop :=
  ∃ l1 l2, l = l1 ++ a :: l2 ∧ b ∈ l1.

(** Every registered callback that has been entered and has not returned
    waits, directly or through a chain of callbacks, for [cur]. *)
Definition unfinished_wait_for (o : list (DispatchToken * callback TPayload TExn))
    (payload : TPayload) (s : Dispatcher TPayload TExn) (cur : DispatchToken) : Prop :=
  ∀ t, obj_has o t = true →
       truthy (_isPending s) t = true → truthy (_isHandled s) t = false →
       rtc (waits_on o payload) t cur.

(** A part of a cycle, from [s] to [s'], in which every callback that was
    entered has returned, after the callbacks it waits for. *)
Definition orderly (o : list (DispatchToken * callback TPayload TExn))
    (payload : TPayload) (s s' : Dispatcher TPayload TExn) : Prop :=
  ∃ j, journal s' = journal s ++ j ∧
    invocations j ≡ₚ (λ t, (t, Some payload)) <$> completions j ∧
    NoDup (completions j) ∧
    (∀ t, t ∈ completions j →
          obj_has o t = true ∧
          truthy (_isPending s) t = false ∧ truthy (_isPending s') t = true) ∧
    (∀ t, truthy (_isPending s) t = true → truthy (_isPending s') t = true) ∧
    (∀ t, truthy (_isHandled s') t = true ↔
          truthy (_isHandled s) t = true ∨ t ∈ completions j) ∧
    (∀ a b, a ∈ completions j → waits_on o payload a b →
          truthy (_isHandled s) b = true ∨ before (completions j) b a).

(** A call in such a cycle does not throw. *)
Definition orderly_post (o : list (DispatchToken * callback TPayload TExn))
    (payload : TPayload) (s : Dispatcher TPayload TExn)
    (r : outcome TPayload TExn) : Prop :=
  match r with
  | Returns s' => orderly o payload s s'
  | Throws _ _ => False
  | OutOfBudget => True
  end.
End Dispatcher_notions.

Arguments retired {_ _} id s.
Arguments plain {_ _} s.
Arguments sourced {_ _} s0 s j.
Arguments returns_follow_entries {_} j.
Arguments unfinished_wait_for {_ _} o payload s cur.
Arguments orderly {_ _} o payload s s'.
Arguments orderly_post {_ _} o payload s r.

(** A body in which no [register] and no [unregister] call occurs, whatever
    the other calls return. *)
Fixpoint leaves_registry {TPayload TExn : Type} (p : prog TPayload TExn) : Prop :=
  match p with
  | Ret => True
  | Throw _ => True
  | WaitFor _ k => leaves_registry k
  | Dispatch _ k => leaves_registry k
  | Register _ _ => False
  | Unregister _ _ => False
  | IsDispatching k => ∀ b, leaves_registry (k b)
  | TryCatch body handler k =>
      leaves_registry body ∧ (∀ e, leaves_registry (handler e)) ∧ leaves_registry k
  end.

(** ** More of FluxStore and FluxReduceStore *)

Section FluxStore.
Variables TState TAction TExn : Type.
Variable className : string.
Variable reduce : TState → TAction → option TState.
Variable areEqual : TState → TState → bool.
Variable listeners : Store TState → option TExn.

(** [getState()] *)
Definition getState (st : Store TState) : TState := _state st.

Definition hasChanged_error : error TExn :=
  Invariant "%s.hasChanged(): Must be invoked while dispatching." [className].

(** [FluxStore.hasChanged()]; [dispatching] is what
    [this.__dispatcher.isDispatching()] returns. *)
Definition hasChanged (dispatching : bool) (st : Store TState) : error TExn + bool :=
  if dispatching then inr (__changed st) else inl hasChanged_error.

(** The state a store holds after the dispatch of [action]: what [reduce]
    returns, or the state it held when [reduce] returns [undefined] or
    [areEqual] finds the two equal. *)
Definition kept (state : TState) (action : TAction) : TState :=
  match reduce state action with
  | Some endingState => if areEqual state endingState then state else endingState
  | None => state
  end.

(** The store that the callback of the store leaves when it is invoked
    with [action] in a dispatch, whether it returns or throws. *)
Definition after_dispatch (action : TAction) (st : Store TState) : Store TState :=
  match reduce (_state st) action with
  | Some endingState =>
      if areEqual (_state st) endingState
      then mkStore (_state st) false (__changeEvent st) (emitted st)
      else mkStore endingState true (__changeEvent st) (emitted st ++ [__changeEvent st])
  | None => mkStore (_state st) false (__changeEvent st) (emitted st)
  end.

(** The callback the constructor of [FluxStore] registers, [payload =>
    this.__invokeOnDispatch(payload)], invoked by a dispatch of each of
    [actions] in turn: the errors it threw, oldest first, and the store it
    leaves.  The dispatcher invokes a callback while it is dispatching, so
    [isDispatching()] returns [true] there; and a dispatch in which the
    callback throws does not keep later dispatches from invoking it. *)
Fixpoint dispatched (actions : list TAction) (st : Store TState)
    : list (error TExn) * Store TState :=
  match actions with
  | [] => ([], st)
  | action :: actions =>
      match __invokeOnDispatch className reduce areEqual listeners true action st with
      | Done st => dispatched actions st
      | Fails e st => let '(errors, st) := dispatched actions st in (e :: errors, st)
      end
  end.

(** The number of [actions] that change the state of a store that starts
    in [state]. *)
Fixpoint changes (state : TState) (actions : list TAction) : nat :=
  match actions with
  | [] => 0
  | action :: actions =>
      match reduce state action with
      | Some endingState => if areEqual state endingState then 0 else 1
      | None => 0
      end + changes (kept state action) actions
  end.

(** The number of [actions] on which [reduce] returns [undefined]. *)
Fixpoint failures (state : TState) (actions : list TAction) : nat :=
  match actions with
  | [] => 0
  | action :: actions =>
      match reduce state action with
      | Some _ => 0
      | None => 1
      end + failures (kept state action) actions
  end.
End FluxStore.

Arguments getState {_} st.
Arguments hasChanged_error {_} className.
Arguments hasChanged {_ _} className dispatching st.
Arguments kept {_ _} reduce areEqual state action.
Arguments after_dispatch {_ _} reduce areEqual action st.
Arguments dispatched {_ _ _} className reduce areEqual listeners actions st.
Arguments changes {_ _} reduce areEqual state actions.
Arguments failures {_ _} reduce areEqual state actions.

(** ** More scenarios *)

(** A store is registered and takes part in a dispatch. *)
Definition in_use_calls : list (call string string) :=
  [CallRegister (λ _, Ret); CallDispatch 1 "x"].
Definition in_use : Dispatcher string string :=
  Eval vm_compute in default constructor (session in_use_calls).

(** Another store is registered and a second dispatch is made. *)
Definition later_calls : list (call string string) :=
  [CallRegister (λ _, Ret); CallDispatch 1 "y"].

(** * Properties *)

(** ** Dictionaries *)

Section obj_facts.
Context {V : Type}.
Implicit Types (o : list (string * V)) (k : string) (v : V).

Lemma obj_has_true o k : obj_has o k = true ↔ is_Some (obj_get o k).
Proof. unfold obj_has. by rewrite bool_decide_eq_true. Qed.

Lemma obj_get_keys o k : is_Some (obj_get o k) ↔ k ∈ obj_keys o.
Proof.
  unfold obj_keys. induction o as [|[k' v'] o IH]; simpl.
  - split; [intros [? [=]] | intros ?%elem_of_nil; done].
  - case_decide; subst.
    + split; [intros _; left | eauto].
    + rewrite elem_of_cons, <- IH. split; [by right | by intros [->|?]].
Qed.

Lemma obj_has_keys o k : obj_has o k = true ↔ k ∈ obj_keys o.
Proof. by rewrite obj_has_true, obj_get_keys. Qed.

Lemma obj_has_false o k : obj_has o k = false ↔ obj_get o k = None.
Proof.
  unfold obj_has. rewrite bool_decide_eq_false, <- eq_None_not_Some. done.
Qed.

Lemma obj_truthy_true o k :
  obj_truthy o k = true ↔ obj_has o k = true ∨ inherited k = true.
Proof. unfold obj_truthy. apply orb_true_iff. Qed.

Lemma obj_has_truthy o k : obj_has o k = true → obj_truthy o k = true.
Proof. intros. apply obj_truthy_true. by left. Qed.

Lemma obj_truthy_false o k :
  obj_truthy o k = false ↔ obj_has o k = false ∧ inherited k = false.
Proof. unfold obj_truthy. apply orb_false_iff. Qed.

Lemma obj_delete_absent o k : obj_get o k = None → obj_delete o k = o.
Proof.
  induction o as [|[k' v'] o IH]; simpl; [done|].
  case_decide; [done|]. intros Hk. by rewrite IH.
Qed.

Lemma obj_get_set o k v k' :
  obj_get (obj_set o k v) k' = if decide (k = k') then Some v else obj_get o k'.
Proof.
  induction o as [|[k0 v0] o IH]; simpl.
  - repeat case_decide; congruence.
  - destruct (decide (k0 = k)) as [->|Hne]; simpl.
    + repeat case_decide; congruence.
    + rewrite IH. repeat case_decide; congruence.
Qed.

Lemma obj_get_delete o k k' :
  obj_get (obj_delete o k) k' = if decide (k = k') then None else obj_get o k'.
Proof.
  induction o as [|[k0 v0] o IH]; simpl.
  - by case_decide.
  - destruct (decide (k0 = k)) as [->|Hne]; simpl.
    + rewrite IH. repeat case_decide; congruence.
    + rewrite IH. repeat case_decide; congruence.
Qed.

Lemma obj_has_set o k v k' :
  obj_has (obj_set o k v) k' = if decide (k = k') then true else obj_has o k'.
Proof.
  unfold obj_has. rewrite obj_get_set. case_decide; [|done].
  apply bool_decide_eq_true. eauto.
Qed.

Lemma obj_has_delete o k k' :
  obj_has (obj_delete o k) k' = if decide (k = k') then false else obj_has o k'.
Proof.
  unfold obj_has. rewrite obj_get_delete. case_decide; [|done].
  apply bool_decide_eq_false. by intros [? [=]].
Qed.

Lemma obj_keys_set_fresh o k v :
  obj_get o k = None → obj_keys (obj_set o k v) = obj_keys o ++ [k].
Proof.
  unfold obj_keys. induction o as [|[k0 v0] o IH]; simpl; [done|].
  case_decide; [done|]. intros H0. simpl. f_equal. by apply IH.
Qed.

Lemma obj_keys_set_old o k v :
  is_Some (obj_get o k) → obj_keys (obj_set o k v) = obj_keys o.
Proof.
  unfold obj_keys. induction o as [|[k0 v0] o IH]; simpl.
  - by intros [? [=]].
  - case_decide; subst; simpl; [done|]. intros H0. f_equal. by apply IH.
Qed.

Lemma obj_keys_delete o k :
  obj_keys (obj_delete o k) = filter (λ k', k' ≠ k) (obj_keys o).
Proof.
  unfold obj_keys. induction o as [|[k0 v0] o IH]; simpl; [done|].
  rewrite filter_cons. simpl.
  destruct (decide (k0 = k)) as [->|Hne].
  - by rewrite decide_False by (intros ?; done).
  - rewrite decide_True by done. simpl. f_equal. apply IH.
Qed.

Lemma obj_keys_set_NoDup o k v : NoDup (obj_keys o) → NoDup (obj_keys (obj_set o k v)).
Proof.
  intros Hnd. destruct (obj_get o k) as [v0|] eqn:Hk.
  - rewrite obj_keys_set_old; eauto.
  - rewrite obj_keys_set_fresh by done. apply NoDup_app. split_and!; [done| |].
    + intros x Hx ->%list_elem_of_singleton.
      apply obj_get_keys in Hx as [? ?]. congruence.
    + apply NoDup_singleton.
Qed.

Lemma obj_keys_delete_NoDup o k : NoDup (obj_keys o) → NoDup (obj_keys (obj_delete o k)).
Proof. rewrite obj_keys_delete. apply NoDup_filter. Qed.
End obj_facts.

(** ** A dispatch cycle as a sequence of elementary steps *)

Section cycle_facts.
Context {TPayload TExn : Type}.
Implicit Types (s : Dispatcher TPayload TExn) (id : DispatchToken).
Implicit Types (f : frames TPayload TExn) (stk : list DispatchToken).

Lemma truthy_insert flags id b id' :
  truthy (<[id:=b]> flags) id' = if decide (id = id') then b else truthy flags id'.
Proof.
  unfold truthy. rewrite lookup_insert. destruct (decide (id = id')); reflexivity.
Qed.

Lemma truthy_own (flags : gmap string bool) id b : flags !! id = Some b → truthy flags id = b.
Proof. unfold truthy. by intros ->. Qed.

(** An inherited name only reads falsy through an own property. *)
Lemma truthy_false_inherited (flags : gmap string bool) id :
  truthy flags id = false → inherited id = true → flags !! id = Some false.
Proof. unfold truthy. destruct (flags !! id) as [b|]; [by intros ->|congruence]. Qed.

(** No token is an inherited name. *)
Lemma token_not_inherited (n : N) : inherited (_prefix +:+ pretty n) = false.
Proof.
  unfold inherited. apply bool_decide_eq_false. unfold inherited_names, _prefix.
  intros Hin. simpl in Hin.
  repeat (apply elem_of_cons in Hin as [Heq|Hin]; [discriminate Heq|]).
  by apply elem_of_nil in Hin.
Qed.

(** [delete] of a name that is not an own property. *)
Lemma unregister_absent id s :
  obj_has (_callbacks s) id = false →
  set_callbacks s (obj_delete (_callbacks s) id) = s.
Proof.
  intros Hc%obj_has_false. unfold set_callbacks. rewrite obj_delete_absent by done.
  by destruct s.
Qed.

(** What a step of a cycle leaves alone. *)
Lemma cycle_step_frame s s' :
  cycle_step s s' →
  _isDispatching s' = _isDispatching s ∧ _pendingPayload s' = _pendingPayload s.
Proof. by destruct 1. Qed.

Lemma cycle_frame s s' :
  rtc cycle_step s s' →
  _isDispatching s' = _isDispatching s ∧ _pendingPayload s' = _pendingPayload s.
Proof.
  induction 1 as [|s s1 s2 H1 _ [IH1 IH2]]; [done|].
  apply cycle_step_frame in H1 as [??]. split; congruence.
Qed.

(** Flags are only ever raised, and entries never removed. *)
Lemma cycle_step_flags s s' id :
  cycle_step s s' →
  (truthy (_isPending s) id = true → truthy (_isPending s') id = true) ∧
  (truthy (_isHandled s) id = true → truthy (_isHandled s') id = true) ∧
  (is_Some (_isPending s !! id) → is_Some (_isPending s' !! id)) ∧
  (is_Some (_isHandled s !! id) → is_Some (_isHandled s' !! id)).
Proof.
  destruct 1; simpl; split_and!; try done.
  - rewrite truthy_insert. by case_decide.
  - rewrite lookup_insert. case_decide; [by eauto|done].
  - rewrite truthy_insert. by case_decide.
  - rewrite lookup_insert. case_decide; [by eauto|done].
  - rewrite truthy_insert. by case_decide.
  - rewrite lookup_insert. case_decide; [by eauto|done].
Qed.

Lemma cycle_flags s s' id :
  rtc cycle_step s s' →
  (truthy (_isPending s) id = true → truthy (_isPending s') id = true) ∧
  (truthy (_isHandled s) id = true → truthy (_isHandled s') id = true) ∧
  (is_Some (_isPending s !! id) → is_Some (_isPending s' !! id)) ∧
  (is_Some (_isHandled s !! id) → is_Some (_isHandled s' !! id)).
Proof.
  induction 1 as [|s s1 s2 H1 _ IH]; [done|].
  apply (cycle_step_flags _ _ id) in H1.
  destruct IH as (?&?&?&?), H1 as (?&?&?&?). split_and!; eauto.
Qed.

(** A step of the call stack is a step of the cycle, or leaves the
    dispatcher alone. *)
Lemma frame_step_cycle f f' :
  stack_ok f → frame_step f f' → (cycle_step f.2 f'.2 ∨ f'.2 = f.2) ∧ stack_ok f'.
Proof.
  intros Hok.
  destruct 1 as [id stk s Hp Hc|id stk s|id stk s|cb stk s|id stk s Hc|id stk s Hp Hc Hi];
    simpl.
  - split; [left; by apply step_enter|]. intros x [->|Hx]%elem_of_cons; simpl.
    + by rewrite lookup_insert_eq.
    + rewrite lookup_insert. case_decide; [done|]. by apply Hok.
  - split.
    + left. apply step_complete. apply Hok. by left.
    + intros x Hx. apply Hok. by right.
  - split; [by right|]. intros x Hx. apply Hok. by right.
  - split; [left; apply step_register|]. done.
  - split; [left; by apply step_unregister|]. done.
  - split; [left; by apply step_miss|]. intros x Hx. simpl.
    rewrite lookup_insert. case_decide; [done|]. by apply Hok.
Qed.

Lemma frames_cycle f f' :
  stack_ok f → rtc frame_step f f' → rtc cycle_step f.2 f'.2 ∧ stack_ok f'.
Proof.
  intros Hok H. induction H as [|f f1 f2 H1 _ IH]; [done|].
  destruct (frame_step_cycle _ _ Hok H1) as [[Hs|Heq] Hok1].
  - destruct (IH Hok1) as [??]. split; [by eapply rtc_l|done].
  - destruct (IH Hok1) as [??]. split; [by rewrite <- Heq|done].
Qed.

Lemma frames_dispatching f f' :
  stack_ok f → rtc frame_step f f' → _isDispatching f'.2 = _isDispatching f.2.
Proof. intros Hok H. by destruct (frames_cycle _ _ Hok H) as [[? _]%cycle_frame _]. Qed.

Section calls_frames.
Variable run : prog TPayload TExn → Dispatcher TPayload TExn → outcome TPayload TExn.
Hypothesis run_frames : ∀ p stk s s',
  _isDispatching s = true → stack_ok (stk, s) →
  state_of (run p s) = Some s' → rtc frame_step (stk, s) (stk, s').

Lemma invokeCallback_frames id stk s s' :
  _isDispatching s = true →
  stack_ok (stk, s) →
  truthy (_isPending s) id = false →
  obj_truthy (_callbacks s) id = true →
  state_of (_invokeCallback_with run id s) = Some s' →
  rtc frame_step (stk, s) (stk, s').
Proof.
  intros Hd Hok Hp Ht. unfold _invokeCallback_with. simpl.
  destruct (obj_get (_callbacks s) id) as [cb|] eqn:Hcb.
  2:{ simpl. intros [= <-]. apply rtc_once. apply (frame_miss id stk s Hp).
      - by apply obj_has_false.
      - apply obj_truthy_true in Ht as [Hc%obj_has_true|?]; [|done].
        destruct Hc. congruence. }
  assert (obj_has (_callbacks s) id = true) as Hc by (apply obj_has_true; eauto).
  pose proof (frame_enter id stk s Hp Hc) as Henter.
  set (s1 := record _ _) in *.
  assert (stack_ok (id :: stk, s1)) as Hok1 by (by eapply frame_step_cycle).
  destruct (run _ s1) as [s2|e s2|] eqn:Hr; simpl; intros [= <-].
  - eapply rtc_l; [exact Henter|]. eapply rtc_r; [|apply frame_return].
    apply (run_frames (cb (_pendingPayload s))); [exact Hd|done|by rewrite Hr].
  - eapply rtc_l; [exact Henter|]. eapply rtc_r; [|apply frame_unwind].
    apply (run_frames (cb (_pendingPayload s))); [exact Hd|done|by rewrite Hr].
Qed.

Lemma waitFor_loop_frames ids stk s s' :
  _isDispatching s = true →
  stack_ok (stk, s) →
  state_of (waitFor_loop run ids s) = Some s' →
  rtc frame_step (stk, s) (stk, s').
Proof.
  revert s. induction ids as [|id ids IH]; intros s Hd Hok; simpl.
  { by intros [= <-]. }
  destruct (truthy (_isPending s) id) eqn:Hp.
  { destruct (truthy (_isHandled s) id); [by apply IH|]. by intros [= <-]. }
  destruct (obj_truthy (_callbacks s) id) eqn:Hc; [|by intros [= <-]].
  destruct (_invokeCallback_with run id s) as [s1|e s1|] eqn:Hi; simpl; [| |done].
  - assert (rtc frame_step (stk, s) (stk, s1)) as H1
      by (apply (invokeCallback_frames id); [done..|by rewrite Hi]).
    intros H2. etrans; [exact H1|]. apply IH; [| |done].
    + pose proof (frames_dispatching _ _ Hok H1) as Hfd. simpl in Hfd. congruence.
    + by eapply frames_cycle.
  - intros [= <-]. apply (invokeCallback_frames id); [done..|by rewrite Hi].
Qed.

Lemma waitFor_frames ids stk s s' :
  stack_ok (stk, s) →
  state_of (waitFor_with run ids s) = Some s' → rtc frame_step (stk, s) (stk, s').
Proof.
  intros Hok. unfold waitFor_with. destruct (_isDispatching s) eqn:Hd.
  - by apply waitFor_loop_frames.
  - by intros [= <-].
Qed.

Lemma dispatch_loop_frames ids stk s s' :
  _isDispatching s = true →
  stack_ok (stk, s) →
  state_of (dispatch_loop run ids s) = Some s' →
  rtc frame_step (stk, s) (stk, s').
Proof.
  revert s. induction ids as [|id ids IH]; intros s Hd Hok; simpl.
  { by intros [= <-]. }
  destruct (obj_has (_callbacks s) id) eqn:Hc; [|by apply IH].
  apply obj_has_truthy in Hc.
  destruct (truthy (_isPending s) id) eqn:Hp; [by apply IH|].
  destruct (_invokeCallback_with run id s) as [s1|e s1|] eqn:Hi; simpl; [| |done].
  - assert (rtc frame_step (stk, s) (stk, s1)) as H1
      by (apply (invokeCallback_frames id); [done..|by rewrite Hi]).
    intros H2. etrans; [exact H1|]. apply IH; [| |done].
    + pose proof (frames_dispatching _ _ Hok H1) as Hfd. simpl in Hfd. congruence.
    + by eapply frames_cycle.
  - intros [= <-]. apply (invokeCallback_frames id); [done..|by rewrite Hi].
Qed.

Lemma nested_dispatch_rejected payload s :
  _isDispatching s = true →
  dispatch_with run payload s = Throws ReentrantDispatchError s.
Proof. unfold dispatch_with. by intros ->. Qed.
End calls_frames.

(** Whatever the body of a callback does while a dispatch is in progress
    amounts to a sequence of steps that leaves the call stack as it found
    it. *)
Lemma run_frames n p stk s s' :
  _isDispatching s = true → stack_ok (stk, s) →
  state_of (run n p s) = Some s' → rtc frame_step (stk, s) (stk, s').
Proof.
  revert p stk s s'. induction n as [|n IH]; intros p stk s s' Hd Hok; simpl; [done|].
  assert (∀ s1, rtc frame_step (stk, s) (stk, s1) →
                _isDispatching s1 = true ∧ stack_ok (stk, s1)) as Hd'.
  { intros s1 H1. split; [|by eapply frames_cycle].
    pose proof (frames_dispatching _ _ Hok H1) as Hfd. simpl in Hfd. congruence. }
  destruct p as [|e|ids k|payload k|cb k|id k|k|body handler k].
  - by intros [= <-].
  - by intros [= <-].
  - destruct (waitFor_with (run n) ids s) as [s1|e s1|] eqn:Hw; simpl; [| |done].
    + assert (rtc frame_step (stk, s) (stk, s1)) as H1
        by (apply (waitFor_frames (run n) IH ids); [done|by rewrite Hw]).
      intros H2. etrans; [exact H1|]. by apply (IH k); [apply Hd'..|].
    + intros [= <-]. apply (waitFor_frames (run n) IH ids); [done|by rewrite Hw].
  - rewrite nested_dispatch_rejected by done. by intros [= <-].
  - intros H2. eapply rtc_l; [apply (frame_register cb)|]. by eapply IH.
  - unfold unregister. destruct (obj_truthy (_callbacks s) id) eqn:Ht; simpl.
    + destruct (obj_has (_callbacks s) id) eqn:Hc.
      * intros H2. eapply rtc_l; [by apply (frame_unregister id)|]. by eapply IH.
      * rewrite unregister_absent by done. by apply IH.
    + by intros [= <-].
  - by apply IH.
  - destruct (run n body s) as [s1|e s1|] eqn:Hb; [| |done].
    + assert (rtc frame_step (stk, s) (stk, s1)) as H1
        by (apply (IH body); [done..|by rewrite Hb]).
      intros H2. etrans; [exact H1|]. by apply (IH k); [apply Hd'..|].
    + assert (rtc frame_step (stk, s) (stk, s1)) as H1
        by (apply (IH body); [done..|by rewrite Hb]).
      destruct (run n (handler e) s1) as [s2|e2 s2|] eqn:Hh; simpl; [| |done].
      * assert (rtc frame_step (stk, s1) (stk, s2)) as H12
          by (apply (IH (handler e)); [apply Hd'..|by rewrite Hh]; done).
        intros H2. etrans; [exact H1|]. etrans; [exact H12|].
        apply (IH k); [apply Hd'..|done]; by etrans.
      * intros [= <-]. etrans; [exact H1|].
        apply (IH (handler e)); [apply Hd'..|by rewrite Hh]; done.
Qed.

Lemma run_cycle n p s s' :
  _isDispatching s = true → state_of (run n p s) = Some s' → rtc cycle_step s s'.
Proof.
  intros Hd Hr. assert (stack_ok ([], s)) as Hok by (intros ? ?%elem_of_nil; done).
  by destruct (frames_cycle _ _ Hok (run_frames n p [] s s' Hd Hok Hr)).
Qed.

Lemma dispatch_loop_cycle n ids s s' :
  _isDispatching s = true →
  state_of (dispatch_loop (run n) ids s) = Some s' →
  rtc cycle_step s s'.
Proof.
  intros Hd Hr. assert (stack_ok ([], s)) as Hok by (intros ? ?%elem_of_nil; done).
  by destruct (frames_cycle _ _ Hok
    (dispatch_loop_frames (run n) (run_frames n) ids [] s s' Hd Hok Hr)).
Qed.
End cycle_facts.

(** ** The journal of a cycle *)

Section journal_facts.
Context {TPayload TExn : Type}.
Implicit Types (s : Dispatcher TPayload TExn) (id : DispatchToken) (j : list (event TPayload)).

Lemma invocations_app j1 j2 : invocations (j1 ++ j2) = invocations j1 ++ invocations j2.
Proof. induction j1 as [|[] j1 IH]; simpl; by rewrite ?IH. Qed.

Lemma completions_app j1 j2 : completions (j1 ++ j2) = completions j1 ++ completions j2.
Proof. induction j1 as [|[] j1 IH]; simpl; by rewrite ?IH. Qed.

Lemma minted_app j1 j2 : minted (j1 ++ j2) = minted j1 ++ minted j2.
Proof. induction j1 as [|[] j1 IH]; simpl; by rewrite ?IH. Qed.

Lemma cycle_accounted s s' : rtc cycle_step s s' → ∃ j, accounted s s' j.
Proof.
  revert s'. apply (rtc_ind_r (λ s', ∃ j, accounted s s' j)); [|intros s1 s2 H1 H12 IH].
  { exists []. unfold accounted. simpl. rewrite app_nil_r.
    split_and!; try done; try (intros ? ?%elem_of_nil; done).
    - apply NoDup_nil_2.
    - by intros id [?|?%elem_of_nil].
    - intros id ?. by left.
    - intros id. split; [by left|]. by intros [?|?%elem_of_nil].
    - intros ?? ?%elem_of_nil. done. }
  destruct IH as (j & Hj & Hnd & Hfresh & Hpl1 & Hpr1 & Hhand & Hcp & Hpay).
  pose proof (cycle_frame _ _ H1) as [_ Hpl].
  destruct H12 as [id s1 Hp Hc|id s1 Hp|cb s1|id s1 Hc|id s1 Hp Hc Hi].
  - exists (j ++ [Invoked id (_pendingPayload s1)]). unfold accounted. simpl.
    rewrite Hj, invocations_app, completions_app, fmap_app, app_nil_r. simpl.
    assert (id ∉ (invocations j).*1) as Hnew.
    { intros Hin. assert (truthy (_isPending s1) id = true) by (apply Hpl1; by right).
      congruence. }
    split_and!.
    + by rewrite (assoc_L (++)).
    + apply NoDup_app. split_and!; [done| |apply NoDup_singleton].
      intros x Hx ->%list_elem_of_singleton. done.
    + intros x [Hx| ->%list_elem_of_singleton]%elem_of_app; [by apply Hfresh|].
      destruct (truthy (_isPending s) id) eqn:E; [|done].
      assert (truthy (_isPending s1) id = true) by (apply Hpl1; by left). congruence.
    + intros x. rewrite truthy_insert, elem_of_app, list_elem_of_singleton.
      case_decide; [done|]. intros [?|[?|?]]; [apply Hpl1; by left|apply Hpl1; by right|done].
    + intros x. rewrite truthy_insert, elem_of_app, list_elem_of_singleton.
      case_decide; [subst; intros _; right; left; by right|].
      intros [?|[?|?]]%Hpr1; [by left|right; left; by left|by right; right].
    + done.
    + intros x Hx. rewrite truthy_insert. case_decide; [done|]. by apply Hcp.
    + intros x p [Hx|Hx%list_elem_of_singleton]%elem_of_app; [by eapply Hpay|].
      congruence.
  - exists (j ++ [Completed id]). unfold accounted. simpl.
    rewrite Hj, invocations_app, completions_app, app_nil_r. simpl.
    split_and!; try done.
    + by rewrite (assoc_L (++)).
    + intros x. rewrite truthy_insert, elem_of_app, list_elem_of_singleton.
      case_decide; subst; [|rewrite Hhand]; intuition congruence.
    + intros x [Hx| ->%list_elem_of_singleton]%elem_of_app; [by apply Hcp|].
      by apply truthy_own.
  - exists (j ++ [Minted (_prefix +:+ pretty (_lastID s1))]). unfold accounted. simpl.
    rewrite Hj, invocations_app, completions_app, !app_nil_r. simpl.
    split_and!; try done; [by rewrite (assoc_L (++))|].
    intros x [?|[?|[Hx Hno]]]%Hpr1; [by left|by right; left|]. right. right.
    split; [done|]. rewrite obj_has_set. case_decide as E; [|done].
    subst x. by rewrite token_not_inherited in Hx.
  - exists j. unfold accounted. simpl. split_and!; try done.
    intros x [?|[?|[Hx Hno]]]%Hpr1; [by left|by right; left|]. right. right.
    split; [done|]. rewrite obj_has_delete. by case_decide.
  - exists j. unfold accounted. simpl. split_and!; try done.
    + intros x Hx. rewrite truthy_insert. case_decide; [done|]. by apply Hpl1.
    + intros x. rewrite truthy_insert. case_decide; [subst; by right; right|]. apply Hpr1.
    + intros x Hx. rewrite truthy_insert. case_decide; [done|]. by apply Hcp.
Qed.
End journal_facts.

(** ** Starting and stopping a dispatch *)

Section dispatch_facts.
Context {TPayload TExn : Type}.
Implicit Types (s : Dispatcher TPayload TExn) (id : DispatchToken).

(** The loop of [_startDispatching]. *)
Lemma reset_loop_spec (ids : list DispatchToken) s :
  let s' := foldl (λ s id, set_isHandled (set_isPending s (<[id:=false]> (_isPending s)))
                                        (<[id:=false]> (_isHandled s))) s ids in
  _callbacks s' = _callbacks s ∧ _isDispatching s' = _isDispatching s ∧
  _lastID s' = _lastID s ∧ _pendingPayload s' = _pendingPayload s ∧
  journal s' = journal s ∧
  (∀ id, _isPending s' !! id = if decide (id ∈ ids) then Some false else _isPending s !! id) ∧
  (∀ id, _isHandled s' !! id = if decide (id ∈ ids) then Some false else _isHandled s !! id).
Proof.
  revert s. induction ids as [|id0 ids IH]; intros s; simpl.
  { split_and!; try done; intros id; by rewrite decide_False by apply not_elem_of_nil. }
  destruct (IH (set_isHandled (set_isPending s (<[id0:=false]> (_isPending s)))
                              (<[id0:=false]> (_isHandled s))))
    as (?&?&?&?&?&Hp&Hh).
  split_and!; try done.
  - intros id. rewrite Hp. simpl. rewrite lookup_insert.
    destruct (decide (id ∈ ids)) as [Hin|Hin].
    + by rewrite decide_True by (by right).
    + destruct (decide (id0 = id)) as [->|Hne].
      * by rewrite decide_True by (by left).
      * rewrite decide_False; [done|]. intros [?|?]%elem_of_cons; congruence.
  - intros id. rewrite Hh. simpl. rewrite lookup_insert.
    destruct (decide (id ∈ ids)) as [Hin|Hin].
    + by rewrite decide_True by (by right).
    + destruct (decide (id0 = id)) as [->|Hne].
      * by rewrite decide_True by (by left).
      * rewrite decide_False; [done|]. intros [?|?]%elem_of_cons; congruence.
Qed.

Lemma startDispatching_spec payload s :
  let s' := _startDispatching payload s in
  _callbacks s' = _callbacks s ∧ _isDispatching s' = true ∧
  _lastID s' = _lastID s ∧ _pendingPayload s' = Some payload ∧
  journal s' = journal s ∧
  (∀ id, _isPending s' !! id =
         if obj_has (_callbacks s) id then Some false else _isPending s !! id) ∧
  (∀ id, _isHandled s' !! id =
         if obj_has (_callbacks s) id then Some false else _isHandled s !! id).
Proof.
  unfold _startDispatching. simpl.
  destruct (reset_loop_spec (obj_keys (_callbacks s)) s) as (?&?&?&?&?&Hp&Hh).
  split_and!; try done.
  - intros id. rewrite Hp. destruct (obj_has (_callbacks s) id) eqn:E.
    + apply obj_has_keys in E. by rewrite decide_True.
    + rewrite decide_False; [done|]. rewrite <- obj_has_keys. congruence.
  - intros id. rewrite Hh. destruct (obj_has (_callbacks s) id) eqn:E.
    + apply obj_has_keys in E. by rewrite decide_True.
    + rewrite decide_False; [done|]. rewrite <- obj_has_keys. congruence.
Qed.

(** A dispatch that gets past its guard is [_startDispatching], a cycle and
    [_stopDispatching]. *)
Lemma dispatch_cycle n payload s s' :
  _isDispatching s = false →
  state_of (dispatch n payload s) = Some s' →
  ∃ s2, rtc cycle_step (_startDispatching payload s) s2 ∧ s' = _stopDispatching s2.
Proof.
  intros Hd. unfold dispatch, dispatch_with. rewrite Hd.
  destruct (dispatch_loop _ _ _) as [s2|e s2|] eqn:Hl; simpl; [| |done].
  - intros [= <-]. exists s2. split; [|done].
    eapply dispatch_loop_cycle; [|by rewrite Hl]. apply startDispatching_spec.
  - intros [= <-]. exists s2. split; [|done].
    eapply dispatch_loop_cycle; [|by rewrite Hl]. apply startDispatching_spec.
Qed.
End dispatch_facts.

(** ** Guards, cleanup and single invocation *)

Section guards.
Context {TPayload TExn : Type}.
Implicit Types (s : Dispatcher TPayload TExn) (id : DispatchToken).

(** C8. In every state in which [isDispatching()] is true, so in particular
    inside a callback that an in-progress dispatch is running, a call to
    [dispatch] fails with [ReentrantDispatchError] and leaves the dispatcher
    exactly as it was: no new cycle is started.  This holds for a call from
    outside and for a call made by the body of a callback. *)
Theorem dispatch_is_not_reentrant n payload s :
  isDispatching s = true →
  dispatch n payload s = Throws ReentrantDispatchError s ∧
  (∀ k, run (S n) (Dispatch payload k) s = Throws ReentrantDispatchError s) ∧
  (∀ s2, rtc cycle_step s s2 → dispatch n payload s2 = Throws ReentrantDispatchError s2).
Proof.
  unfold isDispatching. intros Hd. split_and!.
  - by apply nested_dispatch_rejected.
  - intros k. simpl. by rewrite nested_dispatch_rejected.
  - intros s2 [Hd2 _]%cycle_frame. apply nested_dispatch_rejected. congruence.
Qed.

Lemma waitFor_loop_skips run (pre ids : list DispatchToken) s :
  (∀ t, t ∈ pre → truthy (_isPending s) t = true ∧ truthy (_isHandled s) t = true) →
  waitFor_loop run (pre ++ ids) s = waitFor_loop run ids s.
Proof.
  induction pre as [|t pre IH]; intros Hpre; simpl; [done|].
  destruct (Hpre t) as [-> ->]; [by left|]. apply IH. intros t' Ht'. apply Hpre. by right.
Qed.

(** What the guards of [waitFor] and [unregister] do catch.  [waitFor]
    outside a dispatch fails with [NotDispatchingError]; [unregister] of a
    token that is neither registered nor an inherited name fails with
    [InvalidTokenError]; and during a dispatch [waitFor] fails with
    [InvalidTokenError] at the first token that is neither registered nor
    an inherited name nor pending, the tokens before it in the list having
    been handled already. *)
Lemma guard_rails n s id (pre ids : list DispatchToken) :
  (isDispatching s = false → waitFor n ids s = Throws NotDispatchingError s) ∧
  (obj_has (_callbacks s) id = false → inherited id = false →
     unregister id s = Throws (InvalidTokenError_unregister id) s) ∧
  (isDispatching s = true →
   obj_has (_callbacks s) id = false → inherited id = false →
   truthy (_isPending s) id = false →
   (∀ t, t ∈ pre → truthy (_isPending s) t = true ∧ truthy (_isHandled s) t = true) →
     waitFor n (pre ++ id :: ids) s = Throws (InvalidTokenError id) s).
Proof.
  unfold isDispatching, waitFor, waitFor_with, unregister, obj_truthy. split_and!.
  - by intros ->.
  - by intros -> ->.
  - intros -> Hc Hi Hp Hpre. rewrite waitFor_loop_skips by done. simpl.
    unfold obj_truthy. by rewrite Hp, Hc, Hi.
Qed.

(** What they let through.  [unregister] of an inherited name that is not
    registered returns and leaves the dispatcher as it is; and during a
    dispatch [waitFor] passes over an inherited name for which the flag
    dictionaries hold no own property, as it does over a token that has
    been handled: waiting for such a name alone returns at once. *)
Lemma inherited_names_pass n s id (ids : list DispatchToken) :
  inherited id = true →
  (obj_has (_callbacks s) id = false → unregister id s = Returns s) ∧
  (isDispatching s = true →
   _isPending s !! id = None → _isHandled s !! id = None →
   waitFor n (id :: ids) s = waitFor n ids s ∧ waitFor n [id] s = Returns s).
Proof.
  intros Hi. split.
  - intros Hc. unfold unregister, obj_truthy. rewrite Hc, Hi. simpl.
    by rewrite unregister_absent.
  - unfold isDispatching, waitFor, waitFor_with, truthy. intros -> Hp Hh. simpl.
    unfold truthy. by rewrite Hp, Hh, Hi.
Qed.

(** The loop of [dispatch] throws only what an invocation of a callback
    threw, and throws whatever the invocation it makes throws. *)
Lemma dispatch_loop_throws run ids s e s' :
  dispatch_loop run ids s = Throws e s' →
  ∃ id s1, obj_has (_callbacks s1) id = true ∧
           _invokeCallback_with run id s1 = Throws e s'.
Proof.
  revert s. induction ids as [|id ids IH]; intros s; simpl; [done|].
  destruct (obj_has (_callbacks s) id) eqn:Hc; [|by apply IH].
  destruct (truthy (_isPending s) id); [by apply IH|].
  destruct (_invokeCallback_with run id s) as [s1|e1 s1|] eqn:Hi; simpl; [by apply IH| |done].
  intros [= <- <-]. eauto.
Qed.

Lemma invokeCallback_throws run id s e s' :
  obj_has (_callbacks s) id = true →
  _invokeCallback_with run id s = Throws e s' →
  ∃ cb, obj_get (_callbacks s) id = Some cb ∧
        run (cb (_pendingPayload s))
            (record (mark_pending id s) (Invoked id (_pendingPayload s))) = Throws e s'.
Proof.
  intros [cb Hcb]%obj_has_true. unfold _invokeCallback_with. simpl. rewrite Hcb.
  destruct (run _ _) as [s2|e2 s2|] eqn:Hr; simpl; [done| |done].
  intros [= <- <-]. eauto.
Qed.

(** C3. A dispatch that got past its guard and finished, by returning or
    by throwing, leaves [isDispatching()] false and the pending payload
    cleared.  If it threw, what it throws is what the body of one of the
    callbacks threw, with nothing done to the dispatcher in between but the
    cleanup; conversely what the invocation of a callback throws is what
    the loop throws.  The next dispatch gets past the guard and starts with
    the two flags of every registered token set to false. *)
Theorem dispatch_cleans_up n payload s s' :
  isDispatching s = false →
  state_of (dispatch n payload s) = Some s' →
  isDispatching s' = false ∧ _pendingPayload s' = None ∧
  (∀ e, dispatch n payload s = Throws e s' →
     ∃ id cb s1 s2,
       obj_get (_callbacks s1) id = Some cb ∧
       run n (cb (_pendingPayload s1))
             (record (mark_pending id s1) (Invoked id (_pendingPayload s1))) = Throws e s2 ∧
       s' = _stopDispatching s2) ∧
  (∀ id ids s1 e s2,
     obj_has (_callbacks s1) id = true → truthy (_isPending s1) id = false →
     _invokeCallback n id s1 = Throws e s2 →
     finally (dispatch_loop (run n) (id :: ids) s1) _stopDispatching
       = Throws e (_stopDispatching s2)) ∧
  (∀ n' payload',
     dispatch n' payload' s' =
       finally (dispatch_loop (run n') (obj_keys (_callbacks s'))
                              (_startDispatching payload' s')) _stopDispatching ∧
     isDispatching (_startDispatching payload' s') = true ∧
     ∀ id, obj_has (_callbacks s') id = true →
       _isPending (_startDispatching payload' s') !! id = Some false ∧
       _isHandled (_startDispatching payload' s') !! id = Some false).
Proof.
  unfold isDispatching. intros Hd Hr.
  assert (_isDispatching s' = false ∧ _pendingPayload s' = None) as [Hd' Hp'].
  { destruct (dispatch_cycle n payload s s' Hd Hr) as (s2 & _ & ->). done. }
  split_and!; try done.
  - intros e He. unfold dispatch, dispatch_with in He. rewrite Hd in He.
    destruct (dispatch_loop _ _ _) as [?|e2 s2|] eqn:Hl; simpl in He; [done| |done].
    injection He as -> <-.
    apply dispatch_loop_throws in Hl as (id & s1 & Hc & Hi).
    apply invokeCallback_throws in Hi as (cb & Hcb & Hrun); [|done].
    by exists id, cb, s1, s2.
  - intros id ids s1 e s2 Hc Hp Hi. simpl. rewrite Hc, Hp.
    unfold _invokeCallback in Hi. by rewrite Hi.
  - intros n' payload'. unfold dispatch, dispatch_with. rewrite Hd'.
    destruct (startDispatching_spec payload' s') as (Hcb & Hdis & _ & _ & _ & Hpe & Hha).
    split_and!; [by rewrite Hcb|done|].
    intros id Hc. by rewrite Hpe, Hha, Hc.
Qed.

End guards.

(** ** The flags of a cycle *)

Section flags.
Context {TPayload TExn : Type}.
Implicit Types (s : Dispatcher TPayload TExn) (id : DispatchToken).
Implicit Types (f : frames TPayload TExn) (stk : list DispatchToken).

Lemma cycle_step_coherent s s' : cycle_step s s' → coherent s → coherent s'.
Proof.
  unfold coherent.
  destruct 1 as [id s Hp Hc|id s Hp|cb s|id s Hc|id s Hp Hc Hi]; simpl; intros Hco x.
  - rewrite truthy_insert. case_decide; [done|]. apply Hco.
  - rewrite truthy_insert. case_decide; subst; [intros _; by apply truthy_own|]. apply Hco.
  - apply Hco.
  - apply Hco.
  - rewrite truthy_insert. case_decide; [done|]. apply Hco.
Qed.

Lemma startDispatching_coherent payload s :
  coherent s → coherent (_startDispatching payload s).
Proof.
  destruct (startDispatching_spec payload s) as (_&_&_&_&_&Hp&Hh).
  intros Hco id. unfold truthy. rewrite Hp, Hh.
  destruct (obj_has (_callbacks s) id); [done|]. apply Hco.
Qed.

Lemma frame_step_dead id f f' : frame_step f f' → stack_ok f → dead id f → dead id f'.
Proof.
  unfold dead.
  destruct 1 as [id0 stk s Hp Hc|id0 stk s|id0 stk s|cb stk s|id0 stk s Hc
                |id0 stk s Hp Hc Hi]; simpl;
    intros Hok (Hnin & Hpe & Hha).
  - assert (id ≠ id0) by congruence. split_and!.
    + by intros [?|?]%elem_of_cons.
    + rewrite truthy_insert. by case_decide.
    + done.
  - assert (id ≠ id0) by (intros ->; apply Hnin; by left). split_and!.
    + intros ?. apply Hnin. by right.
    + done.
    + rewrite truthy_insert. by rewrite decide_False.
  - split_and!; [|done..]. intros ?. apply Hnin. by right.
  - done.
  - done.
  - split_and!; [done| |done]. rewrite truthy_insert. by case_decide.
Qed.

Lemma frames_dead id f f' : rtc frame_step f f' → stack_ok f → dead id f → dead id f'.
Proof.
  induction 1 as [|f f1 f2 H1 _ IH]; [done|]. intros Hok Hdead. apply IH.
  - by eapply frame_step_cycle.
  - by eapply frame_step_dead.
Qed.

(** An invocation that throws leaves its token pending, not handled and off
    the call stack, for good. *)
Lemma thrown_invocation_is_dead n id stk s e s' :
  isDispatching s = true → coherent s → stack_ok (stk, s) →
  truthy (_isPending s) id = false → obj_has (_callbacks s) id = true →
  _invokeCallback n id s = Throws e s' →
  truthy (_isPending s') id = true ∧ truthy (_isHandled s') id = false ∧
  isDispatching s' = true ∧
  ∀ f, rtc frame_step (stk, s') f →
    truthy (_isPending f.2) id = true ∧ truthy (_isHandled f.2) id = false ∧
    ∀ m ids, waitFor m (id :: ids) f.2 = Throws (CircularDependencyError id) f.2.
Proof.
  unfold isDispatching. intros Hd Hco Hok Hp Hc Hi.
  assert (rtc frame_step (stk, s) (stk, s')) as Hfr.
  { apply (invokeCallback_frames (run n) (run_frames n) id);
      [done..|by apply obj_has_truthy|].
    unfold _invokeCallback in Hi. by rewrite Hi. }
  apply invokeCallback_throws in Hi as (cb & Hcb & Hrun); [|done].
  set (s1 := record (mark_pending id s) (Invoked id (_pendingPayload s))) in *.
  assert (stack_ok (stk, s1)) as Hok1.
  { intros x Hx. simpl. rewrite lookup_insert. case_decide; [done|]. by apply Hok. }
  assert (dead id (stk, s1)) as Hdead1.
  { split_and!; simpl.
    - intros Hin. apply Hok in Hin. simpl in Hin. apply truthy_own in Hin. congruence.
    - rewrite truthy_insert. by rewrite decide_True.
    - destruct (truthy (_isHandled s) id) eqn:E; [|done]. apply Hco in E. congruence. }
  assert (rtc frame_step (stk, s1) (stk, s')) as H1'.
  { apply (run_frames n (cb (_pendingPayload s))); [done..|by rewrite Hrun]. }
  pose proof (frames_dead id _ _ H1' Hok1 Hdead1) as (Hnin & Hpe & Hha). simpl in *.
  assert (_isDispatching s' = true) as Hd'.
  { pose proof (frames_dispatching _ _ Hok Hfr) as E. simpl in E. congruence. }
  split_and!; try done.
  intros f Hf.
  assert (stack_ok (stk, s')) as Hok' by (by eapply frames_cycle).
  pose proof (frames_dead id _ _ Hf Hok' (conj Hnin (conj Hpe Hha))) as (_ & Hpf & Hhf).
  split_and!; try done. intros m ids. unfold waitFor, waitFor_with.
  pose proof (frames_dispatching _ _ Hok' Hf) as E. simpl in E. rewrite E, Hd'.
  simpl. by rewrite Hpf, Hhf.
Qed.

(** C6 as the code has it.  [_startDispatching] sets both flags of every
    registered token to false and leaves every other entry of the two maps
    as it was; and for the rest of the cycle each map keeps an entry for
    every token that was registered when the dispatch started. *)
Theorem flags_cover_registered payload s :
  (∀ id, obj_has (_callbacks s) id = true →
     _isPending (_startDispatching payload s) !! id = Some false ∧
     _isHandled (_startDispatching payload s) !! id = Some false) ∧
  (∀ id, obj_has (_callbacks s) id = false →
     _isPending (_startDispatching payload s) !! id = _isPending s !! id ∧
     _isHandled (_startDispatching payload s) !! id = _isHandled s !! id) ∧
  (∀ s2 id, rtc cycle_step (_startDispatching payload s) s2 →
     obj_has (_callbacks s) id = true →
     is_Some (_isPending s2 !! id) ∧ is_Some (_isHandled s2 !! id)).
Proof.
  destruct (startDispatching_spec payload s) as (_&_&_&_&_&Hp&Hh).
  split_and!.
  - intros id Hc. by rewrite Hp, Hh, Hc.
  - intros id Hc. by rewrite Hp, Hh, Hc.
  - intros s2 id Hcy Hc. apply (cycle_flags _ _ id) in Hcy as (_ & _ & H1 & H2).
    split; [apply H1|apply H2]; rewrite ?Hp, ?Hh, Hc; eauto.
Qed.
End flags.

(** ** The lifetime of a dispatcher, and the reduce store *)

Section lifetime.
Context {TPayload TExn : Type}.
Implicit Types (s : Dispatcher TPayload TExn) (id : DispatchToken).

(** A property of the dispatcher that the steps of a cycle and the start
    and the end of a dispatch preserve holds throughout its lifetime. *)
Section invariant.
Variable P : Dispatcher TPayload TExn → Prop.
Hypothesis P_step : ∀ s s', cycle_step s s' → P s → P s'.
Hypothesis P_start : ∀ payload s, P s → P (_startDispatching payload s).
Hypothesis P_stop : ∀ s, P s → P (_stopDispatching s).

Lemma cycle_preserves s s' : rtc cycle_step s s' → P s → P s'.
Proof using P_step. induction 1; eauto. Qed.

Lemma perform_preserves c s s' : state_of (perform c s) = Some s' → P s → P s'.
Proof using P_step P_start P_stop.
  destruct c as [cb|id|n ids|n payload]; simpl.
  - intros [= <-]. apply P_step, step_register.
  - unfold unregister. destruct (obj_truthy (_callbacks s) id) eqn:Ht; simpl;
      intros [= <-]; [|done].
    destruct (obj_has (_callbacks s) id) eqn:Hc.
    + by apply P_step, step_unregister.
    + by rewrite unregister_absent.
  - intros Hr. apply cycle_preserves.
    assert (stack_ok ([], s)) as Hok by (intros ? ?%elem_of_nil; done).
    by destruct (frames_cycle _ _ Hok
      (waitFor_frames (run n) (run_frames n) ids [] s s' Hok Hr)).
  - destruct (_isDispatching s) eqn:Hd.
    + unfold dispatch. rewrite nested_dispatch_rejected by done. by intros [= <-].
    + intros Hr Hs. destruct (dispatch_cycle n payload s s' Hd Hr) as (s2 & Hcy & ->).
      apply P_stop. eapply cycle_preserves; [done|]. by apply P_start.
Qed.

Lemma evolves_preserves s s' : evolves s s' → P s → P s'.
Proof using P_step P_start P_stop.
  induction 1; eauto using perform_preserves.
Qed.
End invariant.

(** No method of the dispatcher gives a dictionary an own property under
    an inherited name. *)
Lemma cycle_step_plain s s' : cycle_step s s' → plain s → plain s'.
Proof.
  intros Hstep Hpl id Hi. destruct (Hpl id Hi) as (Hc & Hp & Hh).
  destruct Hstep as [id' s Hp' Hc'|id' s Hp'|cb s|id' s Hc'|id' s Hp' Hc' Hi']; simpl.
  - assert (id' ≠ id) by (intros ->; congruence).
    rewrite lookup_insert, decide_False by done. done.
  - assert (id' ≠ id) by (intros ->; congruence).
    rewrite lookup_insert, decide_False by done. done.
  - rewrite obj_has_set. case_decide as E; [|done].
    rewrite <- E, token_not_inherited in Hi. done.
  - rewrite obj_has_delete. by case_decide.
  - destruct (Hpl id' Hi') as (_ & Hnone & _).
    unfold truthy in Hp'. rewrite Hnone in Hp'. congruence.
Qed.

Lemma startDispatching_plain payload s : plain s → plain (_startDispatching payload s).
Proof.
  intros Hpl id Hi. destruct (Hpl id Hi) as (Hc & Hp & Hh).
  destruct (startDispatching_spec payload s) as (-> & _ & _ & _ & _ & Hp' & Hh').
  by rewrite Hp', Hh', Hc.
Qed.

Lemma cycle_plain s s' : rtc cycle_step s s' → plain s → plain s'.
Proof. apply (cycle_preserves plain), cycle_step_plain. Qed.

Lemma evolves_plain s s' : evolves s s' → plain s → plain s'.
Proof.
  apply (evolves_preserves plain); [apply cycle_step_plain| |done].
  intros payload s1. apply startDispatching_plain.
Qed.

Lemma reachable_plain s : reachable s → plain s.
Proof. intros H. by apply (evolves_plain _ _ H). Qed.

(** In such a state what [waitFor] invokes is an own property of
    [_callbacks]. *)
Lemma plain_invokes_callbacks s id :
  plain s → truthy (_isPending s) id = false → obj_truthy (_callbacks s) id = true →
  obj_has (_callbacks s) id = true.
Proof.
  intros Hpl Hp [Hc|Hi]%obj_truthy_true; [done|].
  destruct (Hpl id Hi) as (_ & Hnone & _).
  unfold truthy in Hp. rewrite Hnone in Hp. congruence.
Qed.

(** The counter never goes back. *)
Lemma cycle_step_lastID s s' : cycle_step s s' → (_lastID s ≤ _lastID s')%N.
Proof. destruct 1; simpl; lia. Qed.

Lemma evolves_lastID s s' : evolves s s' → (_lastID s ≤ _lastID s')%N.
Proof.
  intros H. apply (evolves_preserves (λ s', (_lastID s ≤ _lastID s')%N)) in H; [done|..|lia].
  - intros s1 s2 Hs%cycle_step_lastID. lia.
  - intros payload s1. by destruct (startDispatching_spec payload s1) as (_&_&->&_).
  - done.
Qed.

Lemma token_inj (n m : N) : _prefix +:+ pretty n = _prefix +:+ pretty m → n = m.
Proof. intros H. by apply (inj pretty), (inj (String.append _prefix)). Qed.

(** No token in the journal was minted twice and each carries a number the
    counter has passed. *)
Lemma cycle_step_minted s s' :
  cycle_step s s' →
  NoDup (minted (journal s)) ∧ numbered s → NoDup (minted (journal s')) ∧ numbered s'.
Proof.
  unfold numbered.
  destruct 1 as [id s Hp Hc|id s Hp|cb s|id s Hc|id s Hp Hc Hi]; simpl;
    rewrite ?minted_app; simpl; rewrite ?app_nil_r; try done.
  intros [Hnd Hnum]. split.
  - apply NoDup_app. split_and!; [done| |apply NoDup_singleton].
    intros x Hx ->%list_elem_of_singleton. apply Hnum in Hx as (m & Hm & Heq).
    apply token_inj in Heq. lia.
  - intros x [Hx| ->%list_elem_of_singleton]%elem_of_app.
    + apply Hnum in Hx as (m & Hm & Heq). exists m. split; [lia|done].
    + exists (_lastID s). split; [lia|done].
Qed.

Lemma reachable_minted s :
  reachable s → NoDup (minted (journal s)) ∧ numbered s.
Proof.
  intros H.
  apply (evolves_preserves (λ s, NoDup (minted (journal s)) ∧ numbered s)) in H; [done|..].
  - intros s1 s2. apply cycle_step_minted.
  - intros payload s1. unfold numbered.
    by destruct (startDispatching_spec payload s1) as (_&_&->&_&->&_).
  - done.
  - split; [apply NoDup_nil_2|]. intros id ?%elem_of_nil. done.
Qed.

(** C7. Two calls of [register] on the same dispatcher never return the
    same token, whatever calls are made in between; and at every time of
    the lifetime of a dispatcher the tokens minted so far, by callers
    outside and by callbacks alike, are pairwise distinct and differ from
    the token the next [register] will return. *)
Theorem tokens_are_unique :
  (∀ s cb s' cb',
     evolves (register cb s).2 s' → (register cb s).1 ≠ (register cb' s').1) ∧
  (∀ s cb,
     reachable s →
     NoDup (minted (journal s)) ∧
     ((register cb s).1 ∉ minted (journal s)) ∧
     minted (journal (register cb s).2) = minted (journal s) ++ [(register cb s).1]).
Proof.
  split.
  - intros s cb s' cb' Hev%evolves_lastID Heq. simpl in *. apply token_inj in Heq. lia.
  - intros s cb [Hnd Hnum]%reachable_minted. split_and!; [done| |].
    + intros (m & Hm & Heq)%Hnum. apply token_inj in Heq. lia.
    + simpl. rewrite minted_app. done.
Qed.
End lifetime.

Section store_facts.
Context {TState TAction TExn : Type}.
Variable className : string.
Variable reduce : TState → TAction → option TState.
Variable areEqual : TState → TState → bool.
Variable listeners : Store TState → option TExn.
Implicit Types (st : Store TState) (action : TAction).

(** C10. When [reduce] returns [undefined] the callback of the store fails
    on the invariant, the state and the emitted events being what they
    were.  When [reduce] never returns [undefined] the callback never fails
    that way; and whenever [reduce] returns a state that [areEqual] equates
    with the starting state, the callback returns with the state unchanged
    and no event emitted. *)
Theorem reduce_store_dispatch dispatching action st :
  (reduce (_state st) action = None →
     ∃ st', __invokeOnDispatch className reduce areEqual listeners dispatching action st
              = Fails (undefined_state_error className) st' ∧
            _state st' = _state st ∧ emitted st' = emitted st) ∧
  ((∀ state a, reduce state a ≠ None) →
     (∀ st', __invokeOnDispatch className reduce areEqual listeners dispatching action st
               ≠ Fails (undefined_state_error className) st') ∧
     (∀ endingState,
        reduce (_state st) action = Some endingState →
        areEqual (_state st) endingState = true →
        ∃ st', __invokeOnDispatch className reduce areEqual listeners dispatching action st
                 = Done st' ∧
               _state st' = _state st ∧ emitted st' = emitted st)).
Proof.
  unfold __invokeOnDispatch. simpl. split.
  - intros ->. eexists. done.
  - intros Hdef. split.
    + intros st'. destruct (reduce (_state st) action) as [endingState|] eqn:Hr;
        [|by destruct (Hdef _ _ Hr)].
      destruct (areEqual (_state st) endingState); simpl; [done|].
      unfold __emitChange. destruct dispatching; simpl.
      * unfold emit. simpl. by destruct (listeners _).
      * unfold undefined_state_error, emitChange_error. by intros [=].
    + intros endingState -> ->. simpl. eexists. done.
Qed.
End store_facts.

(** ** The recursion budget *)

Section budget.
Context {TPayload TExn : Type}.
Implicit Types (s : Dispatcher TPayload TExn) (id : DispatchToken).
Implicit Types (r : outcome TPayload TExn).

Lemma andThen_finished r g :
  andThen r g ≠ OutOfBudget →
  r ≠ OutOfBudget ∧ ∀ s, r = Returns s → g s ≠ OutOfBudget.
Proof. destruct r; simpl; [|done..]. intros H. split; [done|]. by intros ? [= <-]. Qed.

Lemma andThen_ext r r' g g' :
  r' = r → (∀ s, r = Returns s → g' s = g s) → andThen r' g' = andThen r g.
Proof. intros -> Hg. destruct r; simpl; [by apply Hg|done..]. Qed.

(** Two ways of running bodies, the second finishing like the first
    whenever the first finishes. *)
Section calls_budget.
Variables run1 run2 : prog TPayload TExn → Dispatcher TPayload TExn → outcome TPayload TExn.
Hypothesis run_le : ∀ p s, run1 p s ≠ OutOfBudget → run2 p s = run1 p s.

Lemma invokeCallback_le id s :
  _invokeCallback_with run1 id s ≠ OutOfBudget →
  _invokeCallback_with run2 id s = _invokeCallback_with run1 id s.
Proof.
  unfold _invokeCallback_with. destruct (obj_get _ _); [|done].
  intros [H1 _]%andThen_finished. by rewrite run_le.
Qed.

Lemma waitFor_loop_le ids s :
  waitFor_loop run1 ids s ≠ OutOfBudget →
  waitFor_loop run2 ids s = waitFor_loop run1 ids s.
Proof.
  revert s. induction ids as [|id ids IH]; intros s; simpl; [done|].
  destruct (truthy (_isPending s) id).
  { destruct (truthy (_isHandled s) id); [apply IH|done]. }
  destruct (obj_truthy (_callbacks s) id); [|done].
  intros [H1 H2]%andThen_finished. apply andThen_ext.
  - by apply invokeCallback_le.
  - intros s1 Hs1. apply IH. by apply H2.
Qed.

Lemma waitFor_le ids s :
  waitFor_with run1 ids s ≠ OutOfBudget →
  waitFor_with run2 ids s = waitFor_with run1 ids s.
Proof. unfold waitFor_with. destruct (_isDispatching s); [apply waitFor_loop_le|done]. Qed.

Lemma dispatch_loop_le ids s :
  dispatch_loop run1 ids s ≠ OutOfBudget →
  dispatch_loop run2 ids s = dispatch_loop run1 ids s.
Proof.
  revert s. induction ids as [|id ids IH]; intros s; simpl; [done|].
  destruct (obj_has (_callbacks s) id); [|apply IH].
  destruct (truthy (_isPending s) id); [apply IH|].
  intros [H1 H2]%andThen_finished. apply andThen_ext.
  - by apply invokeCallback_le.
  - intros s1 Hs1. apply IH. by apply H2.
Qed.

Lemma dispatch_le payload s :
  dispatch_with run1 payload s ≠ OutOfBudget →
  dispatch_with run2 payload s = dispatch_with run1 payload s.
Proof.
  unfold dispatch_with. destruct (_isDispatching s); [done|].
  intros H. rewrite dispatch_loop_le; [done|]. by destruct (dispatch_loop run1 _ _).
Qed.
End calls_budget.

(** A larger budget does not change how a body that finishes ends. *)
Lemma run_mono n m p s :
  n ≤ m → run n p s ≠ OutOfBudget → run m p s = run n p s.
Proof.
  revert m p s. induction n as [|n IH]; intros m p s Hle; simpl; [done|].
  destruct m as [|m]; [lia|]. simpl.
  assert (∀ p s, run n p s ≠ OutOfBudget → run m p s = run n p s) as IH'
    by (intros; apply IH; [lia|done]).
  destruct p as [|e|ids k|payload k|cb k|id k|k|body handler k]; try done.
  - intros [H1 H2]%andThen_finished. apply andThen_ext; [by apply waitFor_le|].
    intros s1 Hs1. apply IH'. by apply H2.
  - intros [H1 H2]%andThen_finished. apply andThen_ext; [by apply dispatch_le|].
    intros s1 Hs1. apply IH'. by apply H2.
  - apply IH'.
  - intros [H1 H2]%andThen_finished. apply andThen_ext; [done|].
    intros s1 Hs1. apply IH'. by apply H2.
  - apply IH'.
  - destruct (run n body s) as [s1|e s1|] eqn:Hb; [| |done].
    + intros H. rewrite (IH' body), Hb by (by rewrite Hb). by apply IH'.
    + intros [H1 H2]%andThen_finished. rewrite (IH' body), Hb by (by rewrite Hb).
      apply andThen_ext; [by apply IH'|]. intros s2 Hs2. apply IH'. by apply H2.
Qed.

Lemma dispatch_mono n m payload s :
  n ≤ m → dispatch n payload s ≠ OutOfBudget → dispatch m payload s = dispatch n payload s.
Proof. intros Hle. apply dispatch_le. intros p s1. by apply run_mono. Qed.
End budget.

(** ** Callbacks that leave the dispatcher alone *)

Section calm_callbacks.
Context {TPayload TExn : Type}.
Implicit Types (s : Dispatcher TPayload TExn) (id : DispatchToken).
Implicit Types (p : prog TPayload TExn).

Lemma grown_refl s : grown s s.
Proof.
  unfold grown. split_and!; try done. exists []. by rewrite app_nil_r.
Qed.

Lemma grown_trans s1 s2 s3 : grown s1 s2 → grown s2 s3 → grown s1 s3.
Proof.
  intros (Hc1 & Hd1 & Hp1 & Hh1 & Hl1 & (j1 & Hj1 & Hi1 & Hk1) & Hr1)
         (Hc2 & Hd2 & Hp2 & Hh2 & Hl2 & (j2 & Hj2 & Hi2 & Hk2) & Hr2).
  unfold grown. split_and!; try congruence; [| |by auto].
  - intros id Hid. rewrite Hc2; [by apply Hc1|]. by rewrite Hc1.
  - exists (j1 ++ j2). rewrite Hj2, Hj1, invocations_app, completions_app, Hi1, Hi2, Hk1, Hk2.
    by rewrite (assoc_L (++)).
Qed.

Lemma register_grown cb s : registry_ok s → grown s (register cb s).2.
Proof.
  intros [Hnd Hnum]. unfold grown. simpl. split_and!; try done.
  - intros id Hid. rewrite obj_get_set. case_decide as E; [|done]. subst id.
    apply Hnum in Hid as (m & Hm & Heq). apply token_inj in Heq. lia.
  - by exists [Minted (_prefix +:+ pretty (_lastID s))].
  - intros _. split; [by apply obj_keys_set_NoDup|].
    intros id. simpl. rewrite obj_get_set. case_decide as E.
    + intros _. exists (_lastID s). split; [lia|done].
    + intros (m & Hm & Heq)%Hnum. exists m. split; [lia|done].
Qed.

(** A calm body returns, whatever the state it is run in. *)
Lemma calm_run p :
  calm p → ∀ s, registry_ok s → ∃ n s', run n p s = Returns s' ∧ grown s s'.
Proof.
  induction 1 as [|cb k _ IH|k _ IH|body handler k _ IHb _ IHk]; intros s Hok.
  - exists 1, s. split; [done|apply grown_refl].
  - pose proof (register_grown cb s Hok) as Hg.
    destruct (IH (register cb s).1 (register cb s).2) as (n & s' & Hr & Hg');
      [by apply Hg|].
    exists (S n), s'. split; [done|]. by eapply grown_trans.
  - destruct (IH (isDispatching s) s Hok) as (n & s' & Hr & Hg).
    exists (S n), s'. done.
  - destruct (IHb s Hok) as (n1 & s1 & Hr1 & Hg1).
    destruct (IHk s1) as (n2 & s2 & Hr2 & Hg2); [by apply Hg1|].
    exists (S (n1 `max` n2)), s2. split; [|by eapply grown_trans]. simpl.
    rewrite (run_mono n1) by (rewrite ?Hr1; done || lia). rewrite Hr1.
    rewrite (run_mono n2) by (rewrite ?Hr2; done || lia). done.
Qed.

(** The equations of an invocation that returns. *)
Lemma invokeCallback_returns run id s cb s2 :
  obj_get (_callbacks s) id = Some cb →
  run (cb (_pendingPayload s))
      (record (mark_pending id s) (Invoked id (_pendingPayload s))) = Returns s2 →
  _invokeCallback_with run id s = Returns (mark_handled id s2).
Proof.
  unfold _invokeCallback_with, mark_pending. simpl. intros -> Hr.
  change (set_isPending s (<[id:=true]> (_isPending s))) with (mark_pending id s) in *.
  unfold mark_pending in *. by rewrite Hr.
Qed.

Lemma dispatch_loop_invoke run id ids s :
  obj_has (_callbacks s) id = true → truthy (_isPending s) id = false →
  dispatch_loop run (id :: ids) s
    = andThen (_invokeCallback_with run id s) (dispatch_loop run ids).
Proof. simpl. by intros -> ->. Qed.

Lemma calm_dispatch_loop payload ids :
  NoDup ids →
  ∀ s,
    _pendingPayload s = Some payload → registry_ok s →
    (∀ id, id ∈ ids →
       truthy (_isPending s) id = false ∧
       ∃ cb, obj_get (_callbacks s) id = Some cb ∧ calm (cb (Some payload))) →
    ∃ n s' j,
      dispatch_loop (run n) ids s = Returns s' ∧
      journal s' = journal s ++ j ∧
      invocations j = (λ id, (id, Some payload)) <$> ids ∧
      completions j = ids.
Proof.
  induction 1 as [|id ids Hnin Hnd IH]; intros s Hpl Hok Hids.
  { exists 0, s, []. by rewrite app_nil_r. }
  destruct (Hids id) as (Hp & cb & Hcb & Hcalm); [by left|].
  rewrite <- Hpl in Hcalm.
  destruct (calm_run _ Hcalm (record (mark_pending id s) (Invoked id (_pendingPayload s))) Hok)
    as (n1 & s2 & Hr & Hg).
  destruct Hg as (Hc2 & Hd2 & Hp2 & Hh2 & Hl2 & (j2 & Hj2 & Hi2 & Hk2) & Hr2).
  destruct (IH (mark_handled id s2)) as (n3 & s' & j' & Hloop & Hj' & Hi' & Hk').
  { simpl. by rewrite Hl2. }
  { by apply Hr2. }
  { intros x Hx. destruct (Hids x) as (Hpx & cbx & Hcbx & Hcalmx); [by right|].
    split.
    - simpl. rewrite Hp2. simpl. rewrite truthy_insert.
      rewrite decide_False; [done|]. by intros ->.
    - exists cbx. split; [|done]. simpl. rewrite Hc2; [done|]. simpl. by rewrite Hcbx. }
  exists (n1 `max` n3), s',
    ([Invoked id (_pendingPayload s)] ++ j2 ++ [Completed id] ++ j').
  split_and!.
  - rewrite dispatch_loop_invoke; [|apply obj_has_true; eauto|done].
    rewrite (invokeCallback_returns _ id s cb s2 Hcb).
    + simpl. rewrite (dispatch_loop_le (run n3)); [done| |by rewrite Hloop].
      intros p0 s0. apply run_mono. lia.
    + rewrite (run_mono n1); [done|lia|by rewrite Hr].
  - rewrite Hj'. simpl. rewrite Hj2. simpl.
    by rewrite <- !(assoc_L (++)).
  - simpl. rewrite !invocations_app, Hi2. simpl. by rewrite Hi', Hpl.
  - simpl. rewrite !completions_app, Hk2. simpl. by rewrite Hk'.
Qed.
End calm_callbacks.

Section lifetime_registry.
Context {TPayload TExn : Type}.
Implicit Types (s : Dispatcher TPayload TExn) (id : DispatchToken).

Lemma cycle_step_registry s s' : cycle_step s s' → registry_ok s → registry_ok s'.
Proof.
  destruct 1 as [id s Hp Hc|id s Hp|cb s|id s Hc|id s Hp Hc Hi]; try done.
  - intros Hok. by apply register_grown.
  - intros [Hnd Hnum]. split; simpl.
    + by apply obj_keys_delete_NoDup.
    + intros x. rewrite obj_get_delete. case_decide; [by intros [? [=]]|]. apply Hnum.
Qed.

Lemma reachable_registry s : reachable s → registry_ok s.
Proof.
  intros H. apply (evolves_preserves registry_ok) in H; [done|..].
  - apply cycle_step_registry.
  - intros payload s1. unfold registry_ok.
    by destruct (startDispatching_spec payload s1) as (->&_&->&_).
  - done.
  - split; [apply NoDup_nil_2|]. by intros id [? [=]].
Qed.

Lemma reachable_coherent s : reachable s → coherent s.
Proof.
  intros H. apply (evolves_preserves coherent) in H; [done|..].
  - apply cycle_step_coherent.
  - apply startDispatching_coherent.
  - done.
  - by intros id.
Qed.

(** Between calls from outside no dispatch is in progress. *)
Lemma reachable_not_dispatching s : reachable s → isDispatching s = false.
Proof.
  unfold reachable, isDispatching. induction 1 as [|c s1 s2 _ IH Hc]; [done|].
  destruct c as [cb|id|n ids|n payload]; simpl in Hc.
  - by injection Hc as <-.
  - unfold unregister in Hc. destruct (obj_truthy _ _); by injection Hc as <-.
  - unfold waitFor, waitFor_with in Hc. rewrite IH in Hc. by injection Hc as <-.
  - by destruct (dispatch_cycle n payload s1 s2 IH Hc) as (s3 & _ & ->).
Qed.

(** C5. Take any point of a dispatch started from a reachable state, with
    the call stack it has there.  When the callback of a token is invoked
    and throws, the token is left pending and not handled, with the dispatch
    still in progress; and from then on, as far as the cycle goes, whatever
    is run and whichever callbacks return or throw, a [waitFor] that reaches
    the token fails with [CircularDependencyError] for it: the callback is
    neither invoked again nor skipped. *)
Theorem failed_callback_stays_pending n payload s0 stk s id e s' :
  reachable s0 →
  rtc frame_step ([], _startDispatching payload s0) (stk, s) →
  truthy (_isPending s) id = false → obj_has (_callbacks s) id = true →
  _invokeCallback n id s = Throws e s' →
  truthy (_isPending s') id = true ∧ truthy (_isHandled s') id = false ∧
  isDispatching s' = true ∧
  ∀ f, rtc frame_step (stk, s') f →
    truthy (_isPending f.2) id = true ∧ truthy (_isHandled f.2) id = false ∧
    ∀ m ids, waitFor m (id :: ids) f.2 = Throws (CircularDependencyError id) f.2.
Proof.
  intros Hreach Hfr Hp Hc Hi.
  assert (stack_ok ([], _startDispatching payload s0)) as Hok0
    by (intros ? ?%elem_of_nil; done).
  destruct (frames_cycle _ _ Hok0 Hfr) as [Hcy Hok]. simpl in Hcy.
  apply (thrown_invocation_is_dead n id stk s e s');
    [| |exact Hok|exact Hp|exact Hc|exact Hi].
  - unfold isDispatching. apply cycle_frame in Hcy as [-> _]. apply startDispatching_spec.
  - eapply cycle_preserves; [apply cycle_step_coherent|exact Hcy|].
    by apply startDispatching_coherent, reachable_coherent.
Qed.

(** The keys of [_callbacks] are the registered tokens in registration
    order: [register] adds its token after all the others and [unregister]
    takes one out without moving the rest. *)
Lemma registration_order cb id s :
  reachable s →
  obj_keys (_callbacks (register cb s).2) = obj_keys (_callbacks s) ++ [(register cb s).1] ∧
  (∀ s', unregister id s = Returns s' →
         obj_keys (_callbacks s') = filter (λ id', id' ≠ id) (obj_keys (_callbacks s))).
Proof.
  intros [_ Hnum]%reachable_registry. split.
  - simpl. apply obj_keys_set_fresh.
    destruct (obj_get (_callbacks s) (_prefix +:+ pretty (_lastID s))) eqn:E; [|done].
    destruct (Hnum (_prefix +:+ pretty (_lastID s))) as (m & Hm & Heq); [by eauto|].
    apply token_inj in Heq. lia.
  - intros s'. unfold unregister. destruct (obj_truthy _ _); [|done].
    intros [= <-]. apply obj_keys_delete.
Qed.
(** C1 as the code has it.  When no registered callback calls [waitFor],
    [dispatch] or [unregister] and none throws, a dispatch with enough
    budget returns, having entered the callback of every registered token
    exactly once, with the dispatched payload, in registration order, and
    every callback having returned. *)
Theorem calm_callbacks_run_once_in_order payload s :
  reachable s →
  (∀ id cb, obj_get (_callbacks s) id = Some cb → calm (cb (Some payload))) →
  ∃ n, ∀ m, n ≤ m →
    ∃ s' j,
      dispatch m payload s = Returns s' ∧
      journal s' = journal s ++ j ∧
      invocations j = (λ id, (id, Some payload)) <$> obj_keys (_callbacks s) ∧
      completions j = obj_keys (_callbacks s) ∧
      NoDup (obj_keys (_callbacks s)).
Proof.
  intros Hreach Hcalm.
  pose proof (reachable_registry s Hreach) as Hok.
  pose proof (reachable_not_dispatching s Hreach) as Hd. unfold isDispatching in Hd.
  destruct (startDispatching_spec payload s) as (Hcb & Hdis & Hid & Hpl & Hj & Hp & Hh).
  destruct (calm_dispatch_loop payload (obj_keys (_callbacks s)) (proj1 Hok)
              (_startDispatching payload s)) as (n & s2 & j & Hloop & Hj2 & Hinv & Hcomp).
  { done. }
  { unfold registry_ok. by rewrite Hcb, Hid. }
  { intros id Hin. apply obj_get_keys in Hin as Hsome. destruct Hsome as [cb Hget].
    split.
    - unfold truthy. rewrite Hp. by rewrite (proj2 (obj_has_keys _ _) Hin).
    - exists cb. rewrite Hcb. eauto. }
  exists n. intros m Hle. exists (_stopDispatching s2), j.
  split_and!; [|by rewrite <- Hj, <- Hj2|done|done|by apply Hok].
  unfold dispatch, dispatch_with. rewrite Hd, Hcb.
  rewrite (dispatch_loop_le (run n)); [by rewrite Hloop| |by rewrite Hloop].
  intros p0 s0. by apply run_mono.
Qed.
End lifetime_registry.

(** ** Callbacks that only wait for one another *)

Section waiter_callbacks.
Context {TPayload TExn : Type}.
Implicit Types (s : Dispatcher TPayload TExn) (id t : DispatchToken).
Implicit Types (p : prog TPayload TExn).

Variable payload : TPayload.
Variable cbs : list (DispatchToken * callback TPayload TExn).
Hypothesis Hwaiters : waiters_only cbs payload.

Lemma cyclic_next c :
  cyclic cbs payload c → ∃ cb c', obj_get cbs c = Some cb ∧ c' ∈ waits (cb (Some payload)) ∧ cyclic cbs payload c'.
Proof.
  unfold cyclic. intros H.
  assert (∃ c', waits_on cbs payload c c' ∧ rtc (waits_on cbs payload) c' c)
    as (c' & Hstep & Hback).
  { inversion H as [? ? H1|? c' ? H1 H2]; subst.
    - exists c. split; [done|apply rtc_refl].
    - exists c'. split; [done|by apply tc_rtc]. }
  destruct Hstep as (cb & Hcb & Hin). exists cb, c'. split_and!; [done..|].
  eapply tc_rtc_l; [exact Hback|]. apply tc_once. by exists cb.
Qed.

Lemma settles_refl s : settles s s.
Proof. by unfold settles. Qed.

Lemma settles_trans s1 s2 s3 : settles s1 s2 → settles s2 s3 → settles s1 s3.
Proof.
  intros (Hp1 & Hh1 & Ho1) (Hp2 & Hh2 & Ho2). unfold settles. split_and!; [by auto..|].
  intros t Hp Hh. destruct (Ho2 t Hp Hh). by apply Ho1.
Qed.

Section calls_waiter.
Variable run : prog TPayload TExn → Dispatcher TPayload TExn → outcome TPayload TExn.
Hypothesis run_post : ∀ p s,
  waiter p → (∀ t, t ∈ waits p → obj_has cbs t = true) → during cbs payload s →
  waiter_post cbs payload s (waits p) (run p s).

Lemma waiter_invokeCallback id s :
  during cbs payload s → truthy (_isPending s) id = false → obj_has cbs id = true →
  match _invokeCallback_with run id s with
  | Returns s' =>
      during cbs payload s' ∧ settles s s' ∧ (blocked cbs payload s → blocked cbs payload s') ∧
      truthy (_isPending s') id = true ∧ truthy (_isHandled s') id = true
  | r => waiter_post cbs payload s [] r
  end.
Proof.
  intros (Hcb & Hd & Hpl) Hp Hc.
  apply obj_has_true in Hc as [cb Hget].
  destruct (Hwaiters id cb Hget) as [Hw Hreg].
  unfold _invokeCallback_with. simpl. rewrite Hcb, Hget, Hpl.
  set (s1 := record _ _).
  assert (during cbs payload s1) as Hdur1 by done.
  pose proof (run_post (cb (Some payload)) s1 Hw Hreg Hdur1) as Hpost.
  destruct (run _ s1) as [s2|e s2|]; simpl in *; [|done..].
  destruct Hpost as (Hdur2 & (Hp2 & Hh2 & Ho2) & Hb2 & Hneed).
  assert (truthy (_isPending s2) id = true) as Hpid.
  { apply Hp2. subst s1. simpl. rewrite truthy_insert. by rewrite decide_True. }
  split_and!.
  - done.
  - unfold settles. simpl. split_and!.
    + intros t Ht. apply Hp2. subst s1. simpl. rewrite truthy_insert.
      by case_decide.
    + intros t Ht. rewrite truthy_insert. case_decide; [done|]. by apply Hh2.
    + intros t. rewrite truthy_insert. case_decide as E; [done|]. intros Ht1 Ht2.
      destruct (Ho2 t Ht1 Ht2) as [Ht3 Ht4]. subst s1. simpl in *.
      rewrite truthy_insert in Ht3. by rewrite decide_False in Ht3 by done.
  - intros Hbl c Hcyc. simpl. rewrite truthy_insert. case_decide as E; [|by apply Hb2].
    subst c. exfalso.
    destruct (cyclic_next id Hcyc) as (cb' & c' & Hget' & Hin & Hcyc').
    assert (cb' = cb) as -> by congruence.
    specialize (Hneed c' Hin). by rewrite (Hb2 Hbl c' Hcyc') in Hneed.
  - done.
  - simpl. rewrite truthy_insert. by rewrite decide_True.
Qed.

Lemma waiter_waitFor_loop ids s :
  (∀ t, t ∈ ids → obj_has cbs t = true) → during cbs payload s →
  waiter_post cbs payload s ids (waitFor_loop run ids s).
Proof.
  revert s. induction ids as [|id ids IH]; intros s Hreg Hdur.
  { simpl. split_and!; [done|apply settles_refl|done|]. by intros t ?%elem_of_nil. }
  assert (∀ t, t ∈ ids → obj_has cbs t = true) as Hreg' by (intros; apply Hreg; by right).
  assert (obj_has cbs id = true) as Hc by (apply Hreg; by left).
  simpl. destruct (truthy (_isPending s) id) eqn:Hp.
  { destruct (truthy (_isHandled s) id) eqn:Hh.
    - specialize (IH s Hreg' Hdur).
      destruct (waitFor_loop run ids s) as [s'|e s'|]; simpl in *; [|done..].
      destruct IH as (Hdur' & Hset & Hbl & Hneed). split_and!; [done..|].
      intros t [->|Ht]%elem_of_cons; [|by apply Hneed]. by apply Hset.
    - simpl. eauto 10. }
  destruct Hdur as (Hcb & Hd & Hpl). rewrite Hcb, (obj_has_truthy _ _ Hc).
  pose proof (waiter_invokeCallback id s (conj Hcb (conj Hd Hpl)) Hp Hc) as Hinv.
  destruct (_invokeCallback_with run id s) as [s1|e s1|]; simpl in *; [|done..].
  destruct Hinv as (Hdur1 & Hset1 & Hbl1 & Hp1 & Hh1).
  specialize (IH s1 Hreg' Hdur1).
  destruct (waitFor_loop run ids s1) as [s'|e s'|]; simpl in *; [|done..].
  destruct IH as (Hdur' & Hset' & Hbl' & Hneed). split_and!.
  - done.
  - by eapply settles_trans.
  - by auto.
  - intros t [->|Ht]%elem_of_cons; [|by apply Hneed]. by apply Hset'.
Qed.

Lemma waiter_dispatch_loop ids s :
  (∀ t, t ∈ ids → obj_has cbs t = true) → during cbs payload s →
  (∀ t, obj_has cbs t = true → truthy (_isPending s) t = true →
        truthy (_isHandled s) t = true) →
  waiter_post cbs payload s ids (dispatch_loop run ids s).
Proof.
  revert s. induction ids as [|id ids IH]; intros s Hreg Hdur Hquiet.
  { simpl. split_and!; [done|apply settles_refl|done|]. by intros t ?%elem_of_nil. }
  assert (∀ t, t ∈ ids → obj_has cbs t = true) as Hreg' by (intros; apply Hreg; by right).
  assert (obj_has cbs id = true) as Hc by (apply Hreg; by left).
  assert (∀ s', settles s s' →
            ∀ t, obj_has cbs t = true → truthy (_isPending s') t = true →
                 truthy (_isHandled s') t = true) as Hquiet'.
  { intros s' (Hp' & Hh' & Ho') t Ht Hpt.
    destruct (truthy (_isHandled s') t) eqn:E; [done|].
    destruct (Ho' t Hpt E) as [H1 H2]. rewrite (Hquiet t Ht H1) in H2. done. }
  simpl. destruct Hdur as (Hcb & Hd & Hpl). rewrite Hcb, Hc.
  destruct (truthy (_isPending s) id) eqn:Hp.
  { specialize (IH s Hreg' (conj Hcb (conj Hd Hpl)) Hquiet).
    destruct (dispatch_loop run ids s) as [s'|e s'|]; simpl in *; [|done..].
    destruct IH as (Hdur' & Hset & Hbl & Hneed). split_and!; [done..|].
    intros t [->|Ht]%elem_of_cons; [|by apply Hneed]. apply Hset. by apply Hquiet. }
  pose proof (waiter_invokeCallback id s (conj Hcb (conj Hd Hpl)) Hp Hc) as Hinv.
  destruct (_invokeCallback_with run id s) as [s1|e s1|]; simpl in *; [|done..].
  destruct Hinv as (Hdur1 & Hset1 & Hbl1 & Hp1 & Hh1).
  specialize (IH s1 Hreg' Hdur1 (Hquiet' s1 Hset1)).
  destruct (dispatch_loop run ids s1) as [s'|e s'|]; simpl in *; [|done..].
  destruct IH as (Hdur' & Hset' & Hbl' & Hneed). split_and!.
  - done.
  - by eapply settles_trans.
  - by auto.
  - intros t [->|Ht]%elem_of_cons; [|by apply Hneed]. by apply Hset'.
Qed.
End calls_waiter.

Lemma waiter_run n p s :
  waiter p → (∀ t, t ∈ waits p → obj_has cbs t = true) → during cbs payload s →
  waiter_post cbs payload s (waits p) (run n p s).
Proof.
  revert p s. induction n as [|n IH]; intros p s Hw Hreg Hdur; simpl; [done|].
  destruct p as [|e|ids k|payload' k|cb k|id k|k|body handler k]; try done.
  - simpl. split_and!; [done|apply settles_refl|done|]. by intros t ?%elem_of_nil.
  - simpl in Hw, Hreg.
    assert (∀ t, t ∈ ids → obj_has cbs t = true) as Hreg1
      by (intros; apply Hreg, elem_of_app; by left).
    assert (∀ t, t ∈ waits k → obj_has cbs t = true) as Hreg2
      by (intros; apply Hreg, elem_of_app; by right).
    unfold waitFor_with. rewrite (proj1 (proj2 Hdur)).
    pose proof (waiter_waitFor_loop (run n) IH ids s Hreg1 Hdur) as Hloop.
    destruct (waitFor_loop (run n) ids s) as [s1|e s1|]; simpl in *; [|done..].
    destruct Hloop as (Hdur1 & Hset1 & Hbl1 & Hneed1).
    specialize (IH k s1 Hw Hreg2 Hdur1).
    destruct (run n k s1) as [s'|e s'|]; simpl in *; [|done..].
    destruct IH as (Hdur' & Hset' & Hbl' & Hneed'). split_and!.
    + done.
    + by eapply settles_trans.
    + by auto.
    + intros t [Ht|Ht]%elem_of_app; [|by apply Hneed']. by apply Hset', Hneed1.
Qed.

(** *** Every run finishes *)

Lemma filter_length_mono {A} (P Q : A → Prop) `{!∀ x, Decision (P x)}
    `{!∀ x, Decision (Q x)} (l : list A) :
  (∀ x, x ∈ l → Q x → P x) → length (filter Q l) ≤ length (filter P l).
Proof.
  induction l as [|x l IH]; intros Himp; [done|]. rewrite !filter_cons.
  assert (length (filter Q l) ≤ length (filter P l))
    by (apply IH; intros; apply Himp; [by right|done]).
  destruct (decide (Q x)) as [Hq|Hq].
  - rewrite decide_True by (apply Himp; [by left|done]). simpl. lia.
  - destruct (decide (P x)); simpl; lia.
Qed.

Lemma filter_length_lt {A} (P Q : A → Prop) `{!∀ x, Decision (P x)}
    `{!∀ x, Decision (Q x)} (l : list A) x :
  x ∈ l → P x → ¬ Q x → (∀ y, y ∈ l → Q y → P y) →
  length (filter Q l) < length (filter P l).
Proof.
  induction l as [|y l IH]; intros Hin Hp Hq Himp; [by apply elem_of_nil in Hin|].
  rewrite !filter_cons.
  assert (length (filter Q l) ≤ length (filter P l))
    by (apply filter_length_mono; intros; apply Himp; [by right|done]).
  apply elem_of_cons in Hin as [<-|Hin].
  - destruct (decide (Q x)); [done|]. destruct (decide (P x)); [|done]. simpl. lia.
  - assert (length (filter Q l) < length (filter P l))
      by (apply IH; [done..|]; intros; apply Himp; [by right|done]).
    destruct (decide (Q y)) as [Hqy|Hqy].
    + rewrite decide_True by (apply Himp; [by left|done]). simpl. lia.
    + destruct (decide (P y)); simpl; lia.
Qed.

Lemma settles_unentered s s' : settles s s' → unentered cbs s' ≤ unentered cbs s.
Proof.
  intros (Hp & _ & _). apply filter_length_mono. intros t _ Ht.
  destruct (truthy (_isPending s) t) eqn:E; [|done]. apply Hp in E. congruence.
Qed.

Lemma enter_unentered id s :
  obj_has cbs id = true → truthy (_isPending s) id = false →
  unentered cbs (record (mark_pending id s) (Invoked id (_pendingPayload s)))
    < unentered cbs s.
Proof.
  intros Hc%obj_has_keys Hp. apply (filter_length_lt _ _ _ id); [done..| |]; simpl.
  - rewrite truthy_insert. by rewrite decide_True.
  - intros t _. rewrite truthy_insert. by case_decide.
Qed.

Lemma obj_get_elem_of {V} (o : list (string * V)) k v : obj_get o k = Some v → (k, v) ∈ o.
Proof.
  induction o as [|[k' v'] o IH]; simpl; [done|]. case_decide.
  - intros [= ->]. subst. by left.
  - intros. right. by apply IH.
Qed.

Lemma depth_le_max id cb :
  obj_get cbs id = Some cb → depth (cb (Some payload)) ≤ max_depth cbs payload.
Proof.
  intros Hin%obj_get_elem_of. unfold max_depth. apply max_list_elem_of_le.
  apply list_elem_of_fmap. by exists (id, cb).
Qed.

Section budgeted_calls.
Variable run : prog TPayload TExn → Dispatcher TPayload TExn → outcome TPayload TExn.
Variable N : nat.
Hypothesis run_post : ∀ p s,
  waiter p → (∀ t, t ∈ waits p → obj_has cbs t = true) → during cbs payload s →
  waiter_post cbs payload s (waits p) (run p s).
Hypothesis run_finishes : ∀ p s,
  waiter p → (∀ t, t ∈ waits p → obj_has cbs t = true) → during cbs payload s →
  depth p + unentered cbs s * max_depth cbs payload ≤ N →
  run p s ≠ OutOfBudget.

Lemma waiter_invokeCallback_finishes id s :
  during cbs payload s → truthy (_isPending s) id = false → obj_has cbs id = true →
  unentered cbs s * max_depth cbs payload ≤ N →
  _invokeCallback_with run id s ≠ OutOfBudget.
Proof.
  intros (Hcb & Hd & Hpl) Hp Hc HN.
  pose proof (enter_unentered id s Hc Hp) as Hlt.
  apply obj_has_true in Hc as [cb Hget].
  destruct (Hwaiters id cb Hget) as [Hw Hreg].
  pose proof (depth_le_max id cb Hget) as Hdepth.
  unfold _invokeCallback_with. simpl. rewrite Hcb, Hget, Hpl.
  rewrite Hpl in Hlt. unfold mark_pending in Hlt.
  set (s1 := record _ _) in *.
  assert (run (cb (Some payload)) s1 ≠ OutOfBudget) as Hfin.
  { apply run_finishes; [done..|]. nia. }
  by destruct (run _ s1).
Qed.

Lemma waiter_waitFor_loop_finishes ids s :
  (∀ t, t ∈ ids → obj_has cbs t = true) → during cbs payload s →
  unentered cbs s * max_depth cbs payload ≤ N →
  waitFor_loop run ids s ≠ OutOfBudget.
Proof.
  revert s. induction ids as [|id ids IH]; intros s Hreg Hdur HN; [done|].
  assert (∀ t, t ∈ ids → obj_has cbs t = true) as Hreg' by (intros; apply Hreg; by right).
  assert (obj_has cbs id = true) as Hc by (apply Hreg; by left).
  simpl. destruct (truthy (_isPending s) id) eqn:Hp.
  { destruct (truthy (_isHandled s) id); [by apply IH|done]. }
  destruct Hdur as (Hcb & Hd & Hpl). rewrite Hcb, (obj_has_truthy _ _ Hc).
  pose proof (waiter_invokeCallback run run_post id s (conj Hcb (conj Hd Hpl)) Hp Hc) as Hinv.
  pose proof (waiter_invokeCallback_finishes id s (conj Hcb (conj Hd Hpl)) Hp Hc HN) as Hfin.
  destruct (_invokeCallback_with run id s) as [s1|e s1|]; simpl in *; [|done..].
  destruct Hinv as (Hdur1 & Hset1 & _). apply IH; [done..|].
  apply settles_unentered in Hset1. nia.
Qed.

Lemma waiter_dispatch_loop_finishes ids s :
  (∀ t, t ∈ ids → obj_has cbs t = true) → during cbs payload s →
  unentered cbs s * max_depth cbs payload ≤ N →
  dispatch_loop run ids s ≠ OutOfBudget.
Proof.
  revert s. induction ids as [|id ids IH]; intros s Hreg Hdur HN; [done|].
  assert (∀ t, t ∈ ids → obj_has cbs t = true) as Hreg' by (intros; apply Hreg; by right).
  assert (obj_has cbs id = true) as Hc by (apply Hreg; by left).
  simpl. destruct Hdur as (Hcb & Hd & Hpl). rewrite Hcb, Hc.
  destruct (truthy (_isPending s) id) eqn:Hp; [by apply IH|].
  pose proof (waiter_invokeCallback run run_post id s (conj Hcb (conj Hd Hpl)) Hp Hc) as Hinv.
  pose proof (waiter_invokeCallback_finishes id s (conj Hcb (conj Hd Hpl)) Hp Hc HN) as Hfin.
  destruct (_invokeCallback_with run id s) as [s1|e s1|]; simpl in *; [|done..].
  destruct Hinv as (Hdur1 & Hset1 & _). apply IH; [done..|].
  apply settles_unentered in Hset1. nia.
Qed.
End budgeted_calls.

Lemma waiter_run_finishes n p s :
  waiter p → (∀ t, t ∈ waits p → obj_has cbs t = true) → during cbs payload s →
  depth p + unentered cbs s * max_depth cbs payload ≤ n →
  run n p s ≠ OutOfBudget.
Proof.
  revert p s. induction n as [|n IH]; intros p s Hw Hreg Hdur Hn.
  { destruct p; simpl in *; lia. }
  destruct p as [|e|ids k|payload' k|cb k|id k|k|body handler k]; try done.
  simpl in Hw, Hreg, Hn.
  assert (∀ t, t ∈ ids → obj_has cbs t = true) as Hreg1
    by (intros; apply Hreg, elem_of_app; by left).
  assert (∀ t, t ∈ waits k → obj_has cbs t = true) as Hreg2
    by (intros; apply Hreg, elem_of_app; by right).
  simpl. unfold waitFor_with. rewrite (proj1 (proj2 Hdur)).
  pose proof (waiter_waitFor_loop (run n) (waiter_run n) ids s Hreg1 Hdur) as Hloop.
  pose proof (waiter_waitFor_loop_finishes (run n) n (waiter_run n) IH ids s Hreg1 Hdur)
    as Hfin.
  destruct (waitFor_loop (run n) ids s) as [s1|e s1|]; simpl in *; [|done|apply Hfin; lia].
  destruct Hloop as (Hdur1 & Hset1 & _). apply IH; [done..|].
  apply settles_unentered in Hset1. nia.
Qed.
End waiter_callbacks.

(** ** What a dispatch leaves alone *)

Section registry_frame.
Context {TPayload TExn : Type}.
Implicit Types (s : Dispatcher TPayload TExn) (id t : DispatchToken).
Implicit Types (p : prog TPayload TExn).

Variable payload : TPayload.
Variable cbs : list (DispatchToken * callback TPayload TExn).
Hypothesis Hquiet : ∀ id cb, obj_get cbs id = Some cb → leaves_registry (cb (Some payload)).

Section calls_quiet.
Variable run : prog TPayload TExn → Dispatcher TPayload TExn → outcome TPayload TExn.
Hypothesis run_keeps : ∀ p s s',
  leaves_registry p → during cbs payload s → state_of (run p s) = Some s' →
  during cbs payload s' ∧ _lastID s' = _lastID s.

Lemma quiet_invokeCallback id s s' :
  during cbs payload s → state_of (_invokeCallback_with run id s) = Some s' →
  during cbs payload s' ∧ _lastID s' = _lastID s.
Proof.
  intros (Hcb & Hd & Hpl). unfold _invokeCallback_with. simpl. rewrite Hcb, Hpl.
  destruct (obj_get cbs id) as [cb|] eqn:Hget; simpl; [|by intros [= <-]].
  set (s1 := record _ _).
  assert (during cbs payload s1) as Hdur1 by done.
  pose proof (run_keeps (cb (Some payload)) s1) as Hrun.
  destruct (run _ s1) as [s2|e s2|]; simpl; [| |done]; intros [= <-];
    destruct (Hrun s2 (Hquiet id cb Hget) Hdur1 eq_refl) as [Hdur2 Hid]; done.
Qed.

Lemma quiet_waitFor_loop ids s s' :
  during cbs payload s → state_of (waitFor_loop run ids s) = Some s' →
  during cbs payload s' ∧ _lastID s' = _lastID s.
Proof.
  revert s. induction ids as [|id ids IH]; intros s Hdur; simpl.
  { by intros [= <-]. }
  destruct (truthy (_isPending s) id).
  { destruct (truthy (_isHandled s) id); [by apply IH|]. by intros [= <-]. }
  destruct (obj_truthy (_callbacks s) id); [|by intros [= <-]].
  pose proof (quiet_invokeCallback id s) as Hinv.
  destruct (_invokeCallback_with run id s) as [s1|e s1|]; simpl; [| |done].
  - destruct (Hinv s1 Hdur eq_refl) as [Hdur1 Hid1]. intros Hr.
    destruct (IH s1 Hdur1 Hr) as [Hdur' Hid']. split; [done|congruence].
  - intros [= <-]. by apply Hinv.
Qed.

Lemma quiet_dispatch_loop ids s s' :
  during cbs payload s → state_of (dispatch_loop run ids s) = Some s' →
  during cbs payload s' ∧ _lastID s' = _lastID s.
Proof.
  revert s. induction ids as [|id ids IH]; intros s Hdur; simpl.
  { by intros [= <-]. }
  destruct (obj_has (_callbacks s) id); [|by apply IH].
  destruct (truthy (_isPending s) id); [by apply IH|].
  pose proof (quiet_invokeCallback id s) as Hinv.
  destruct (_invokeCallback_with run id s) as [s1|e s1|]; simpl; [| |done].
  - destruct (Hinv s1 Hdur eq_refl) as [Hdur1 Hid1]. intros Hr.
    destruct (IH s1 Hdur1 Hr) as [Hdur' Hid']. split; [done|congruence].
  - intros [= <-]. by apply Hinv.
Qed.
End calls_quiet.

Lemma quiet_run n p s s' :
  leaves_registry p → during cbs payload s → state_of (run n p s) = Some s' →
  during cbs payload s' ∧ _lastID s' = _lastID s.
Proof.
  revert p s s'. induction n as [|n IH]; intros p s s' Hp Hdur; simpl; [done|].
  destruct p as [|e|ids k|payload' k|cb k|id k|k|body handler k]; simpl in Hp; try done.
  - by intros [= <-].
  - by intros [= <-].
  - unfold waitFor_with. rewrite (proj1 (proj2 Hdur)).
    pose proof (quiet_waitFor_loop (run n) (IH) ids s) as Hloop.
    destruct (waitFor_loop (run n) ids s) as [s1|e s1|]; simpl; [| |done].
    + destruct (Hloop s1 Hdur eq_refl) as [Hdur1 Hid1]. intros Hr.
      destruct (IH k s1 s' Hp Hdur1 Hr) as [Hdur' Hid']. split; [done|congruence].
    + intros [= <-]. by apply Hloop.
  - unfold dispatch_with. rewrite (proj1 (proj2 Hdur)). simpl. by intros [= <-].
  - apply IH; [apply Hp|done].
  - destruct Hp as (Hb & Hh & Hk). pose proof (IH body s) as Hbody.
    destruct (run n body s) as [s1|e s1|]; [| |done].
    + destruct (Hbody s1 Hb Hdur eq_refl) as [Hdur1 Hid1]. intros Hr.
      destruct (IH k s1 s' Hk Hdur1 Hr) as [Hdur' Hid']. split; [done|congruence].
    + destruct (Hbody s1 Hb Hdur eq_refl) as [Hdur1 Hid1].
      pose proof (IH (handler e) s1) as Hhandler.
      destruct (run n (handler e) s1) as [s2|e2 s2|]; simpl; [| |done].
      * destruct (Hhandler s2 (Hh e) Hdur1 eq_refl) as [Hdur2 Hid2]. intros Hr.
        destruct (IH k s2 s' Hk Hdur2 Hr) as [Hdur' Hid']. split; [done|congruence].
      * intros [= <-]. destruct (Hhandler s2 (Hh e) Hdur1 eq_refl) as [Hdur2 Hid2].
        split; [done|congruence].
Qed.
End registry_frame.

Lemma waiter_leaves_registry {TPayload TExn : Type} (p : prog TPayload TExn) :
  waiter p → leaves_registry p.
Proof. induction p; simpl; try done. Qed.

Section registry_frame_dispatch.
Context {TPayload TExn : Type}.
Implicit Types (s : Dispatcher TPayload TExn) (id t : DispatchToken).

(** X11. A dispatch registers and unregisters nothing by itself: when no
    registered callback calls [register] or [unregister] on the dispatched
    payload, the registry and the token counter are after the dispatch what
    they were before it, whether the dispatch returns or throws and
    whatever else the callbacks do: wait, dispatch, ask [isDispatching],
    throw, catch. *)
Theorem dispatch_leaves_the_registry n payload s s' :
  isDispatching s = false →
  (∀ id cb, obj_get (_callbacks s) id = Some cb → leaves_registry (cb (Some payload))) →
  state_of (dispatch n payload s) = Some s' →
  _callbacks s' = _callbacks s ∧ _lastID s' = _lastID s.
Proof.
  unfold isDispatching. intros Hd Hquiet.
  destruct (startDispatching_spec payload s) as (Hcb & Hdis & Hid & Hpl & _).
  unfold dispatch, dispatch_with. rewrite Hd.
  set (s1 := _startDispatching payload s) in *.
  assert (during (_callbacks s) payload s1) as Hdur by done.
  pose proof (quiet_dispatch_loop payload (_callbacks s) Hquiet (run n)
                (quiet_run payload (_callbacks s) Hquiet n)
                (obj_keys (_callbacks s1)) s1) as Hloop.
  destruct (dispatch_loop (run n) (obj_keys (_callbacks s1)) s1) as [s2|e s2|];
    simpl; [| |done]; intros [= <-];
    destruct (Hloop s2 Hdur eq_refl) as [(Hcb2 & _) Hid2]; simpl; split; congruence.
Qed.
End registry_frame_dispatch.

Section circular_waits.
Context {TPayload TExn : Type}.
Implicit Types (s : Dispatcher TPayload TExn) (id t : DispatchToken).

(** C2 as the code has it.  When the body of every registered callback is
    a sequence of [waitFor] calls on registered tokens, and A waits for B
    and B waits for A, each directly or through a chain of callbacks, a
    dispatch with enough budget throws [CircularDependencyError] for a
    token whose callback this dispatch entered and which has not returned:
    its invocation is open on the call stack when the error is raised.
    The dispatch is no longer in progress afterwards. *)
Theorem circular_wait_is_rejected payload s A B :
  isDispatching s = false →
  waiters_only (_callbacks s) payload →
  tc (waits_on (_callbacks s) payload) A B →
  tc (waits_on (_callbacks s) payload) B A →
  ∃ n, ∀ m, n ≤ m →
    ∃ t s' j,
      dispatch m payload s = Throws (CircularDependencyError t) s' ∧
      journal s' = journal s ++ j ∧
      open_in j t ∧
      isDispatching s' = false.
Proof.
  unfold isDispatching. intros Hd Hwaiters HAB HBA.
  set (cbs := _callbacks s) in *.
  assert (cyclic cbs payload A) as HA by (unfold cyclic; by etrans).
  destruct (cyclic_next payload cbs A HA) as (cbA & _ & HgetA & _).
  destruct (startDispatching_spec payload s) as (Hcb & Hdis & Hid & Hpl & Hj & Hp & Hh).
  set (s1 := _startDispatching payload s) in *.
  assert (during cbs payload s1) as Hdur by done.
  assert (∀ t, obj_has cbs t = true → truthy (_isPending s1) t = false) as Hfresh.
  { intros t Ht. unfold truthy. rewrite Hp. fold cbs. by rewrite Ht. }
  assert (∀ t, t ∈ obj_keys cbs → obj_has cbs t = true) as Hreg
    by (intros t; apply obj_has_keys).
  exists (unentered cbs s1 * max_depth cbs payload). intros m Hm.
  pose proof (waiter_dispatch_loop payload cbs Hwaiters (run m)
                (waiter_run payload cbs Hwaiters m) (obj_keys cbs) s1 Hreg Hdur) as Hpost.
  assert (∀ t, obj_has cbs t = true → truthy (_isPending s1) t = true →
               truthy (_isHandled s1) t = true) as Hquiet.
  { intros t Ht Hpt. by rewrite Hfresh in Hpt. }
  specialize (Hpost Hquiet).
  pose proof (waiter_dispatch_loop_finishes payload cbs Hwaiters (run m) m
                (waiter_run payload cbs Hwaiters m)
                (waiter_run_finishes payload cbs Hwaiters m)
                (obj_keys cbs) s1 Hreg Hdur Hm) as Hfin.
  unfold dispatch, dispatch_with. rewrite Hd. fold s1. rewrite Hcb. fold cbs.
  destruct (dispatch_loop (run m) (obj_keys cbs) s1) as [s2|e s2|] eqn:Hloop; [|clear Hfin|done].
  - exfalso. destruct Hpost as (_ & _ & Hbl & Hneed).
    assert (obj_has cbs A = true) as HregA by (apply obj_has_true; eauto).
    assert (blocked cbs payload s1) as Hbl1.
    { intros c Hc. destruct (cyclic_next payload cbs c Hc) as (cb & _ & Hget & _).
      unfold truthy. rewrite Hh. fold cbs.
      by rewrite (proj2 (obj_has_true cbs c)) by eauto. }
    specialize (Hneed A (proj1 (obj_has_keys _ _) HregA)).
    by rewrite (Hbl Hbl1 A HA) in Hneed.
  - destruct Hpost as (t & -> & Hregt & Hpt & Hht).
    assert (rtc cycle_step s1 s2) as Hcy
      by (apply (dispatch_loop_cycle m (obj_keys cbs)); [done|by rewrite Hloop]).
    apply cycle_accounted in Hcy as (j & Hj2 & _ & _ & _ & Hpend & Hhand & _).
    assert (_callbacks s2 = cbs) as Hcb2.
    { assert (∀ id cb, obj_get cbs id = Some cb → leaves_registry (cb (Some payload)))
        as Hquiet' by (intros id cb Hget; by apply waiter_leaves_registry, (Hwaiters id)).
      destruct (quiet_dispatch_loop payload cbs Hquiet' (run m)
                  (quiet_run payload cbs Hquiet' m) (obj_keys cbs) s1 s2 Hdur)
        as [[? _] _]; [by rewrite Hloop|done]. }
    exists t, (_stopDispatching s2), j. simpl. split_and!; [done|congruence| |done].
    split.
    + destruct (Hpend t Hpt) as [Hpt'|[?|[_ Hno]]]; [|done|].
      * by rewrite Hfresh in Hpt'.
      * rewrite Hcb2 in Hno. congruence.
    + intros Hin. assert (truthy (_isHandled s2) t = true) by (apply Hhand; by right).
      congruence.
Qed.
End circular_waits.

(** ** The registry over the lifetime of a dispatcher *)

Section registry_facts.
Context {TPayload TExn : Type}.
Implicit Types (s : Dispatcher TPayload TExn) (id t : DispatchToken).
Implicit Types (j : list (event TPayload)).

Lemma obj_delete_set_fresh {V} (o : list (string * V)) k v :
  obj_get o k = None → obj_delete (obj_set o k v) k = o.
Proof.
  induction o as [|[k' v'] o IH]; simpl.
  - by rewrite decide_True.
  - case_decide as Hk; [done|]. intros Hg. simpl. rewrite decide_False by done.
    by rewrite IH.
Qed.


Lemma minted_snoc j e :
  minted (j ++ [e]) = match e with Minted id => minted j ++ [id] | _ => minted j end.
Proof. rewrite minted_app. destruct e; simpl; by rewrite ?app_nil_r. Qed.

Lemma invocations_snoc j e :
  invocations (j ++ [e])
    = match e with Invoked id p => invocations j ++ [(id, p)] | _ => invocations j end.
Proof. rewrite invocations_app. destruct e; simpl; by rewrite ?app_nil_r. Qed.

Lemma completions_snoc j e :
  completions (j ++ [e])
    = match e with Completed id => completions j ++ [id] | _ => completions j end.
Proof. rewrite completions_app. destruct e; simpl; by rewrite ?app_nil_r. Qed.

(** The token the next [register] returns is not registered. *)
Lemma next_token_fresh s :
  registry_ok s → obj_get (_callbacks s) (_prefix +:+ pretty (_lastID s)) = None.
Proof.
  intros [_ Hnum].
  destruct (obj_get (_callbacks s) (_prefix +:+ pretty (_lastID s))) eqn:E; [|done].
  destruct (Hnum (_prefix +:+ pretty (_lastID s))) as (m & Hm & Heq); [by eauto|].
  apply token_inj in Heq. lia.
Qed.

Lemma cycle_step_retired id s s' : cycle_step s s' → retired id s → retired id s'.
Proof.
  destruct 1 as [id' s Hp Hc|id' s Hp|cb s|id' s Hc|id' s Hp Hc Hi]; try done.
  - intros [Hno Hwhy]. split; simpl.
    + rewrite obj_has_set. case_decide as Heq; [|done].
      destruct Hwhy as [Hin|(m & Hm & ->)].
      * subst id. by rewrite token_not_inherited in Hin.
      * apply token_inj in Heq. lia.
    + destruct Hwhy as [?|(m & Hm & ->)]; [by left|]. right. exists m. split; [lia|done].
  - intros [Hno Hnum]. split; simpl; [|done].
    rewrite obj_has_delete. by case_decide.
Qed.

Lemma cycle_retired id s s' : rtc cycle_step s s' → retired id s → retired id s'.
Proof. induction 1; eauto using cycle_step_retired. Qed.

Lemma startDispatching_retired id payload s :
  retired id s → retired id (_startDispatching payload s).
Proof.
  unfold retired. by destruct (startDispatching_spec payload s) as (->&_&->&_).
Qed.

Lemma cycle_step_sourced s0 s s' j :
  cycle_step s s' → _pendingPayload s = _pendingPayload s0 →
  sourced s0 s j → ∃ j', sourced s0 s' j'.
Proof.
  intros Hstep Hpl (Hj & Hreg & Hinv).
  destruct Hstep as [id s Hp Hc|id s Hp|cb s|id s Hc|id s Hp Hc Hi].
  - exists (j ++ [Invoked id (_pendingPayload s)]).
    unfold sourced. rewrite minted_snoc, invocations_snoc. split_and!; simpl.
    + by rewrite Hj, <- app_assoc.
    + done.
    + intros t p [Hin|[= -> ->]%list_elem_of_singleton]%elem_of_app; auto.
  - exists (j ++ [Completed id]).
    unfold sourced. rewrite minted_snoc, invocations_snoc. split_and!; simpl; [|done..].
    by rewrite Hj, <- app_assoc.
  - exists (j ++ [Minted (_prefix +:+ pretty (_lastID s))]).
    unfold sourced. rewrite minted_snoc, invocations_snoc. split_and!; simpl.
    + by rewrite Hj, <- app_assoc.
    + intros t. rewrite obj_has_set, elem_of_app.
      case_decide as Heq; [subst; intros _; right; right; by apply list_elem_of_singleton|].
      intros [?|?]%Hreg; auto.
    + intros t p. rewrite elem_of_app. intros [-> [?|?]]%Hinv; auto.
  - exists j. split_and!; simpl; [done| |done].
    intros t. rewrite obj_has_delete. case_decide; [done|]. apply Hreg.
  - by exists j.
Qed.

Lemma cycle_sourced s0 s :
  rtc cycle_step s0 s → ∃ j, sourced s0 s j.
Proof.
  intros H. apply (rtc_ind_r (λ s, rtc cycle_step s0 s ∧ ∃ j, sourced s0 s j)) in H;
    [by destruct H| |].
  - split; [done|]. exists []. split_and!.
    + by rewrite app_nil_r.
    + auto.
    + intros id p ?%elem_of_nil. done.
  - intros s1 s2 _ Hstep [Hcy [j Hs]]. split; [by eapply rtc_r|].
    apply (cycle_step_sourced s0 s1 s2 j); [done| |done].
    by apply cycle_frame in Hcy as [_ ->].
Qed.

(** X1. Whatever the callbacks do, every callback entered in the course of a
    dispatch, by the loop of [dispatch] or through [waitFor], receives the
    dispatched payload, and was registered when the dispatch started or has
    been registered in its course. *)
Theorem dispatch_hands_the_payload_to_registered_callbacks n payload s s' :
  isDispatching s = false →
  state_of (dispatch n payload s) = Some s' →
  ∃ j, journal s' = journal s ++ j ∧
       ∀ id p, (id, p) ∈ invocations j →
         p = Some payload ∧ (obj_has (_callbacks s) id = true ∨ id ∈ minted j).
Proof.
  intros Hd Hr. destruct (dispatch_cycle n payload s s' Hd Hr) as (s2 & Hcy & ->).
  destruct (cycle_sourced _ _ Hcy) as (j & Hj & _ & Hinv).
  destruct (startDispatching_spec payload s) as (Hcb & _ & _ & Hpl & Hj0 & _).
  exists j. split; [simpl; by rewrite Hj, Hj0|].
  intros id p Hin. apply Hinv in Hin. by rewrite Hpl, Hcb in Hin.
Qed.

(** The journal of the calls made after [s1], with no entry of [id]. *)
Lemma retired_never_entered id s1 s2 :
  evolves s1 s2 → retired id s1 →
  retired id s2 ∧ ∃ j, journal s2 = journal s1 ++ j ∧ id ∉ (invocations j).*1.
Proof.
  intros Hev Hret.
  apply (evolves_preserves
    (λ s, retired id s ∧ ∃ j, journal s = journal s1 ++ j ∧ id ∉ (invocations j).*1)) in Hev;
    [done|..].
  - intros s s' Hstep [Hr (j & Hj & Hno)]. split; [by eapply cycle_step_retired|].
    destruct Hstep as [id' s Hp Hc|id' s Hp|cb s|id' s Hc|id' s Hp Hc Hi]; simpl.
    + exists (j ++ [Invoked id' (_pendingPayload s)]). split; [by rewrite Hj, <- app_assoc|].
      rewrite invocations_snoc, fmap_app. simpl.
      intros [?|Heq%list_elem_of_singleton]%elem_of_app; [done|]. subst id'.
      destruct Hr as [Hr _]. congruence.
    + exists (j ++ [Completed id']). split; [by rewrite Hj, <- app_assoc|].
      by rewrite invocations_snoc.
    + exists (j ++ [Minted (_prefix +:+ pretty (_lastID s))]).
      split; [by rewrite Hj, <- app_assoc|].
      by rewrite invocations_snoc.
    + by exists j.
    + by exists j.
  - intros payload s [Hr (j & Hj & Hno)]. split; [by apply startDispatching_retired|].
    exists j. split; [|done].
    by destruct (startDispatching_spec payload s) as (_&_&_&_&->&_).
  - intros s [Hr Hj]. done.
  - split; [done|]. exists []. split; [by rewrite app_nil_r|]. by intros ?%elem_of_nil.
Qed.

(** X2. Once [unregister] has removed a callback, the callback is never
    entered again: not by any later dispatch, not through [waitFor], and
    whatever is registered or unregistered afterwards. *)
Theorem unregistered_callback_is_never_invoked id s s1 s2 :
  reachable s →
  unregister id s = Returns s1 →
  evolves s1 s2 →
  obj_has (_callbacks s2) id = false ∧
  ∃ j, journal s2 = journal s1 ++ j ∧ id ∉ (invocations j).*1.
Proof.
  intros [Hnd Hnum]%reachable_registry Hun Hev.
  unfold unregister in Hun. destruct (obj_truthy (_callbacks s) id) eqn:Ht; [|done].
  injection Hun as <-.
  destruct (retired_never_entered id _ s2 Hev) as [[Hno _] Hj]; [|done].
  split; simpl.
  - rewrite obj_has_delete. by rewrite decide_True.
  - apply obj_truthy_true in Ht as [Hc|Hi]; [|by left].
    right. apply Hnum. by apply obj_has_true.
Qed.

(** X3. [register] on a dispatcher in use returns a token that was not
    registered, stores the callback under it after all the others and
    leaves the other callbacks as they were; [unregister] of that token
    then succeeds and restores the registry. *)
Theorem register_then_unregister cb s :
  reachable s →
  obj_has (_callbacks s) (register cb s).1 = false ∧
  obj_get (_callbacks (register cb s).2) (register cb s).1 = Some cb ∧
  (∀ id, id ≠ (register cb s).1 →
         obj_get (_callbacks (register cb s).2) id = obj_get (_callbacks s) id) ∧
  obj_keys (_callbacks (register cb s).2) = obj_keys (_callbacks s) ++ [(register cb s).1] ∧
  ∃ s2, unregister (register cb s).1 (register cb s).2 = Returns s2 ∧
        _callbacks s2 = _callbacks s.
Proof.
  intros Hfresh%reachable_registry%next_token_fresh. simpl.
  split_and!.
  - by apply obj_has_false.
  - rewrite obj_get_set. by rewrite decide_True.
  - intros id' Hne. rewrite obj_get_set. by rewrite decide_False.
  - by apply obj_keys_set_fresh.
  - unfold unregister, obj_truthy. simpl. rewrite obj_has_set, decide_True by done.
    eexists. split; [done|]. simpl. by apply obj_delete_set_fresh.
Qed.

(** X4. At every time between calls the registry lists tokens that
    [register] handed out, each once, in the order in which they were
    handed out: no sequence of registrations, removals and dispatches
    reorders the callbacks. *)
Theorem registry_keeps_registration_order s :
  reachable s →
  NoDup (obj_keys (_callbacks s)) ∧
  sublist (obj_keys (_callbacks s)) (minted (journal s)).
Proof.
  intros H.
  apply (evolves_preserves
    (λ s, registry_ok s ∧ sublist (obj_keys (_callbacks s)) (minted (journal s)))) in H.
  - by destruct H as [[? _] ?].
  - intros s1 s2 Hstep [Hok Hsub]. split; [by eapply cycle_step_registry|].
    destruct Hstep as [id s1 Hp Hc|id s1 Hp|cb s1|id s1 Hc|id s1 Hp Hc Hi]; simpl;
      rewrite ?minted_snoc; try done.
    + rewrite obj_keys_set_fresh by by apply next_token_fresh.
      by apply sublist_app.
    + rewrite obj_keys_delete. etrans; [apply sublist_filter|done].
  - intros payload s1. unfold registry_ok.
    by destruct (startDispatching_spec payload s1) as (->&_&->&_&->&_).
  - done.
  - split; [|done]. split; [apply NoDup_nil_2|]. by intros id [? [=]].
Qed.
(** X5. The tokens are [ID_1], [ID_2], ... in the order in which [register]
    handed them out, by callers outside and by callbacks alike: at every
    time between calls the journal of minted tokens is that list, up to the
    counter. *)
Theorem tokens_are_numbered_in_order s :
  reachable s →
  minted (journal s)
    = (λ n, _prefix +:+ pretty (N.of_nat n)) <$> seq 1 (N.to_nat (_lastID s) - 1).
Proof.
  intros H.
  apply (evolves_preserves (λ s,
    (1 ≤ _lastID s)%N ∧
    minted (journal s)
      = (λ n, _prefix +:+ pretty (N.of_nat n)) <$> seq 1 (N.to_nat (_lastID s) - 1))) in H.
  - by destruct H.
  - intros s1 s2 Hstep [Hle Hm].
    destruct Hstep as [id s1 Hp Hc|id s1 Hp|cb s1|id s1 Hc|id s1 Hp Hc Hi]; simpl;
      rewrite ?minted_snoc; try done.
    split; [lia|]. rewrite Hm.
    replace (N.to_nat (_lastID s1 + 1) - 1) with (S (N.to_nat (_lastID s1) - 1)) by lia.
    rewrite seq_S, fmap_app. simpl. do 3 f_equal.
    replace (S (N.to_nat (_lastID s1) - 1)) with (N.to_nat (_lastID s1)) by lia.
    by rewrite N2Nat.id.
  - intros payload s1.
    by destruct (startDispatching_spec payload s1) as (_&_&->&_&->&_).
  - done.
  - done.
Qed.
End registry_facts.

Section idle.
Context {TPayload TExn : Type}.
Implicit Types (s : Dispatcher TPayload TExn) (id t : DispatchToken).

Lemma reachable_no_payload s : reachable s → _pendingPayload s = None.
Proof.
  unfold reachable. induction 1 as [|c s1 s2 Hev IH Hc]; [done|].
  pose proof (reachable_not_dispatching s1 Hev) as Hd. unfold isDispatching in Hd.
  destruct c as [cb|id|n ids|n payload]; simpl in Hc.
  - by injection Hc as <-.
  - unfold unregister in Hc. destruct (obj_truthy _ _); by injection Hc as <-.
  - unfold waitFor, waitFor_with in Hc. rewrite Hd in Hc. by injection Hc as <-.
  - by destruct (dispatch_cycle n payload s1 s2 Hd Hc) as (s3 & _ & ->).
Qed.

(** X6. Between calls the dispatcher is idle and its bookkeeping is sound,
    whatever happened before, dispatches that threw included: no dispatch
    is in progress and no payload is retained; a token marked handled is
    also marked pending; and the registry and the two flag dictionaries
    hold nothing but tokens that [register] handed out. *)
Theorem dispatcher_is_idle_between_calls s :
  reachable s →
  isDispatching s = false ∧ _pendingPayload s = None ∧
  (∀ id, truthy (_isHandled s) id = true → truthy (_isPending s) id = true) ∧
  (∀ id, obj_has (_callbacks s) id = true ∨
         is_Some (_isPending s !! id) ∨ is_Some (_isHandled s !! id) →
         id ∈ minted (journal s)).
Proof.
  intros H. split_and!.
  - by apply reachable_not_dispatching.
  - by apply reachable_no_payload.
  - by apply reachable_coherent.
  - apply (λ Hstep Hstart Hstop H0, evolves_preserves (λ s,
      ∀ id, obj_has (_callbacks s) id = true ∨
            is_Some (_isPending s !! id) ∨ is_Some (_isHandled s !! id) →
            id ∈ minted (journal s)) Hstep Hstart Hstop constructor s H H0).
    + intros s1 s2 Hstep Hall.
      destruct Hstep as [id s1 Hp Hc|id s1 Hp|cb s1|id s1 Hc|id s1 Hp Hc Hi]; simpl;
        rewrite minted_snoc || idtac; intros t.
      * rewrite lookup_insert_is_Some. intros [?|[[->|[_ ?]]|?]]; apply Hall; auto.
      * rewrite lookup_insert_is_Some.
        intros [?|[?|[-> | [_ ?]]]]; apply Hall; auto.
      * rewrite obj_has_set, elem_of_app, list_elem_of_singleton.
        case_decide as E; [by auto|]. intros Ht. left. by apply Hall.
      * rewrite obj_has_delete. case_decide; [|by apply Hall].
        intros [?|?]; [done|]. apply Hall. by right.
      * rewrite lookup_insert_is_Some. intros [?|[[->|[_ ?]]|?]]; apply Hall; auto.
        right. left. rewrite (truthy_false_inherited _ _ Hp Hi). by eexists.
    + intros payload s1 Hall t.
      destruct (startDispatching_spec payload s1) as (-> & _ & _ & _ & -> & -> & ->).
      destruct (obj_has (_callbacks s1) t) eqn:Hc; [intros _; apply Hall; by left|].
      intros [?|?]; [done|]. apply Hall. by right.
    + done.
    + intros t [?|[[? ?]|[? ?]]]; done.
Qed.
End idle.

(** ** What [waitFor] and [dispatch] guarantee for arbitrary callbacks *)

Section life_cycle.
Context {TPayload TExn : Type}.
Implicit Types (s : Dispatcher TPayload TExn) (id t : DispatchToken).
Implicit Types (f : frames TPayload TExn) (stk : list DispatchToken).
Implicit Types (j : list (event TPayload)).

Lemma returns_follow_entries_snoc j e :
  returns_follow_entries j →
  match e with Completed id => id ∈ (invocations j).*1 | _ => True end →
  returns_follow_entries (j ++ [e]).
Proof.
  intros Hj He id. rewrite completions_snoc.
  assert (id ∈ completions j →
          ∃ j1 j2, j ++ [e] = j1 ++ Completed id :: j2 ∧ id ∈ (invocations j1).*1) as Hold.
  { intros (j1 & j2 & -> & Hin)%Hj. exists j1, (j2 ++ [e]). by rewrite <- app_assoc. }
  destruct e as [id' p|id'|id']; [done| |done].
  intros [?| ->%list_elem_of_singleton]%elem_of_app; [by auto|].
  by exists j, [].
Qed.

(** The journal of a cycle against its call stack: the callbacks on the
    stack were entered and have not returned. *)
Lemma frame_step_life_cycle f f' j0 :
  frame_step f f' →
  (stack_ok f ∧ NoDup f.1 ∧
   ∃ j, journal f.2 = j0 ++ j ∧ NoDup (completions j) ∧ returns_follow_entries j ∧
        (∀ t, t ∈ f.1 → (t ∉ completions j) ∧ t ∈ (invocations j).*1) ∧
        (∀ t, t ∈ completions j → truthy (_isPending f.2) t = true)) →
  (stack_ok f' ∧ NoDup f'.1 ∧
   ∃ j, journal f'.2 = j0 ++ j ∧ NoDup (completions j) ∧ returns_follow_entries j ∧
        (∀ t, t ∈ f'.1 → (t ∉ completions j) ∧ t ∈ (invocations j).*1) ∧
        (∀ t, t ∈ completions j → truthy (_isPending f'.2) t = true)).
Proof.
  intros Hstep (Hok & Hnd & j & Hj & Hndc & Hfol & Hstk & Hcomp).
  split; [by destruct (frame_step_cycle f f' Hok Hstep)|].
  destruct Hstep as [id stk s Hp Hc|id stk s|id stk s|cb stk s|id stk s Hc|id stk s Hp Hc Hi];
    simpl in *.
  - split.
    { apply NoDup_cons. split; [|done]. intros Hin. apply Hok in Hin. simpl in Hin.
      apply truthy_own in Hin. congruence. }
    exists (j ++ [Invoked id (_pendingPayload s)]).
    rewrite completions_snoc, invocations_snoc, fmap_app. split_and!.
    + by rewrite Hj, <- app_assoc.
    + done.
    + by apply returns_follow_entries_snoc.
    + intros t [->|Ht]%elem_of_cons.
      * split; [|apply elem_of_app; right; by left].
        intros Hin. apply Hcomp in Hin. congruence.
      * destruct (Hstk t Ht). split; [done|]. apply elem_of_app. by left.
    + intros t Ht. rewrite truthy_insert. case_decide; [done|]. by apply Hcomp.
  - apply NoDup_cons in Hnd as [Hnew Hnd]. split; [done|].
    destruct (Hstk id) as [Hnc Hinv]; [by left|].
    exists (j ++ [Completed id]).
    rewrite completions_snoc, invocations_snoc. split_and!.
    + by rewrite Hj, <- app_assoc.
    + apply NoDup_app. split_and!; [done| |apply NoDup_singleton].
      by intros t Ht ->%list_elem_of_singleton.
    + by apply returns_follow_entries_snoc.
    + intros t Ht. destruct (Hstk t) as [? ?]; [by right|]. split; [|done].
      intros [?| ->%list_elem_of_singleton]%elem_of_app; done.
    + intros t [Ht| ->%list_elem_of_singleton]%elem_of_app; [by apply Hcomp|].
      apply truthy_own, (Hok id). by left.
  - apply NoDup_cons in Hnd as [Hnew Hnd]. split; [done|].
    exists j. split_and!; [done..| |done].
    intros t Ht. apply Hstk. by right.
  - split; [done|]. exists (j ++ [Minted (_prefix +:+ pretty (_lastID s))]).
    rewrite completions_snoc, invocations_snoc. split_and!; [|done| |done..].
    + by rewrite Hj, <- app_assoc.
    + by apply returns_follow_entries_snoc.
  - split; [done|]. by exists j.
  - split; [done|]. exists j. split_and!; [done..|].
    intros t Ht. rewrite truthy_insert. case_decide; [done|]. by apply Hcomp.
Qed.

(** Between two moments at which no callback is running, no callback
    returns twice, and a callback returns only after it was entered. *)
Lemma frames_life_cycle s s' :
  rtc frame_step ([], s) ([], s') →
  ∃ j, journal s' = journal s ++ j ∧ NoDup (completions j) ∧ returns_follow_entries j.
Proof.
  intros Hfr.
  apply (rtc_ind_r (λ f,
    stack_ok f ∧ NoDup f.1 ∧
    ∃ j, journal f.2 = journal s ++ j ∧ NoDup (completions j) ∧ returns_follow_entries j ∧
         (∀ t, t ∈ f.1 → (t ∉ completions j) ∧ t ∈ (invocations j).*1) ∧
         (∀ t, t ∈ completions j → truthy (_isPending f.2) t = true))) in Hfr.
  - destruct Hfr as (_ & _ & j & Hj & Hndc & Hfol & _). by exists j.
  - split; [by intros ? ?%elem_of_nil|]. split; [apply NoDup_nil_2|]. exists []. simpl.
    split_and!.
    + by rewrite app_nil_r.
    + apply NoDup_nil_2.
    + by intros t ?%elem_of_nil.
    + by intros t ?%elem_of_nil.
    + by intros t ?%elem_of_nil.
  - intros f f' _ Hstep IH. by apply (frame_step_life_cycle f f' (journal s)).
Qed.

(** X9. Whatever the callbacks do and whether the dispatch returns or
    throws, in the course of one dispatch no callback is entered twice, no
    callback returns twice, and a callback returns only after it was
    entered. *)
Theorem callbacks_enter_and_return_at_most_once n payload s s' :
  isDispatching s = false →
  state_of (dispatch n payload s) = Some s' →
  ∃ j, journal s' = journal s ++ j ∧
       NoDup (invocations j).*1 ∧
       NoDup (completions j) ∧
       returns_follow_entries j.
Proof.
  unfold isDispatching. intros Hd Hr.
  destruct (startDispatching_spec payload s) as (Hcb & Hdis & Hid & Hpl & Hj & Hp & Hh).
  unfold dispatch, dispatch_with in Hr. rewrite Hd in Hr.
  set (s1 := _startDispatching payload s) in *.
  assert (∃ s2, state_of (dispatch_loop (run n) (obj_keys (_callbacks s1)) s1) = Some s2 ∧
                s' = _stopDispatching s2) as (s2 & Hloop & ->).
  { destruct (dispatch_loop _ _ s1) as [s2|e s2|]; simpl in Hr; [| |done];
      injection Hr as <-; by exists s2. }
  assert (stack_ok (([] : list DispatchToken), s1)) as Hok by (intros ? ?%elem_of_nil; done).
  pose proof (dispatch_loop_frames (run n) (run_frames n) _ [] s1 s2 Hdis Hok Hloop) as Hfr.
  destruct (frames_cycle _ _ Hok Hfr) as [Hcy _]. simpl in Hcy.
  destruct (cycle_accounted _ _ Hcy) as (j & Hj2 & Hnd & _).
  destruct (frames_life_cycle _ _ Hfr) as (j' & Hj' & Hndc & Hfol).
  assert (j' = j) as -> by (rewrite Hj2 in Hj'; by apply app_inv_head in Hj').
  exists j. split_and!; [simpl; congruence|done..].
Qed.
End life_cycle.


Section waiting.
Context {TPayload TExn : Type}.
Implicit Types (s : Dispatcher TPayload TExn) (id t : DispatchToken).

Lemma invokeCallback_returned run id s s' :
  obj_has (_callbacks s) id = true →
  _invokeCallback_with run id s = Returns s' →
  ∃ cb s2, obj_get (_callbacks s) id = Some cb ∧
           run (cb (_pendingPayload s))
               (record (mark_pending id s) (Invoked id (_pendingPayload s))) = Returns s2 ∧
           s' = mark_handled id s2.
Proof.
  intros [cb Hcb]%obj_has_true. unfold _invokeCallback_with. simpl. rewrite Hcb.
  destruct (run _ _) as [s2|e2 s2|] eqn:Hr; simpl; [|done..].
  intros [= <-]. by exists cb, s2.
Qed.

Lemma invokeCallback_registered run id s s' :
  _invokeCallback_with run id s = Returns s' → obj_has (_callbacks s) id = true.
Proof.
  unfold _invokeCallback_with. simpl. intros Hi. apply obj_has_true.
  destruct (obj_get (_callbacks s) id); [by eexists|done].
Qed.

Lemma cycle_of_invocation n id s s' :
  _isDispatching s = true → truthy (_isPending s) id = false →
  obj_has (_callbacks s) id = true →
  _invokeCallback n id s = Returns s' →
  rtc cycle_step s s' ∧ truthy (_isPending s') id = true ∧ truthy (_isHandled s') id = true.
Proof.
  intros Hd Hp Hc Hi.
  assert (stack_ok (([] : list DispatchToken), s)) as Hok by (intros ? ?%elem_of_nil; done).
  assert (rtc cycle_step s s') as Hcy.
  { eapply (frames_cycle ([], s) ([], s') Hok).
    apply (invokeCallback_frames (run n) (run_frames n) id);
      [done..|by apply obj_has_truthy|].
    unfold _invokeCallback in Hi. by rewrite Hi. }
  split; [done|].
  apply invokeCallback_returned in Hi as (cb & s2 & Hcb & Hrun & ->); [|done].
  assert (rtc cycle_step (record (mark_pending id s) (Invoked id (_pendingPayload s))) s2)
    as H12 by (apply (run_cycle n (cb (_pendingPayload s))); [done|by rewrite Hrun]).
  split; simpl.
  - apply (cycle_flags _ _ id) in H12 as [H _]. apply H. simpl.
    rewrite truthy_insert. by rewrite decide_True.
  - rewrite truthy_insert. by rewrite decide_True.
Qed.

(** When [waitFor] returns, every token it was given is pending and
    handled. *)
Lemma waitFor_flags n ids s s' :
  waitFor n ids s = Returns s' →
  ∀ t, t ∈ ids →
    truthy (_isPending s') t = true ∧ truthy (_isHandled s') t = true.
Proof.
  unfold waitFor, waitFor_with. destruct (_isDispatching s) eqn:Hd; [|done].
  revert s Hd. induction ids as [|id ids IH]; intros s Hd Hr t Ht.
  { by apply elem_of_nil in Ht. }
  simpl in Hr.
  assert (∀ s1, rtc cycle_step s1 s' →
            truthy (_isPending s1) id = true → truthy (_isHandled s1) id = true →
            truthy (_isPending s') id = true ∧ truthy (_isHandled s') id = true) as Hkeep.
  { intros s1 Hcy H1 H2. apply (cycle_flags _ _ id) in Hcy as (Ha & Hb & _). auto. }
  assert (∀ s1, _isDispatching s1 = true → waitFor_loop (run n) ids s1 = Returns s' →
            rtc cycle_step s1 s') as Hrest.
  { intros s1 Hd1 Hr1.
    assert (stack_ok (([] : list DispatchToken), s1)) as Hok by (intros ? ?%elem_of_nil; done).
    eapply (frames_cycle ([], s1) ([], s') Hok).
    apply (waitFor_loop_frames (run n) (run_frames n) ids); [done..|by rewrite Hr1]. }
  destruct (truthy (_isPending s) id) eqn:Hp.
  - destruct (truthy (_isHandled s) id) eqn:Hh; [|done].
    apply elem_of_cons in Ht as [->|Ht]; [|by eapply IH].
    apply (Hkeep s); [by apply Hrest|done..].
  - destruct (obj_truthy (_callbacks s) id) eqn:Hc'; [|done].
    destruct (_invokeCallback_with (run n) id s) as [s1|e s1|] eqn:Hi; simpl in Hr; [|done..].
    pose proof (invokeCallback_registered _ _ _ _ Hi) as Hc.
    destruct (cycle_of_invocation n id s s1 Hd Hp Hc Hi) as (Hcy & Hp1 & Hh1).
    assert (_isDispatching s1 = true) as Hd1 by (apply cycle_frame in Hcy as [-> _]; done).
    apply elem_of_cons in Ht as [->|Ht]; [|by eapply IH].
    apply (Hkeep s1); [by apply Hrest|done..].
Qed.

(** The journal of a [waitFor] that returns. *)
Lemma waitFor_journal n ids s s' :
  waitFor n ids s = Returns s' →
  rtc cycle_step s s' ∧
  ∃ j, accounted s s' j ∧ NoDup (completions j) ∧ returns_follow_entries j.
Proof.
  intros Hr.
  assert (stack_ok (([] : list DispatchToken), s)) as Hok by (intros ? ?%elem_of_nil; done).
  assert (rtc frame_step (([] : list DispatchToken), s) ([], s')) as Hfr.
  { apply (waitFor_frames (run n) (run_frames n) ids); [done|].
    unfold waitFor in Hr. by rewrite Hr. }
  destruct (frames_cycle _ _ Hok Hfr) as [Hcy _]. simpl in Hcy. split; [done|].
  destruct (cycle_accounted _ _ Hcy) as (j & Hacc).
  destruct (frames_life_cycle _ _ Hfr) as (j' & Hj' & Hndc & Hfol).
  assert (j' = j) as ->.
  { destruct Hacc as (Hj & _). rewrite Hj in Hj'. by apply app_inv_head in Hj'. }
  by exists j.
Qed.

(** A [waitFor] that returns and did not find its token handled has
    entered the callback of that token, with the pending payload, and the
    callback has returned. *)
Lemma waitFor_runs_the_callback n ids s s' j t :
  waitFor n ids s = Returns s' → journal s' = journal s ++ j →
  t ∈ ids → truthy (_isHandled s) t = false →
  ∃ j1 j2, j = j1 ++ Completed t :: j2 ∧ (t, _pendingPayload s) ∈ invocations j1.
Proof.
  intros Hr Hj Ht Hh.
  destruct (waitFor_journal n ids s s' Hr) as (_ & j' & Hacc & _ & Hfol).
  destruct Hacc as (Hj' & _ & _ & _ & _ & Hhand & _ & Hpay).
  assert (j' = j) as -> by (rewrite Hj in Hj'; by apply app_inv_head in Hj').
  destruct (waitFor_flags n ids s s' Hr t Ht) as [_ Hh'].
  apply Hhand in Hh' as [Hh'|Hin]; [congruence|].
  destruct (Hfol t Hin) as (j1 & j2 & -> & Hent).
  exists j1, j2. split; [done|].
  apply list_elem_of_fmap in Hent as ([t' p] & -> & Hent). simpl.
  rewrite <- (Hpay t' p); [done|]. rewrite invocations_app. apply elem_of_app. by left.
Qed.


End waiting.

Section reach.
Context {TPayload TExn : Type}.
Implicit Types (s : Dispatcher TPayload TExn) (id t : DispatchToken).
Implicit Types (f : frames TPayload TExn) (stk : list DispatchToken).
Implicit Types (j : list (event TPayload)).

Lemma cycle_lastID s s' : rtc cycle_step s s' → (_lastID s ≤ _lastID s')%N.
Proof.
  induction 1 as [|s1 s2 s3 Hstep _ IH]; [done|].
  apply cycle_step_lastID in Hstep. lia.
Qed.

(** When the loop of [dispatch] returns, every key it went through is
    pending or is not registered any more. *)
Lemma dispatch_loop_reaches n ids s s' :
  _isDispatching s = true →
  (∀ id, id ∈ ids → ∃ m : N, (m < _lastID s)%N ∧ id = _prefix +:+ pretty m) →
  dispatch_loop (run n) ids s = Returns s' →
  ∀ id, id ∈ ids →
    truthy (_isPending s') id = true ∨ obj_has (_callbacks s') id = false.
Proof.
  revert s. induction ids as [|id ids IH]; intros s Hd Hnum Hr t Ht.
  { by apply elem_of_nil in Ht. }
  assert (∀ s1, rtc cycle_step s s1 →
            ∀ id, id ∈ ids → ∃ m : N, (m < _lastID s1)%N ∧ id = _prefix +:+ pretty m) as Hnum'.
  { intros s1 Hcy%cycle_lastID x Hx. destruct (Hnum x) as (m & Hm & ->); [by right|].
    exists m. split; [lia|done]. }
  assert (∀ s1, _isDispatching s1 = true → dispatch_loop (run n) ids s1 = Returns s' →
            rtc cycle_step s1 s') as Hrest.
  { intros s1 Hd1 Hr1. apply (dispatch_loop_cycle n ids); [done|by rewrite Hr1]. }
  simpl in Hr. destruct (obj_has (_callbacks s) id) eqn:Hc.
  - destruct (truthy (_isPending s) id) eqn:Hp.
    + apply elem_of_cons in Ht as [->|Ht]; [|by apply (IH s); auto using rtc_refl].
      left. by apply (cycle_flags s s' id (Hrest s Hd Hr)).
    + destruct (_invokeCallback_with (run n) id s) as [s1|e s1|] eqn:Hi; simpl in Hr; [|done..].
      destruct (cycle_of_invocation n id s s1 Hd Hp Hc Hi) as (Hcy & Hp1 & _).
      assert (_isDispatching s1 = true) as Hd1 by (apply cycle_frame in Hcy as [-> _]; done).
      apply elem_of_cons in Ht as [->|Ht]; [|by apply (IH s1); auto].
      left. by apply (cycle_flags s1 s' id (Hrest s1 Hd1 Hr)).
  - apply elem_of_cons in Ht as [->|Ht]; [|by apply (IH s); auto using rtc_refl].
    right. apply (cycle_retired id s s' (Hrest s Hd Hr)). split; [done|].
    right. apply Hnum. by left.
Qed.

(** X8. Whatever the callbacks do, when [dispatch] returns, every
    callback that was registered before the call and still is after it was
    entered exactly once, with the dispatched payload. *)
Theorem dispatch_reaches_every_callback n payload s s' :
  reachable s →
  dispatch n payload s = Returns s' →
  ∃ j, journal s' = journal s ++ j ∧
       NoDup (invocations j).*1 ∧
       ∀ id, obj_has (_callbacks s) id = true → obj_has (_callbacks s') id = true →
             (id, Some payload) ∈ invocations j.
Proof.
  intros Hreach Hr.
  pose proof (reachable_not_dispatching s Hreach) as Hd. unfold isDispatching in Hd.
  destruct (reachable_registry s Hreach) as [_ Hnum].
  destruct (startDispatching_spec payload s) as (Hcb & Hdis & Hid & Hpl & Hj & Hp & Hh).
  unfold dispatch, dispatch_with in Hr. rewrite Hd, Hcb in Hr.
  destruct (dispatch_loop (run n) (obj_keys (_callbacks s)) (_startDispatching payload s))
    as [s2|e s2|] eqn:Hloop; simpl in Hr; [|done..].
  injection Hr as <-.
  assert (rtc cycle_step (_startDispatching payload s) s2) as Hcy
    by (apply (dispatch_loop_cycle n (obj_keys (_callbacks s))); [done|by rewrite Hloop]).
  destruct (cycle_accounted _ _ Hcy) as (j & Hj2 & Hnd & _ & _ & Hpend & _ & _ & Hpay).
  exists j. split_and!; [simpl; congruence|done|].
  intros id Hc Hc'.
  assert (truthy (_isPending s2) id = true) as Hp2.
  { destruct (dispatch_loop_reaches n (obj_keys (_callbacks s))
                (_startDispatching payload s) s2 Hdis) with (id := id) as [?|Hgone];
      [|done|by apply obj_has_keys|done|simpl in Hc'; congruence].
    intros x Hx. rewrite Hid. apply Hnum. by apply obj_get_keys. }
  apply Hpend in Hp2 as [Hp2|[Hin|[_ Hgone]]]; [| |simpl in Hc'; congruence].
  { unfold truthy in Hp2. by rewrite Hp, Hc in Hp2. }
  apply list_elem_of_fmap in Hin as ([id' p] & -> & Hin). simpl.
  by rewrite <- Hpl, <- (Hpay id' p Hin).
Qed.
End reach.

(** ** Callbacks that wait for one another without a cycle *)

Section acyclic_waits.
Context {TPayload TExn : Type}.
Implicit Types (s : Dispatcher TPayload TExn) (id t cur : DispatchToken).
Implicit Types (p : prog TPayload TExn).

Variable payload : TPayload.
Variable cbs : list (DispatchToken * callback TPayload TExn).
Hypothesis Hwaiters : waiters_only cbs payload.
Hypothesis Hacyclic : ∀ c, ¬ cyclic cbs payload c.

Lemma before_app_l l l' b a : before l b a → before (l ++ l') b a.
Proof.
  intros (l1 & l2 & -> & Hb). exists l1, (l2 ++ l'). split; [|done].
  by rewrite <- app_assoc.
Qed.

Lemma before_app_r l l' b a : before l' b a → before (l ++ l') b a.
Proof.
  intros (l1 & l2 & -> & Hb). exists (l ++ l1), l2. split.
  - by rewrite <- app_assoc.
  - apply elem_of_app. by right.
Qed.

Lemma before_app_lr l l' b a : b ∈ l → a ∈ l' → before (l ++ l') b a.
Proof.
  intros Hb (l1 & l2 & ->)%list_elem_of_split. exists (l ++ l1), l2. split.
  - by rewrite <- app_assoc.
  - apply elem_of_app. by left.
Qed.

Lemma waits_on_registered a b : waits_on cbs payload a b → obj_has cbs b = true.
Proof. intros (cb & Hget & Hin). by apply (Hwaiters a cb Hget). Qed.

Lemma orderly_refl s : orderly cbs payload s s.
Proof.
  exists []. simpl. split_and!; try done.
  - by rewrite app_nil_r.
  - apply NoDup_nil_2.
  - by intros t ?%elem_of_nil.
  - intros t. split; [auto|]. by intros [?|?%elem_of_nil].
  - by intros a b ?%elem_of_nil.
Qed.

Lemma orderly_trans s1 s2 s3 :
  orderly cbs payload s1 s2 → orderly cbs payload s2 s3 → orderly cbs payload s1 s3.
Proof.
  intros (j1 & Hj1 & Hi1 & Hnd1 & Hc1 & Hp1 & Hh1 & Ho1)
         (j2 & Hj2 & Hi2 & Hnd2 & Hc2 & Hp2 & Hh2 & Ho2).
  exists (j1 ++ j2). rewrite invocations_app, completions_app. split_and!.
  - by rewrite Hj2, Hj1, <- app_assoc.
  - rewrite fmap_app. by apply Permutation_app.
  - apply NoDup_app. split_and!; [done| |done].
    intros t Ht1 Ht2. destruct (Hc1 t Ht1) as (_ & _ & Ha). destruct (Hc2 t Ht2) as (_ & Hb & _).
    congruence.
  - intros t [Ht|Ht]%elem_of_app.
    + destruct (Hc1 t Ht) as (? & ? & ?). split_and!; auto.
    + destruct (Hc2 t Ht) as (? & Hf & ?). split_and!; [done| |done].
      destruct (truthy (_isPending s1) t) eqn:E; [|done]. apply Hp1 in E. congruence.
  - auto.
  - intros t. rewrite Hh2, Hh1, elem_of_app. tauto.
  - intros a b [Ha|Ha]%elem_of_app Hw.
    + destruct (Ho1 a b Ha Hw) as [?|?]; [by left|]. right. by apply before_app_l.
    + destruct (Ho2 a b Ha Hw) as [Hb|?]; [|right; by apply before_app_r].
      apply Hh1 in Hb as [?|Hb]; [by left|]. right. by apply before_app_lr.
Qed.

Lemma settles_unfinished s s' cur :
  settles s s' → unfinished_wait_for cbs payload s cur →
  unfinished_wait_for cbs payload s' cur.
Proof.
  intros (_ & _ & Ho) Hun t Ht Hp Hh. destruct (Ho t Hp Hh). by apply Hun.
Qed.

Section calls_acyclic.
Variable run : prog TPayload TExn → Dispatcher TPayload TExn → outcome TPayload TExn.
Hypothesis run_post : ∀ p s,
  waiter p → (∀ t, t ∈ waits p → obj_has cbs t = true) → during cbs payload s →
  waiter_post cbs payload s (waits p) (run p s).
Hypothesis run_orderly : ∀ p s cur,
  waiter p → (∀ t, t ∈ waits p → waits_on cbs payload cur t) → during cbs payload s →
  unfinished_wait_for cbs payload s cur →
  orderly_post cbs payload s (run p s).

Lemma acyclic_invokeCallback id s :
  during cbs payload s → truthy (_isPending s) id = false → obj_has cbs id = true →
  (∀ t, obj_has cbs t = true →
        truthy (_isPending s) t = true → truthy (_isHandled s) t = false →
        rtc (waits_on cbs payload) t id) →
  orderly_post cbs payload s (_invokeCallback_with run id s).
Proof.
  intros (Hcb & Hd & Hpl) Hp Hc Hun.
  apply obj_has_true in Hc as Hsome. destruct Hsome as [cb Hget].
  destruct (Hwaiters id cb Hget) as [Hw Hreg].
  unfold _invokeCallback_with. simpl. rewrite Hcb, Hget, Hpl.
  set (s1 := record _ _).
  assert (during cbs payload s1) as Hdur1 by done.
  assert (truthy (_isPending s1) id = true) as Hp1
    by (subst s1; simpl; rewrite truthy_insert; by rewrite decide_True).
  pose proof (run_post (cb (Some payload)) s1 Hw Hreg Hdur1) as Hpost.
  assert (orderly_post cbs payload s1 (run (cb (Some payload)) s1)) as Hord.
  { apply (run_orderly _ _ id); [done| |done|].
    - intros t Ht. by exists cb.
    - intros t Ht. subst s1. simpl. rewrite truthy_insert. case_decide as E.
      + subst t. intros _ _. apply rtc_refl.
      + by apply Hun. }
  destruct (run _ s1) as [s2|e s2|]; simpl in Hpost, Hord |- *; [|done..].
  destruct Hpost as (Hdur2 & _ & _ & Hneed).
  destruct Hord as (j & Hj & Hi & Hnd & Hcomp & Hpend & Hhand & Hord).
  exists (Invoked id (Some payload) :: j ++ [Completed id]).
  assert (id ∉ completions j) as Hnew.
  { intros Hin. destruct (Hcomp id Hin) as (_ & Hf & _). congruence. }
  simpl. rewrite invocations_snoc, completions_snoc. split_and!.
  - rewrite Hj. subst s1. simpl. by rewrite <- !app_assoc.
  - rewrite fmap_app. simpl. rewrite <- Permutation_cons_append. by constructor.
  - apply NoDup_app. split_and!; [done| |apply NoDup_singleton].
    intros t Ht ->%list_elem_of_singleton. done.
  - intros t [Ht| ->%list_elem_of_singleton]%elem_of_app.
    + destruct (Hcomp t Ht) as (? & Hf & ?). split_and!; [done| |done].
      subst s1. simpl in Hf. rewrite truthy_insert in Hf. by case_decide.
    + split_and!; [done..|]. by apply Hpend.
  - intros t Ht. apply Hpend. subst s1. simpl. rewrite truthy_insert. by case_decide.
  - intros t. rewrite truthy_insert, elem_of_app, list_elem_of_singleton.
    case_decide as E; [subst; split; [intros _; right; by right|done]|].
    rewrite Hhand. subst s1. simpl.
    split; [tauto|]. intros [?|[?|?]]; [by left|by right|done].
  - intros a b [Ha| ->%list_elem_of_singleton]%elem_of_app Hwab.
    + destruct (Hord a b Ha Hwab) as [?|?]; [by left|]. right. by apply before_app_l.
    + destruct Hwab as (cb' & Hget' & Hin). assert (cb' = cb) as -> by congruence.
      destruct (proj1 (Hhand b) (Hneed b Hin)) as [?|Hb]; [by left|].
      right. exists (completions j), []. done.
Qed.

Lemma acyclic_waitFor_loop ids s cur :
  (∀ t, t ∈ ids → waits_on cbs payload cur t) → during cbs payload s →
  unfinished_wait_for cbs payload s cur →
  orderly_post cbs payload s (waitFor_loop run ids s).
Proof.
  revert s. induction ids as [|id ids IH]; intros s Hwait Hdur Hun.
  { simpl. apply orderly_refl. }
  assert (∀ t, t ∈ ids → waits_on cbs payload cur t) as Hwait'
    by (intros; apply Hwait; by right).
  assert (waits_on cbs payload cur id) as Hcur by (apply Hwait; by left).
  assert (obj_has cbs id = true) as Hc by by eapply waits_on_registered.
  assert (∀ t, t ∈ ids → obj_has cbs t = true) as Hreg'
    by (intros; eapply waits_on_registered; by apply Hwait').
  simpl. destruct (truthy (_isPending s) id) eqn:Hp.
  { destruct (truthy (_isHandled s) id) eqn:Hh; [by apply IH|].
    simpl. apply (Hacyclic cur). unfold cyclic.
    eapply tc_rtc_r; [by apply tc_once|]. by apply Hun. }
  destruct Hdur as (Hcb & Hd & Hpl). rewrite Hcb, (obj_has_truthy _ _ Hc).
  pose proof (waiter_invokeCallback payload cbs Hwaiters run run_post id s
                (conj Hcb (conj Hd Hpl)) Hp Hc) as Hinv.
  assert (orderly_post cbs payload s (_invokeCallback_with run id s)) as Hord.
  { apply acyclic_invokeCallback; [done..|].
    intros t Ht Hpt Hht. eapply rtc_r; [by apply Hun|done]. }
  destruct (_invokeCallback_with run id s) as [s1|e s1|]; simpl in *; [|done..].
  destruct Hinv as (Hdur1 & Hset1 & _).
  specialize (IH s1 Hwait' Hdur1 (settles_unfinished _ _ _ Hset1 Hun)).
  destruct (waitFor_loop run ids s1) as [s'|e s'|]; simpl in *; [|done..].
  by eapply orderly_trans.
Qed.

Lemma acyclic_dispatch_loop ids s :
  (∀ t, t ∈ ids → obj_has cbs t = true) → during cbs payload s →
  (∀ t, obj_has cbs t = true → truthy (_isPending s) t = true →
        truthy (_isHandled s) t = true) →
  orderly_post cbs payload s (dispatch_loop run ids s).
Proof.
  revert s. induction ids as [|id ids IH]; intros s Hreg Hdur Hquiet.
  { simpl. apply orderly_refl. }
  assert (∀ t, t ∈ ids → obj_has cbs t = true) as Hreg' by (intros; apply Hreg; by right).
  assert (obj_has cbs id = true) as Hc by (apply Hreg; by left).
  assert (∀ s', settles s s' →
            ∀ t, obj_has cbs t = true → truthy (_isPending s') t = true →
                 truthy (_isHandled s') t = true) as Hquiet'.
  { intros s' (Hp' & Hh' & Ho') t Ht Hpt.
    destruct (truthy (_isHandled s') t) eqn:E; [done|].
    destruct (Ho' t Hpt E) as [H1 H2]. rewrite (Hquiet t Ht H1) in H2. done. }
  simpl. destruct Hdur as (Hcb & Hd & Hpl). rewrite Hcb, Hc.
  destruct (truthy (_isPending s) id) eqn:Hp; [by apply IH|].
  pose proof (waiter_invokeCallback payload cbs Hwaiters run run_post id s
                (conj Hcb (conj Hd Hpl)) Hp Hc) as Hinv.
  assert (orderly_post cbs payload s (_invokeCallback_with run id s)) as Hord.
  { apply acyclic_invokeCallback; [done..|].
    intros t Ht Hpt Hht. rewrite (Hquiet t Ht Hpt) in Hht. done. }
  destruct (_invokeCallback_with run id s) as [s1|e s1|]; simpl in *; [|done..].
  destruct Hinv as (Hdur1 & Hset1 & _).
  specialize (IH s1 Hreg' Hdur1 (Hquiet' s1 Hset1)).
  destruct (dispatch_loop run ids s1) as [s'|e s'|]; simpl in *; [|done..].
  by eapply orderly_trans.
Qed.
End calls_acyclic.

Lemma acyclic_run n p s cur :
  waiter p → (∀ t, t ∈ waits p → waits_on cbs payload cur t) → during cbs payload s →
  unfinished_wait_for cbs payload s cur →
  orderly_post cbs payload s (run n p s).
Proof.
  revert p s cur. induction n as [|n IH]; intros p s cur Hw Hwait Hdur Hun; simpl; [done|].
  destruct p as [|e|ids k|payload' k|cb k|id k|k|body handler k]; try done.
  - simpl. apply orderly_refl.
  - simpl in Hw, Hwait.
    assert (∀ t, t ∈ ids → waits_on cbs payload cur t) as Hwait1
      by (intros; apply Hwait, elem_of_app; by left).
    assert (∀ t, t ∈ waits k → waits_on cbs payload cur t) as Hwait2
      by (intros; apply Hwait, elem_of_app; by right).
    assert (∀ t, t ∈ ids → obj_has cbs t = true) as Hreg1
      by (intros; eapply waits_on_registered; by apply Hwait1).
    unfold waitFor_with. rewrite (proj1 (proj2 Hdur)).
    pose proof (waiter_waitFor_loop payload cbs Hwaiters (run n)
                  (waiter_run payload cbs Hwaiters n) ids s Hreg1 Hdur) as Hloop.
    pose proof (acyclic_waitFor_loop (run n) (waiter_run payload cbs Hwaiters n) IH
                  ids s cur Hwait1 Hdur Hun) as Hord.
    destruct (waitFor_loop (run n) ids s) as [s1|e s1|]; simpl in *; [|done..].
    destruct Hloop as (Hdur1 & Hset1 & _).
    specialize (IH k s1 cur Hw Hwait2 Hdur1 (settles_unfinished _ _ _ Hset1 Hun)).
    destruct (run n k s1) as [s'|e s'|]; simpl in *; [|done..].
    by eapply orderly_trans.
Qed.
End acyclic_waits.

Section acyclic_dispatch.
Context {TPayload TExn : Type}.
Implicit Types (s : Dispatcher TPayload TExn) (id t : DispatchToken).

(** X10. On a dispatcher in use, when the body of every registered callback
    is a sequence of [waitFor] calls on registered tokens and no callback
    waits for itself, directly or through a chain, a dispatch with enough
    budget returns; every registered callback has been entered once, with
    the payload, and has returned once; and every callback returned after
    the callbacks it waits for, whatever the registration order. *)
Theorem acyclic_waits_run_in_dependency_order payload s :
  reachable s →
  waiters_only (_callbacks s) payload →
  (∀ c, ¬ tc (waits_on (_callbacks s) payload) c c) →
  ∃ n, ∀ m, n ≤ m →
    ∃ s' j,
      dispatch m payload s = Returns s' ∧
      journal s' = journal s ++ j ∧
      invocations j ≡ₚ (λ t, (t, Some payload)) <$> obj_keys (_callbacks s) ∧
      completions j ≡ₚ obj_keys (_callbacks s) ∧
      ∀ a b, waits_on (_callbacks s) payload a b → before (completions j) b a.
Proof.
  intros Hreach Hwaiters Hacyclic.
  pose proof (reachable_not_dispatching s Hreach) as Hd. unfold isDispatching in Hd.
  destruct (reachable_registry s Hreach) as [Hnd _].
  set (cbs := _callbacks s) in *.
  destruct (startDispatching_spec payload s) as (Hcb & Hdis & Hid & Hpl & Hj & Hp & Hh).
  set (s1 := _startDispatching payload s) in *.
  assert (during cbs payload s1) as Hdur by done.
  assert (∀ t, obj_has cbs t = true → truthy (_isPending s1) t = false) as Hfresh.
  { intros t Ht. unfold truthy. rewrite Hp. fold cbs. by rewrite Ht. }
  assert (∀ t, obj_has cbs t = true → truthy (_isHandled s1) t = false) as Hfresh'.
  { intros t Ht. unfold truthy. rewrite Hh. fold cbs. by rewrite Ht. }
  assert (∀ t, t ∈ obj_keys cbs → obj_has cbs t = true) as Hreg
    by (intros t; apply obj_has_keys).
  assert (∀ t, obj_has cbs t = true → truthy (_isPending s1) t = true →
               truthy (_isHandled s1) t = true) as Hquiet.
  { intros t Ht Hpt. by rewrite Hfresh in Hpt. }
  exists (unentered cbs s1 * max_depth cbs payload). intros m Hm.
  pose proof (waiter_dispatch_loop payload cbs Hwaiters (run m)
                (waiter_run payload cbs Hwaiters m) (obj_keys cbs) s1 Hreg Hdur Hquiet)
    as Hpost.
  pose proof (acyclic_dispatch_loop payload cbs Hwaiters Hacyclic (run m)
                (waiter_run payload cbs Hwaiters m)
                (acyclic_run payload cbs Hwaiters Hacyclic m)
                (obj_keys cbs) s1 Hreg Hdur Hquiet) as Hord.
  pose proof (waiter_dispatch_loop_finishes payload cbs Hwaiters (run m) m
                (waiter_run payload cbs Hwaiters m)
                (waiter_run_finishes payload cbs Hwaiters m)
                (obj_keys cbs) s1 Hreg Hdur Hm) as Hfin.
  unfold dispatch, dispatch_with. rewrite Hd. fold s1. rewrite Hcb. fold cbs.
  destruct (dispatch_loop (run m) (obj_keys cbs) s1) as [s2|e s2|] eqn:Hloop; [|done..].
  simpl in Hpost, Hord.
  destruct Hpost as (_ & _ & _ & Hneed).
  destruct Hord as (j & Hj2 & Hi & Hndc & Hcomp & _ & Hhand & Hord).
  assert (completions j ≡ₚ obj_keys cbs) as Hperm.
  { apply NoDup_Permutation; [done..|]. intros t. split.
    - intros Ht. apply obj_has_keys. by apply Hcomp.
    - intros Ht. apply Hneed in Ht as Hht. apply Hhand in Hht as [Hht|Hht]; [|done].
      by rewrite Hfresh' in Hht by by apply Hreg. }
  exists (_stopDispatching s2), j. simpl. split_and!.
  - done.
  - congruence.
  - by rewrite Hi, Hperm.
  - done.
  - intros a b Hab.
    assert (a ∈ completions j) as Ha.
    { rewrite Hperm. apply obj_has_keys, obj_has_true.
      destruct Hab as (cb & Hget & _). eauto. }
    destruct (Hord a b Ha Hab) as [Hb|Hb]; [|done].
    rewrite Hfresh' in Hb; [done|]. by eapply waits_on_registered.
Qed.
End acyclic_dispatch.


(** ** The reduce store over a run of dispatches *)

Section store_more.
Context {TState TAction TExn : Type}.
Variable className : string.
Variable reduce : TState → TAction → option TState.
Variable areEqual : TState → TState → bool.
Variable listeners : Store TState → option TExn.
Implicit Types (st : Store TState) (action : TAction).

Lemma invokeOnDispatch_dispatching action st :
  __invokeOnDispatch className reduce areEqual listeners true action st
  = match reduce (_state st) action with
    | Some endingState =>
        if areEqual (_state st) endingState
        then Done (after_dispatch reduce areEqual action st)
        else match listeners (after_dispatch reduce areEqual action st) with
             | None => Done (after_dispatch reduce areEqual action st)
             | Some e => Fails (Raised e) (after_dispatch reduce areEqual action st)
             end
    | None =>
        Fails (undefined_state_error className) (after_dispatch reduce areEqual action st)
    end.
Proof.
  unfold __invokeOnDispatch, after_dispatch. simpl. destruct (reduce _ _); [|done].
  by destruct (areEqual _ _).
Qed.

Lemma dispatched_cons action actions st :
  (dispatched className reduce areEqual listeners (action :: actions) st).2
  = (dispatched className reduce areEqual listeners actions
       (after_dispatch reduce areEqual action st)).2.
Proof.
  simpl. rewrite invokeOnDispatch_dispatching.
  destruct (reduce (_state st) action) as [endingState|]; simpl.
  - destruct (areEqual (_state st) endingState); [done|].
    destruct (listeners _); [|done]. by destruct (dispatched _ _ _ _ actions _).
  - by destruct (dispatched _ _ _ _ actions _).
Qed.

Lemma dispatched_app actions1 actions2 st :
  (dispatched className reduce areEqual listeners (actions1 ++ actions2) st).2
  = (dispatched className reduce areEqual listeners actions2
       (dispatched className reduce areEqual listeners actions1 st).2).2.
Proof.
  revert st. induction actions1 as [|a actions1 IH]; intros st; [done|].
  rewrite <- app_comm_cons, !dispatched_cons. apply IH.
Qed.

(** What a run of dispatches does to a store. *)
Lemma dispatched_run actions st :
  ∃ errors st' raised,
    dispatched className reduce areEqual listeners actions st = (errors, st') ∧
    _state st' = foldl (kept reduce areEqual) (_state st) actions ∧
    emitted st' = emitted st ++ replicate (changes reduce areEqual (_state st) actions)
                                          (__changeEvent st) ∧
    __changeEvent st' = __changeEvent st ∧
    errors ≡ₚ replicate (failures reduce areEqual (_state st) actions)
                        (undefined_state_error className) ++ (Raised <$> raised) ∧
    length raised ≤ changes reduce areEqual (_state st) actions ∧
    ((∀ st1, listeners st1 = None) → raised = []) ∧
    (raised = [] →
     errors = replicate (failures reduce areEqual (_state st) actions)
                        (undefined_state_error className)).
Proof.
  revert st. induction actions as [|a actions IH]; intros st.
  - exists [], st, []. simpl. by rewrite app_nil_r.
  - simpl. rewrite invokeOnDispatch_dispatching. unfold after_dispatch.
    destruct (reduce (_state st) a) as [endingState|] eqn:Hr.
    + destruct (areEqual (_state st) endingState) eqn:Heq.
      * assert (kept reduce areEqual (_state st) a = _state st) as ->
          by (unfold kept; by rewrite Hr, Heq).
        destruct (IH (mkStore (_state st) false (__changeEvent st) (emitted st)))
          as (errors & st' & raised & Hd & Hs & He & Hc & Hp & Hl & Hn & Hx).
        by exists errors, st', raised.
      * assert (kept reduce areEqual (_state st) a = endingState) as ->
          by (unfold kept; by rewrite Hr, Heq).
        destruct (IH (mkStore endingState true (__changeEvent st)
                              (emitted st ++ [__changeEvent st])))
          as (errors & st' & raised & Hd & Hs & He & Hc & Hp & Hl & Hn & Hx).
        simpl in *.
        destruct (listeners _) as [e|] eqn:Hlis.
        -- exists (Raised e :: errors), st', (e :: raised). rewrite Hd.
           split_and!; [done..| |done| | | |].
           ++ rewrite He. by rewrite <- app_assoc.
           ++ rewrite Hp, fmap_cons. apply Permutation_middle.
           ++ simpl. lia.
           ++ intros Hnone. by rewrite Hnone in Hlis.
           ++ done.
        -- exists errors, st', raised.
           split_and!; [done..| |done|done|lia|done|done].
           rewrite He. by rewrite <- app_assoc.
    + assert (kept reduce areEqual (_state st) a = _state st) as ->
        by (unfold kept; by rewrite Hr).
      destruct (IH (mkStore (_state st) false (__changeEvent st) (emitted st)))
        as (errors & st' & raised & Hd & Hs & He & Hc & Hp & Hl & Hn & Hx).
      exists (undefined_state_error className :: errors), st', raised. simpl in *.
      rewrite Hd. split_and!; [done..| |done|done|].
      * by rewrite Hp.
      * intros Hnil. by rewrite (Hx Hnil).
Qed.



Lemma foldl_kept_total (r : TState → TAction → TState) actions state :
  (∀ one two, areEqual one two = true → one = two) →
  foldl (kept (λ state action, Some (r state action)) areEqual) state actions
    = foldl r state actions.
Proof.
  intros Heq. revert state.
  induction actions as [|a actions IH]; intros state; simpl; [done|].
  rewrite <- IH. f_equal. unfold kept.
  destruct (areEqual state (r state a)) eqn:E; [by apply Heq|done].
Qed.

Lemma failures_defined (r : TState → TAction → TState) actions state :
  failures (λ state action, Some (r state action)) areEqual state actions = 0.
Proof.
  revert state. induction actions as [|a actions IH]; intros state; simpl; [done|].
  apply IH.
Qed.

Lemma changes_le actions state :
  changes reduce areEqual state actions ≤ length actions.
Proof.
  revert state. induction actions as [|a actions IH]; intros state; simpl; [done|].
  specialize (IH (kept reduce areEqual state a)).
  destruct (reduce state a) as [e|]; [destruct (areEqual state e)|]; simpl; lia.
Qed.
End store_more.

Section store_fold.
Context {TState TAction TExn : Type}.
Variable className : string.
Variable areEqual : TState → TState → bool.
Variable listeners : Store TState → option TExn.
Implicit Types (st : Store TState) (action : TAction).

(** X14. For a store whose [areEqual] returns [true] on identical states
    only and whose [reduce] always returns a state: after the dispatch of
    each of a list of actions the state of the store is the left fold of
    [reduce] over the actions, whether listeners threw or not; the emitter
    was sent at most one change event for each action; a dispatch fails in
    the store only with what a change listener threw, and none fails if no
    listener ever throws. *)
Theorem store_state_is_the_fold (r : TState → TAction → TState) actions st :
  (∀ one two, areEqual one two = true → one = two) →
  ∃ errors st' n,
    dispatched className (λ state action, Some (r state action)) areEqual listeners
      actions st = (errors, st') ∧
    getState st' = foldl r (getState st) actions ∧
    emitted st' = emitted st ++ replicate n (__changeEvent st) ∧
    n ≤ length actions ∧
    (∀ e, e ∈ errors → ∃ x, e = Raised x) ∧
    ((∀ st1, listeners st1 = None) → errors = []).
Proof.
  intros Heq.
  destruct (dispatched_run className (λ state action, Some (r state action))
              areEqual listeners actions st)
    as (errors & st' & raised & Hd & Hs & He & _ & Hp & _ & Hn & Hx).
  rewrite failures_defined in Hp, Hx. simpl in Hp, Hx.
  exists errors, st',
    (changes (λ state action, Some (r state action)) areEqual (_state st) actions).
  unfold getState.
  split_and!; [done|by rewrite Hs, foldl_kept_total|done|apply changes_le| |by auto].
  intros e He'. rewrite Hp in He'. apply list_elem_of_fmap in He' as (x & -> & _).
  by exists x.
Qed.
End store_fold.

(** ** The scenarios *)

Lemma session_from_evolves {TPayload TExn : Type} (s0 : Dispatcher TPayload TExn)
    (calls : list (call TPayload TExn)) s :
  session_from s0 calls = Some s → evolves s0 s.
Proof.
  unfold session_from. revert s.
  induction calls as [|c calls IH] using rev_ind; intros s; simpl.
  - intros [= <-]. apply evolves_refl.
  - rewrite foldl_app. simpl.
    destruct (foldl _ _ calls) as [s1|]; simpl; [|done].
    intros Hc. eapply evolves_call; [by apply IH|done].
Qed.

Lemma session_reachable {TPayload TExn : Type} (calls : list (call TPayload TExn)) s :
  session calls = Some s → reachable s.
Proof. apply session_from_evolves. Qed.

Import Scenario.

(** Case analysis on the callback registered under a token in a concrete
    registry. *)
Ltac registry_cases s :=
  let o := eval vm_compute in (_callbacks s) in
  change (_callbacks s) with o; simpl obj_get;
  repeat case_decide; try discriminate;
  let E := fresh in intros E; injection E as <-.

Ltac by_session calls := apply (session_reachable calls); vm_compute; reflexivity.

Lemma calm_pair_reachable : reachable calm_pair.
Proof. by_session calm_pair_calls. Qed.

Lemma thrower_reachable : reachable thrower.
Proof. by_session thrower_calls. Qed.

Lemma stale_reachable : reachable stale.
Proof. by_session stale_calls. Qed.

(** C1, checked on two calm stores. *)
Lemma calm_callbacks_run_once_in_order_witness :
  ∃ n, ∀ m, n ≤ m →
    ∃ s' j,
      dispatch m "x" calm_pair = Returns s' ∧
      journal s' = journal calm_pair ++ j ∧
      invocations j = [("ID_1", Some "x"); ("ID_2", Some "x")] ∧
      completions j = ["ID_1"; "ID_2"] ∧
      NoDup ["ID_1"; "ID_2"].
Proof.
  apply (calm_callbacks_run_once_in_order "x" calm_pair calm_pair_reachable).
  intros id cb. registry_cases calm_pair; repeat constructor.
Defined.

(** C1 as the claim states it fails: no callback calls [waitFor], yet the
    second callback is never entered, because the first one throws, or
    because the first one unregisters it. *)
Lemma uncalm_callbacks_cut_the_dispatch_short :
  (obj_keys (_callbacks thrower) = ["ID_1"; "ID_2"] ∧
   (∀ id cb, obj_get (_callbacks thrower) id = Some cb → never_waits (cb (Some "x"))) ∧
   (∃ s', dispatch 1 "x" thrower = Throws (Raised "boom") s') ∧
   ∀ n s', state_of (dispatch n "x" thrower) = Some s' →
     dispatch n "x" thrower = Throws (Raised "boom") s' ∧
     invocations (journal s') = [("ID_1", Some "x")]) ∧
  (obj_keys (_callbacks unregisterer) = ["ID_1"; "ID_2"] ∧
   (∀ id cb, obj_get (_callbacks unregisterer) id = Some cb → never_waits (cb (Some "x"))) ∧
   (∃ s', dispatch 2 "x" unregisterer = Returns s') ∧
   ∀ n s', state_of (dispatch n "x" unregisterer) = Some s' →
     dispatch n "x" unregisterer = Returns s' ∧
     invocations (journal s') = [("ID_1", Some "x")]).
Proof.
  split; split_and!.
  - vm_compute. reflexivity.
  - intros id cb. registry_cases thrower; exact I.
  - eexists. vm_compute. reflexivity.
  - intros [|n] s'; vm_compute; [discriminate|]. intros [= <-]. split; reflexivity.
  - vm_compute. reflexivity.
  - intros id cb. registry_cases unregisterer; exact I.
  - eexists. vm_compute. reflexivity.
  - intros [|[|n]] s'; vm_compute; [discriminate..|]. intros [= <-]. split; reflexivity.
Qed.

(** C2, checked on two stores that wait for each other. *)
Lemma circular_wait_is_rejected_witness :
  ∃ n, ∀ m, n ≤ m →
    ∃ t s' j,
      dispatch m "x" deadlock = Throws (CircularDependencyError t) s' ∧
      journal s' = journal deadlock ++ j ∧
      open_in j t ∧
      isDispatching s' = false.
Proof.
  apply (circular_wait_is_rejected "x" deadlock "ID_1" "ID_2").
  - reflexivity.
  - intros id cb. registry_cases deadlock; (split; [exact I|]);
      intros t ->%list_elem_of_singleton; reflexivity.
  - apply tc_once. eexists. split; [reflexivity|]. by apply list_elem_of_singleton.
  - apply tc_once. eexists. split; [reflexivity|]. by apply list_elem_of_singleton.
Defined.

(** C2 as the claim states it fails: A calls [waitFor] on B and B calls
    [waitFor] on A, both callbacks are entered, and the dispatch returns
    normally, because A catches the error that B's [waitFor] raised. *)
Lemma caught_cycle_goes_unreported :
  (∃ s' j, dispatch 4 "x" catcher = Returns s' ∧
           journal s' = journal catcher ++ j ∧
           invocations j = [("ID_1", Some "x"); ("ID_2", Some "x")] ∧
           completions j = ["ID_1"]) ∧
  ∀ n e s', dispatch n "x" catcher ≠ Throws e s'.
Proof.
  split.
  - eexists _, [_; _; _]. vm_compute. split_and!; reflexivity.
  - intros n e s'. destruct (decide (4 ≤ n)) as [Hle|Hlt].
    + rewrite (dispatch_mono 4 n) by (vm_compute; done || discriminate). vm_compute. discriminate.
    + do 4 (destruct n as [|n]; [vm_compute; discriminate|]). lia.
Qed.

(** C3, checked on a dispatch that a callback makes fail. *)
Lemma dispatch_cleans_up_witness :
  ∃ s', dispatch 1 "x" thrower = Throws (Raised "boom") s' ∧
        isDispatching s' = false ∧ _pendingPayload s' = None ∧
        ∀ id, obj_has (_callbacks s') id = true →
          _isPending (_startDispatching "y" s') !! id = Some false ∧
          _isHandled (_startDispatching "y" s') !! id = Some false.
Proof.
  pose (s' := default thrower (state_of (dispatch 1 "x" thrower))).
  assert (isDispatching thrower = false) as Hd by reflexivity.
  assert (state_of (dispatch 1 "x" thrower) = Some s') as Hr by (vm_compute; reflexivity).
  destruct (dispatch_cleans_up 1 "x" thrower s' Hd Hr) as (H1 & H2 & _ & _ & H5).
  exists s'. split_and!; [vm_compute; reflexivity|exact H1|exact H2|].
  intros id Hid. by apply (H5 0 "y").
Defined.


(** C5, checked on the callback that throws. *)
Lemma failed_callback_stays_pending_witness :
  ∃ s', _invokeCallback 1 "ID_1" (_startDispatching "x" thrower)
          = Throws (Raised "boom") s' ∧
        truthy (_isPending s') "ID_1" = true ∧ truthy (_isHandled s') "ID_1" = false ∧
        waitFor 1 ["ID_1"] s' = Throws (CircularDependencyError "ID_1") s'.
Proof.
  pose (s := _startDispatching "x" thrower).
  pose (s' := default s (state_of (_invokeCallback 1 "ID_1" s))).
  assert (_invokeCallback 1 "ID_1" s = Throws (Raised "boom") s') as Hr
    by (vm_compute; reflexivity).
  destruct (failed_callback_stays_pending 1 "x" thrower [] s "ID_1" (Raised "boom") s')
    as (H1 & H2 & _ & H4).
  - apply thrower_reachable.
  - apply rtc_refl.
  - vm_compute. reflexivity.
  - vm_compute. reflexivity.
  - exact Hr.
  - exists s'. split_and!; [exact Hr|exact H1|exact H2|].
    apply (H4 ([], s') (rtc_refl _ _)).
Defined.

(** C6 as the claim states it fails: during the second dispatch both maps
    hold an entry, still true, for a token that is no longer registered. *)
Lemma flags_outlive_unregister :
  reachable stale ∧
  obj_keys (_callbacks stale) = ["ID_2"] ∧
  obj_has (_callbacks (_startDispatching "y" stale)) "ID_1" = false ∧
  _isPending (_startDispatching "y" stale) !! "ID_1" = Some true ∧
  _isHandled (_startDispatching "y" stale) !! "ID_1" = Some true.
Proof.
  split; [apply stale_reachable|]. vm_compute. split_and!; reflexivity.
Qed.

(** C6 as the code has it, checked on the same dispatcher. *)
Lemma flags_cover_registered_witness :
  _isPending (_startDispatching "y" stale) !! "ID_2" = Some false ∧
  _isHandled (_startDispatching "y" stale) !! "ID_2" = Some false ∧
  _isPending (_startDispatching "y" stale) !! "ID_1" = _isPending stale !! "ID_1".
Proof.
  destruct (flags_cover_registered "y" stale) as (H1 & H2 & _).
  destruct (H1 "ID_2") as [H3 H4]; [vm_compute; reflexivity|].
  destruct (H2 "ID_1") as [H5 _]; [vm_compute; reflexivity|].
  split_and!; [exact H3|exact H4|exact H5].
Defined.

(** C7, checked across an [unregister]. *)
Lemma tokens_are_unique_witness :
  (register (λ _, Ret) (@constructor string string)).1 ≠ (register (λ _, Ret) stale).1 ∧
  NoDup (minted (journal stale)).
Proof.
  destruct (@tokens_are_unique string string) as [H1 H2]. split.
  - apply H1.
    apply (session_from_evolves _ [CallDispatch 1 "x"; CallUnregister "ID_1";
                                   CallRegister (λ _, Ret)]).
    vm_compute. reflexivity.
  - destruct (H2 stale (λ _, Ret) stale_reachable) as [H _]. exact H.
Defined.

(** C8, checked inside a dispatch. *)
Lemma dispatch_is_not_reentrant_witness :
  dispatch 3 "y" (_startDispatching "x" thrower)
    = Throws ReentrantDispatchError (_startDispatching "x" thrower).
Proof.
  assert (isDispatching (_startDispatching "x" thrower) = true) as Hd
    by (vm_compute; reflexivity).
  destruct (dispatch_is_not_reentrant 3 "y" (_startDispatching "x" thrower) Hd) as [H _].
  exact H.
Defined.

(** The guards, checked outside and inside a dispatch on a token that was
    never handed out. *)
Lemma guard_rails_witness :
  waitFor 1 ["ID_1"] thrower = Throws NotDispatchingError thrower ∧
  unregister "ID_7" thrower = Throws (InvalidTokenError_unregister "ID_7") thrower ∧
  waitFor 1 ["ID_7"; "ID_1"] (_startDispatching "x" thrower)
    = Throws (InvalidTokenError "ID_7") (_startDispatching "x" thrower).
Proof.
  destruct (guard_rails 1 thrower "ID_7" [] ["ID_1"]) as (H1 & H2 & _).
  destruct (guard_rails 1 (_startDispatching "x" thrower) "ID_7" [] ["ID_1"]) as (_ & _ & H3).
  split_and!.
  - apply H1. vm_compute. reflexivity.
  - apply H2; vm_compute; reflexivity.
  - apply H3.
    + vm_compute. reflexivity.
    + vm_compute. reflexivity.
    + vm_compute. reflexivity.
    + vm_compute. reflexivity.
    + intros t Ht. by apply elem_of_nil in Ht.
Defined.

(** C9. The guards of [unregister] and [waitFor] test
    [this._callbacks[id]], [this._isPending[id]] and [this._isHandled[id]],
    and these reads also find the names every object inherits.  In [heir]
    the only token handed out is [ID_1], and [toString] is not registered;
    yet [unregister("toString")] returns and leaves the dispatcher as it
    is, where [InvalidTokenError] is due; in a dispatch
    [waitFor(["toString"])] returns at once; and the dispatch in which the
    callback makes that call returns, the callback having returned from
    it. *)
Theorem inherited_name_passes_the_guards :
  minted (journal heir) = ["ID_1"] ∧
  obj_keys (_callbacks heir) = ["ID_1"] ∧
  obj_has (_callbacks heir) "toString" = false ∧
  unregister "toString" heir = Returns heir ∧
  isDispatching (_startDispatching "x" heir) = true ∧
  waitFor 1 ["toString"] (_startDispatching "x" heir)
    = Returns (_startDispatching "x" heir) ∧
  ∃ s', dispatch 2 "x" heir = Returns s' ∧
        drop (length (journal heir)) (journal s')
          = [Invoked "ID_1" (Some "x"); Completed "ID_1"].
Proof.
  split_and!; try (vm_compute; reflexivity).
  eexists. split; vm_compute; reflexivity.
Qed.

(** C10, checked on a counter store. *)
Lemma reduce_store_dispatch_witness :
  (∃ st', __invokeOnDispatch "CounterStore" counter Nat.eqb patient_listeners true "forget"
            (mkStore 1 true "change" [])
            = Fails (undefined_state_error "CounterStore") st' ∧
          _state st' = 1 ∧ emitted st' = []) ∧
  (∃ st', __invokeOnDispatch "CounterStore" total_counter Nat.eqb patient_listeners true
            "noop" (mkStore 1 true "change" [])
            = Done st' ∧
          _state st' = 1 ∧ emitted st' = []).
Proof.
  destruct (reduce_store_dispatch "CounterStore" counter Nat.eqb patient_listeners true
              "forget" (mkStore 1 true "change" [])) as [H1 _].
  destruct (reduce_store_dispatch "CounterStore" total_counter Nat.eqb patient_listeners
              true "noop" (mkStore 1 true "change" [])) as [_ H2].
  split.
  - apply H1. reflexivity.
  - destruct H2 as [_ H2].
    + intros state a. unfold total_counter. by case_decide.
    + apply (H2 1); reflexivity.
Defined.

(** The scenario of the specification: A, B and C are registered in that
    order, B waits for A and C waits for B; the callbacks run in the order
    A, B, C, once each. *)
Lemma chain_runs_in_order :
  ∃ s', dispatch 3 "x" chain = Returns s' ∧
        invocations (drop (length (journal chain)) (journal s'))
          = [("ID_1", Some "x"); ("ID_2", Some "x"); ("ID_3", Some "x")] ∧
        completions (drop (length (journal chain)) (journal s')) = ["ID_1"; "ID_2"; "ID_3"].
Proof. eexists. vm_compute. split_and!; reflexivity. Qed.

(** Waiting reorders the callbacks: B and C wait for A, registered last. *)
Lemma shared_upstream_runs_once :
  ∃ s', dispatch 3 "x" shared_upstream = Returns s' ∧
        invocations (drop (length (journal shared_upstream)) (journal s'))
          = [("ID_1", Some "x"); ("ID_3", Some "x"); ("ID_2", Some "x")] ∧
        completions (drop (length (journal shared_upstream)) (journal s'))
          = ["ID_3"; "ID_1"; "ID_2"].
Proof. eexists. vm_compute. split_and!; reflexivity. Qed.

(** ** The further properties, checked on the scenarios *)

Lemma chain_reachable : reachable chain.
Proof. by_session chain_calls. Qed.

Lemma in_use_reachable : reachable in_use.
Proof. by_session in_use_calls. Qed.

(** In [chain] a callback only waits for the one registered just before
    it. *)
Lemma chain_waits a b :
  waits_on (_callbacks chain) "x" a b →
  (a = "ID_2" ∧ b = "ID_1") ∨ (a = "ID_3" ∧ b = "ID_2").
Proof.
  intros (cb & Hget & Hin). revert Hget Hin.
  registry_cases chain; simpl; intros Hin.
  - by apply elem_of_nil in Hin.
  - apply list_elem_of_singleton in Hin. by left.
  - apply list_elem_of_singleton in Hin. by right.
Qed.

Lemma chain_acyclic c : ¬ tc (waits_on (_callbacks chain) "x") c c.
Proof.
  assert (∀ a b, tc (waits_on (_callbacks chain) "x") a b →
                 String.length b = 4 ∧ (a = "ID_2" → b = "ID_1") ∧
                 (a = "ID_1" → False)) as Hdown.
  { induction 1 as [a b [[-> ->]|[-> ->]]%chain_waits
                   |a b c' [[-> ->]|[-> ->]]%chain_waits _ (IH1 & IH2 & IH3)].
    - split_and!; done.
    - split_and!; done.
    - done.
    - split_and!; [done| |]; done. }
  intros H. destruct (Hdown c c H) as (_ & H2 & H3).
  inversion H as [? ? [[-> ->]|[-> ->]]%chain_waits
                 |? b ? [[-> ->]|[-> ->]]%chain_waits Hrest]; subst; try done.
  - destruct (Hdown _ _ Hrest) as (_ & _ & []). done.
  - destruct (Hdown _ _ Hrest) as (_ & Hb & _). by specialize (Hb eq_refl).
Qed.


(** X1, checked on [chain]. *)
Lemma dispatch_hands_the_payload_to_registered_callbacks_witness :
  ∃ s' j, dispatch 3 "x" chain = Returns s' ∧ journal s' = journal chain ++ j ∧
          ∀ id p, (id, p) ∈ invocations j →
            p = Some "x" ∧ (obj_has (_callbacks chain) id = true ∨ id ∈ minted j).
Proof.
  pose (s' := default chain (state_of (dispatch 3 "x" chain))).
  assert (isDispatching chain = false) as Hd by (vm_compute; reflexivity).
  assert (state_of (dispatch 3 "x" chain) = Some s') as Hr by (vm_compute; reflexivity).
  destruct (dispatch_hands_the_payload_to_registered_callbacks 3 "x" chain s' Hd Hr)
    as (j & Hj & Hinv).
  exists s', j. split_and!; [vm_compute; reflexivity|exact Hj|exact Hinv].
Defined.

(** X2, checked on a store that is unregistered between two dispatches. *)
Lemma unregistered_callback_is_never_invoked_witness :
  ∃ s1 s2, unregister "ID_1" in_use = Returns s1 ∧
           session_from s1 later_calls = Some s2 ∧
           obj_has (_callbacks s2) "ID_1" = false ∧
           ∃ j, journal s2 = journal s1 ++ j ∧ "ID_1" ∉ (invocations j).*1.
Proof.
  pose (s1 := default in_use (state_of (unregister "ID_1" in_use))).
  pose (s2 := default s1 (session_from s1 later_calls)).
  assert (unregister "ID_1" in_use = Returns s1) as Hun by (vm_compute; reflexivity).
  assert (session_from s1 later_calls = Some s2) as Hlater by (vm_compute; reflexivity).
  destruct (unregistered_callback_is_never_invoked "ID_1" in_use s1 s2 in_use_reachable Hun
              (session_from_evolves s1 later_calls s2 Hlater)) as [Hgone Hj].
  exists s1, s2. split_and!; [exact Hun|exact Hlater|exact Hgone|exact Hj].
Defined.

(** X8, checked on [chain]. *)
Lemma dispatch_reaches_every_callback_witness :
  ∃ s' j, dispatch 3 "x" chain = Returns s' ∧ journal s' = journal chain ++ j ∧
          NoDup (invocations j).*1 ∧
          ("ID_3", Some "x") ∈ invocations j.
Proof.
  pose (s' := default chain (state_of (dispatch 3 "x" chain))).
  assert (dispatch 3 "x" chain = Returns s') as Hr by (vm_compute; reflexivity).
  destruct (dispatch_reaches_every_callback 3 "x" chain s' chain_reachable Hr)
    as (j & Hj & Hnd & Hall).
  exists s', j. split_and!; [exact Hr|exact Hj|exact Hnd|].
  apply Hall; vm_compute; reflexivity.
Defined.

(** X3, checked on a dispatcher that has unregistered a store. *)
Lemma register_then_unregister_witness :
  obj_has (_callbacks stale) (register (λ _, Ret) stale).1 = false ∧
  obj_keys (_callbacks (register (λ _, Ret) stale).2)
    = obj_keys (_callbacks stale) ++ [(register (λ _, Ret) stale).1] ∧
  ∃ s2, unregister (register (λ _, Ret) stale).1 (register (λ _, Ret) stale).2 = Returns s2 ∧
        _callbacks s2 = _callbacks stale.
Proof.
  destruct (register_then_unregister (λ _, Ret) stale stale_reachable)
    as (H1 & _ & _ & H4 & H5).
  split_and!; [exact H1|exact H4|exact H5].
Defined.

(** X4, checked on the same dispatcher. *)
Lemma registry_keeps_registration_order_witness :
  NoDup (obj_keys (_callbacks stale)) ∧
  sublist (obj_keys (_callbacks stale)) (minted (journal stale)).
Proof. exact (registry_keeps_registration_order stale stale_reachable). Defined.

(** X10, checked on [chain]. *)
Lemma acyclic_waits_run_in_dependency_order_witness :
  ∃ n, ∀ m, n ≤ m →
    ∃ s' j,
      dispatch m "x" chain = Returns s' ∧
      journal s' = journal chain ++ j ∧
      invocations j ≡ₚ (λ t, (t, Some "x")) <$> obj_keys (_callbacks chain) ∧
      completions j ≡ₚ obj_keys (_callbacks chain) ∧
      ∀ a b, waits_on (_callbacks chain) "x" a b → before (completions j) b a.
Proof.
  apply (acyclic_waits_run_in_dependency_order "x" chain chain_reachable).
  - intros id cb. registry_cases chain; (split; [exact I|]); simpl.
    + by intros t ?%elem_of_nil.
    + intros t ->%list_elem_of_singleton. reflexivity.
    + intros t ->%list_elem_of_singleton. reflexivity.
  - apply chain_acyclic.
Defined.

(** X9, checked on a dispatch that a callback makes fail. *)
Lemma callbacks_enter_and_return_at_most_once_witness :
  ∃ s' j, dispatch 1 "x" thrower = Throws (Raised "boom") s' ∧
          journal s' = journal thrower ++ j ∧
          NoDup (invocations j).*1 ∧ NoDup (completions j) ∧ returns_follow_entries j.
Proof.
  pose (s' := default thrower (state_of (dispatch 1 "x" thrower))).
  assert (isDispatching thrower = false) as Hd by reflexivity.
  assert (state_of (dispatch 1 "x" thrower) = Some s') as Hr by (vm_compute; reflexivity).
  destruct (callbacks_enter_and_return_at_most_once 1 "x" thrower s' Hd Hr)
    as (j & Hj & H1 & H2 & H3).
  exists s', j. split_and!; [vm_compute; reflexivity|exact Hj|exact H1|exact H2|exact H3].
Defined.

(** X5, checked across an [unregister]. *)
Lemma tokens_are_numbered_in_order_witness :
  minted (journal stale)
    = (λ n, _prefix +:+ pretty (N.of_nat n)) <$> seq 1 (N.to_nat (_lastID stale) - 1).
Proof. exact (tokens_are_numbered_in_order stale stale_reachable). Defined.

(** X11, checked on a dispatch in which a callback catches an error. *)
Lemma dispatch_leaves_the_registry_witness :
  ∃ s', dispatch 4 "x" catcher = Returns s' ∧
        _callbacks s' = _callbacks catcher ∧ _lastID s' = _lastID catcher.
Proof.
  pose (s' := default catcher (state_of (dispatch 4 "x" catcher))).
  assert (isDispatching catcher = false) as Hd by reflexivity.
  assert (state_of (dispatch 4 "x" catcher) = Some s') as Hr by (vm_compute; reflexivity).
  destruct (dispatch_leaves_the_registry 4 "x" catcher s' Hd) as [H1 H2].
  - intros id cb. registry_cases catcher; simpl; done.
  - exact Hr.
  - exists s'. split_and!; [vm_compute; reflexivity|exact H1|exact H2].
Defined.


(** X14, checked on a store that counts, with a listener that throws. *)
Lemma store_state_is_the_fold_witness :
  ∃ errors st' n,
    dispatched "CounterStore" (λ state action, Some (tally state action)) Nat.eqb
      throwing_listener ["add"; "noop"; "add"] (mkStore 0 false "change" [])
      = (errors, st') ∧
    getState st' = 2 ∧ emitted st' = replicate n "change" ∧ n ≤ 3 ∧
    ∀ e, e ∈ errors → ∃ x, e = Raised x.
Proof.
  assert (∀ one two, Nat.eqb one two = true → one = two) as Heq
    by (intros one two H; by apply Nat.eqb_eq).
  destruct (store_state_is_the_fold "CounterStore" Nat.eqb throwing_listener tally
              ["add"; "noop"; "add"] (mkStore 0 false "change" []) Heq)
    as (errors & st' & n & H1 & H2 & H3 & H4 & H5 & _).
  exists errors, st', n. split_and!; [exact H1|exact H2|exact H3|exact H4|exact H5].
Defined.

(** X6, checked after a dispatch and an [unregister]. *)
Lemma dispatcher_is_idle_between_calls_witness :
  isDispatching stale = false ∧ _pendingPayload stale = None ∧
  "ID_1" ∈ minted (journal stale).
Proof.
  destruct (dispatcher_is_idle_between_calls stale stale_reachable) as (H1 & H2 & _ & H4).
  split_and!; [exact H1|exact H2|].
  apply H4. right. left. exists true. vm_compute. reflexivity.
Defined.
